(** * Suffix array: construction, pattern search and longest repeated substring

    A shallow embedding of
    [algorithms-and-data-structures/data-structures/suffix-array.cpp]
    (class [SuffixArray]: [cmp], [build], the constructor, [find], [findLCP],
    [print])
    and the verification of its specification.

    Conventions of the embedding.
    - [int] values are integers of [Z]; every intermediate value of the
      program ([i + k], [lo + hi + 1], [k << 1], ranks, character codes) stays
      below [2 * n + 256], so the arithmetic is exact for texts shorter
      than 2^30 characters.
    - [std::string] is a list of 8-bit characters ([ascii]); [vector<int>] is
      a list of integers.  [operator[]] outside a vector (or beyond the
      terminator of a string) is undefined behaviour in C++: here it is the
      error [OutOfBounds].  [basic_string::compare] and [substr] throw
      [std::out_of_range] when the start position exceeds the size: here the
      error [OutOfRange].
    - The two things the program takes from its C++ implementation are
      gathered in the class [Impl]: whether plain [char] is signed (this
      decides the value of [ra[i] = s[i]] for characters above 0x7F), and
      [std::sort], known through its contract only (the result is a
      permutation of the input, ordered with respect to the comparator
      whenever the comparator is a strict weak ordering; the order of
      equivalent elements is not specified). *)

From Stdlib Require Import ZArith Ascii String Sorted DecimalString.
From stdpp Require Import base tactics option list numbers strings sorting.

Local Open Scope Z_scope.

(** ** Results of fallible operations *)

Inductive result (A : Type) : Type :=
| Ok (a : A)
| OutOfBounds
| OutOfRange
| OutOfFuel.
Arguments Ok {A} a.
Arguments OutOfBounds {A}.
Arguments OutOfRange {A}.
Arguments OutOfFuel {A}.

Definition bind {A B : Type} (r : result A) (f : A -> result B) : result B :=
  match r with
  | Ok a => f a
  | OutOfBounds => OutOfBounds
  | OutOfRange => OutOfRange
  | OutOfFuel => OutOfFuel
  end.

Notation "'let*' x ':=' e 'in' f" := (bind e (fun x => f))
  (at level 10, x name, e at level 100, f at level 200).

Definition is_ok {A : Type} (r : result A) : bool :=
  match r with Ok _ => true | _ => false end.

(** ** Vectors and strings *)

Definition len {A : Type} (l : list A) : Z := Z.of_nat (length l).

(** [v[i]] as an rvalue. *)
Definition vget (v : list Z) (i : Z) : result Z :=
  if 0 <=? i then
    match v !! Z.to_nat i with
    | Some x => Ok x
    | None => OutOfBounds
    end
  else OutOfBounds.

(** [v[i] = x]. *)
Definition vset (v : list Z) (i x : Z) : result (list Z) :=
  if (0 <=? i) && (i <? len v) then Ok (<[Z.to_nat i := x]> v) else OutOfBounds.

(** [vector<int> v(n)] and [v.assign(n, 0)]. *)
Definition vzero (n : Z) : list Z := replicate (Z.to_nat n) 0.

(** The value of a character as [unsigned char]. *)
Definition uchar (c : ascii) : Z := Z.of_N (N_of_ascii c).

(** [s[i]]: the character at [i], and [charT()] at [i = s.size()]. *)
Definition str_at (s : list ascii) (i : Z) : result ascii :=
  if 0 <=? i then
    match s !! Z.to_nat i with
    | Some c => Ok c
    | None => if i =? len s then Ok zero else OutOfBounds
    end
  else OutOfBounds.

(** [char_traits<char>::compare] followed by the comparison of the lengths:
    the lexicographic order of strings, characters compared as
    [unsigned char]. *)
Fixpoint traits_compare (a b : list ascii) : comparison :=
  match a, b with
  | [], [] => Eq
  | [], _ :: _ => Lt
  | _ :: _, [] => Gt
  | x :: a', y :: b' =>
      match uchar x ?= uchar y with
      | Eq => traits_compare a' b'
      | c => c
      end
  end.

(** [s.substr(pos, cnt)]. *)
Definition substr (s : list ascii) (pos cnt : Z) : result (list ascii) :=
  if (0 <=? pos) && (pos <=? len s) && (0 <=? cnt)
  then Ok (take (Z.to_nat cnt) (drop (Z.to_nat pos) s))
  else OutOfRange.

(** [s.compare(pos, cnt, p)]: the sign of the comparison of
    [s.substr(pos, cnt)] with [p]. *)
Definition compare (s : list ascii) (pos cnt : Z) (p : list ascii) : result comparison :=
  let* sub := substr s pos cnt in
  Ok (traits_compare sub p).

(** [s.substr(pos)]: the characters from [pos] to the end. *)
Definition substr_from (s : list ascii) (pos : Z) : result (list ascii) :=
  if (0 <=? pos) && (pos <=? len s) then Ok (drop (Z.to_nat pos) s) else OutOfRange.

(** [cout << x] for an [int] [x], with the stream in its initial state: the
    decimal digits of [x], after a minus sign when it is negative. *)
Definition show_int (x : Z) : list ascii :=
  list_ascii_of_string (NilZero.string_of_int (Z.to_int x)).

(** The character ['\n']. *)
Definition newline : ascii := ascii_of_nat 10.

(** ** Counted loops: [for (int i = a; i < b; i++) body] *)

Fixpoint for_count {St : Type} (cnt : nat) (i : Z) (body : Z -> St -> result St) (st : St)
  : result St :=
  match cnt with
  | O => Ok st
  | S cnt' => let* st' := body i st in for_count cnt' (i + 1) body st'
  end.

Definition for_loop {St : Type} (a b : Z) (body : Z -> St -> result St) (st : St)
  : result St :=
  for_count (Z.to_nat (b - a)) a body st.

(** ** What the program takes from the C++ implementation *)

(** A comparator is a strict weak ordering on the elements of [l]. *)
Definition strict_weak_on (f : Z -> Z -> bool) (l : list Z) : Prop :=
  (forall x, x ∈ l -> f x x = false) /\
  (forall x y z, x ∈ l -> y ∈ l -> z ∈ l -> f x y = true -> f y z = true -> f x z = true) /\
  (forall x y z, x ∈ l -> y ∈ l -> z ∈ l -> f x y = true -> f x z = true \/ f z y = true).

(** No element of an ordered range is smaller than an earlier one. *)
Definition ordered_by (f : Z -> Z -> bool) (l : list Z) : Prop :=
  forall (i j : nat) x y, (i < j)%nat -> l !! i = Some x -> l !! j = Some y -> f y x = false.

Class Impl : Type := {
  plain_char_signed : bool;
  std_sort : (Z -> Z -> bool) -> list Z -> list Z;
  std_sort_perm : forall f l, std_sort f l ≡ₚ l;
  std_sort_ordered : forall f l, strict_weak_on f l -> ordered_by f (std_sort f l)
}.

(** ** The class [SuffixArray] *)

Record SuffixArray : Type := {
  s : list ascii;
  n : Z;
  k : Z;
  sa : list Z;
  ra : list Z;
  rb : list Z
}.

Definition with_k (t : SuffixArray) (v : Z) : SuffixArray :=
  {| s := s t; n := n t; k := v; sa := sa t; ra := ra t; rb := rb t |}.
Definition with_sa (t : SuffixArray) (v : list Z) : SuffixArray :=
  {| s := s t; n := n t; k := k t; sa := v; ra := ra t; rb := rb t |}.
Definition with_ra (t : SuffixArray) (v : list Z) : SuffixArray :=
  {| s := s t; n := n t; k := k t; sa := sa t; ra := v; rb := rb t |}.
Definition with_rb (t : SuffixArray) (v : list Z) : SuffixArray :=
  {| s := s t; n := n t; k := k t; sa := sa t; ra := ra t; rb := v |}.

Section Program.
Context {impl : Impl}.

(** The conversion [char -> int] of [ra[i] = s[i]]. *)
Definition char_to_int (c : ascii) : Z :=
  if plain_char_signed && (128 <=? uchar c) then uchar c - 256 else uchar c.

Definition cmp (t : SuffixArray) (i j : Z) : result bool :=
  let* raik := (if i + k t <? n t then vget (ra t) (i + k t) else Ok 0) in
  let* rajk := (if j + k t <? n t then vget (ra t) (j + k t) else Ok 0) in
  let* rai := vget (ra t) i in
  let* raj := vget (ra t) j in
  Ok ((rai <? raj) || ((rai =? raj) && (raik <? rajk))).

(** The value of [cmp] where it is defined. *)
Definition cmp_val (t : SuffixArray) (i j : Z) : bool :=
  match cmp t i j with
  | Ok b => b
  | _ => false
  end.

(** [sort(sa.begin(), sa.end(), cmp)]: the comparator is called on elements of
    [sa] only; all these calls must be defined. *)
Definition sort_sa (t : SuffixArray) : result SuffixArray :=
  if forallb (fun i => forallb (fun j => is_ok (cmp t i j)) (sa t)) (sa t)
  then Ok (with_sa t (std_sort (cmp_val t) (sa t)))
  else OutOfBounds.

(** [rb[sa[i]] = rb[sa[i-1]] + cmp(sa[i-1], sa[i])]. *)
Definition rerank_body (i : Z) (t : SuffixArray) : result SuffixArray :=
  let* sai := vget (sa t) i in
  let* sap := vget (sa t) (i - 1) in
  let* r := vget (rb t) sap in
  let* c := cmp t sap sai in
  let* rb' := vset (rb t) sai (r + Z.b2z c) in
  Ok (with_rb t rb').

(** [ra[sa[i]] = rb[sa[i]]]. *)
Definition copy_body (i : Z) (t : SuffixArray) : result SuffixArray :=
  let* sai := vget (sa t) i in
  let* r := vget (rb t) sai in
  let* ra' := vset (ra t) sai r in
  Ok (with_ra t ra').

(** The body of the doubling loop, up to the test of the [break]. *)
Definition build_iter (t : SuffixArray) : result SuffixArray :=
  let* t1 := sort_sa t in
  let* sa0 := vget (sa t1) 0 in
  let* rb1 := vset (rb t1) sa0 1 in
  let* t2 := for_loop 1 (n t1) rerank_body (with_rb t1 rb1) in
  for_loop 0 (n t2) copy_body t2.

(** [for (k = 1; k < n; k <<= 1) { ...; if (ra[sa[n-1]] == n) break; }],
    entered with [k] already set.  Besides the final state the loop reports,
    for every iteration it ran, the state at the start of its body and the
    state at the end of its body. *)
Fixpoint build_loop (fuel : nat) (t : SuffixArray)
  : result (SuffixArray * list (SuffixArray * SuffixArray)) :=
  if k t <? n t then
    match fuel with
    | O => OutOfFuel
    | S fuel' =>
        let* t' := build_iter t in
        let* last := vget (sa t') (n t' - 1) in
        let* r := vget (ra t') last in
        if r =? n t' then Ok (t', [(t, t')])
        else
          let* r := build_loop fuel' (with_k t' (Z.shiftl (k t') 1)) in
          Ok (r.1, (t, t') :: r.2)
    end
  else Ok (t, []).

Definition init_sa_body (i : Z) (t : SuffixArray) : result SuffixArray :=
  let* v := vset (sa t) i i in
  Ok (with_sa t v).

Definition init_ra_body (i : Z) (t : SuffixArray) : result SuffixArray :=
  let* c := str_at (s t) i in
  let* v := vset (ra t) i (char_to_int c) in
  Ok (with_ra t v).

Definition build_log (t : SuffixArray)
  : result (SuffixArray * list (SuffixArray * SuffixArray)) :=
  let* t1 := for_loop 0 (n t) init_sa_body t in
  let* t2 := for_loop 0 (n t1) init_ra_body t1 in
  build_loop (Z.to_nat (n t2)) (with_k t2 1).

Definition build (t : SuffixArray) : result SuffixArray :=
  let* r := build_log t in
  Ok r.1.

(** The constructor.  The field [k] is not initialised by the constructor;
    [build] assigns it before reading it. *)
Definition unbuilt (str : list ascii) : SuffixArray :=
  {| s := str; n := len str; k := 0;
     sa := vzero (len str); ra := vzero (len str); rb := vzero (len str) |}.

Definition SuffixArray_new (str : list ascii) : result SuffixArray :=
  build (unbuilt str).

(** *** [find] *)

Fixpoint lower_bound_loop (fuel : nat) (t : SuffixArray) (m : Z) (p : list ascii)
    (lo hi : Z) : result Z :=
  if lo <? hi then
    match fuel with
    | O => OutOfFuel
    | S fuel' =>
        let mi := Z.quot (lo + hi) 2 in
        let* pos := vget (sa t) mi in
        let* c := compare (s t) pos m p in
        match c with
        | Lt => lower_bound_loop fuel' t m p (mi + 1) hi
        | _ => lower_bound_loop fuel' t m p lo mi
        end
    end
  else Ok lo.

Fixpoint upper_bound_loop (fuel : nat) (t : SuffixArray) (m : Z) (p : list ascii)
    (lo hi : Z) : result Z :=
  if lo <? hi then
    match fuel with
    | O => OutOfFuel
    | S fuel' =>
        let mi := Z.quot (lo + hi + 1) 2 in
        let* pos := vget (sa t) mi in
        let* c := compare (s t) pos m p in
        match c with
        | Gt => upper_bound_loop fuel' t m p lo (mi - 1)
        | _ => upper_bound_loop fuel' t m p mi hi
        end
    end
  else Ok hi.

(** [for (int i = first; i <= second; i++) pos.push_back(sa[i])]. *)
Definition push_body (t : SuffixArray) (i : Z) (pos : list Z) : result (list Z) :=
  let* x := vget (sa t) i in
  Ok (pos ++ [x]).

Definition find (t : SuffixArray) (p : list ascii) : result (list Z) :=
  let m := len p in
  let* lo := lower_bound_loop (Z.to_nat (n t)) t m p 0 (n t) in
  let* pos := vget (sa t) lo in
  let* c := compare (s t) pos m p in
  match c with
  | Eq =>
      let first := lo in
      let* hi := upper_bound_loop (Z.to_nat (n t)) t m p (-1) (n t - 1) in
      let second := hi in
      for_loop first (second + 1) (push_body t) []
  | _ => Ok []
  end.

(** *** [findLCP] *)

(** [phi[sa[i]] = sa[i-1]]. *)
Definition phi_body (t : SuffixArray) (i : Z) (phi : list Z) : result (list Z) :=
  let* sai := vget (sa t) i in
  let* sap := vget (sa t) (i - 1) in
  vset phi sai sap.

(** [while (s[i + L] == s[phi[i] + L]) L++], with [j = phi[i]]. *)
Fixpoint extend_loop (fuel : nat) (str : list ascii) (i j L : Z) : result Z :=
  match fuel with
  | O => OutOfFuel
  | S fuel' =>
      let* a := str_at str (i + L) in
      let* b := str_at str (j + L) in
      if bool_decide (a = b) then extend_loop fuel' str i j (L + 1) else Ok L
  end.

(** The local variables of the second loop of [findLCP]. *)
Record lcp_state : Type := {
  plcp : list Z;
  L : Z;
  maxL : Z;
  lcp : list ascii
}.

Definition plcp_body (t : SuffixArray) (phi : list Z) (i : Z) (q : lcp_state)
  : result lcp_state :=
  let* phii := vget phi i in
  if phii =? -1 then
    let* plcp' := vset (plcp q) i 0 in
    Ok {| plcp := plcp'; L := L q; maxL := maxL q; lcp := lcp q |}
  else
    let* L' := extend_loop (Z.to_nat (n t + 2)) (s t) i phii (L q) in
    let* plcp' := vset (plcp q) i L' in
    let* best :=
      (if maxL q <? L' then let* sub := substr (s t) i L' in Ok (L', sub)
       else Ok (maxL q, lcp q)) in
    Ok {| plcp := plcp'; L := Z.max (L' - 1) 0; maxL := best.1; lcp := best.2 |}.

(** [findLCP], reporting [phi] and the final values of the locals. *)
Definition findLCP_run (t : SuffixArray) : result (list Z * lcp_state) :=
  let phi0 := vzero (n t) in
  let* sa0 := vget (sa t) 0 in
  let* phi1 := vset phi0 sa0 (-1) in
  let* phi := for_loop 1 (n t) (phi_body t) phi1 in
  let* q := for_loop 0 (n t) (plcp_body t phi)
              {| plcp := vzero (n t); L := 0; maxL := 0; lcp := [] |} in
  Ok (phi, q).

Definition findLCP (t : SuffixArray) : result (list ascii) :=
  let* r := findLCP_run t in
  Ok (lcp r.2).

(** *** [print] *)

(** [cout << sa[i] << ' ' << s.substr(sa[i]) << '\n']; the characters written
    to [cout] are appended to [out]. *)
Definition print_body (t : SuffixArray) (i : Z) (out : list ascii) : result (list ascii) :=
  let* x := vget (sa t) i in
  let* sub := substr_from (s t) x in
  Ok (out ++ show_int x ++ [" "%char] ++ sub ++ [newline]).

Definition print (t : SuffixArray) (out : list ascii) : result (list ascii) :=
  let* out1 := for_loop 0 (n t) (print_body t) out in
  Ok (out1 ++ [newline]).

End Program.

(** ** An implementation of [std::sort]: insertion sort

    The element [x] moves towards the front while the comparator puts it
    before its left neighbour.  The sorted part is kept with its last element
    first. *)

Fixpoint linear_insert (f : Z -> Z -> bool) (x : Z) (sorted_rev : list Z) : list Z :=
  match sorted_rev with
  | [] => [x]
  | y :: rest => if f x y then y :: linear_insert f x rest else x :: y :: rest
  end.

Definition insertion_sort (f : Z -> Z -> bool) (l : list Z) : list Z :=
  reverse (fold_left (fun acc x => linear_insert f x acc) l []).

(** ** Notions of the specification *)

(** [suffix(Text, i)], the text from position [i] on. *)
Definition suffix (str : list ascii) (i : Z) : list ascii := drop (Z.to_nat i) str.

(** The first [h] characters of [suffix(Text, i)], cut at the end of the text. *)
Definition prefix_at (str : list ascii) (h i : Z) : list ascii :=
  take (Z.to_nat h) (suffix str i).

(** [a <= b] in the lexicographic order of strings. *)
Definition lex_le (a b : list ascii) : Prop := traits_compare a b <> Gt.

(** The suffixes listed by [l] are in lexicographic order. *)
Definition suffixes_sorted (str : list ascii) (l : list Z) : Prop :=
  forall (i j : nat) x y, (i < j)%nat -> l !! i = Some x -> l !! j = Some y ->
    lex_le (suffix str x) (suffix str y).

(** [l] is a permutation of [0, n). *)
Definition perm_of_indices (n : Z) (l : list Z) : Prop := l ≡ₚ seqZ 0 n.

(** The length of the longest common prefix of two strings. *)
Fixpoint lcp_len (a b : list ascii) : Z :=
  match a, b with
  | x :: a', y :: b' => if bool_decide (x = y) then 1 + lcp_len a' b' else 0
  | _, _ => 0
  end.

(** The pattern [p] occurs in the text at position [i]. *)
Definition occurs_at (str p : list ascii) (i : Z) : Prop :=
  0 <= i < len str /\ take (length p) (suffix str i) = p.

(** The line of [print] for the suffix at [x]: the position, a space, the
    suffix and a newline. *)
Definition print_line (str : list ascii) (x : Z) : list ascii :=
  show_int x ++ [" "%char] ++ suffix str x ++ [newline].

(** The characters of the text have positive values as [int]. *)
Definition positive_text `{Impl} (str : list ascii) : Prop :=
  Forall (fun c => 0 < char_to_int c) str.

(** The text has no NUL character. *)
Definition nul_free (str : list ascii) : Prop := Forall (fun c => c <> zero) str.

(** ** Notions used in the proofs *)

(** A string literal as a text. *)
Definition text_of (str : string) : list ascii := list_ascii_of_string str.

(** The element of a vector at an index within its bounds. *)
Definition zth (v : list Z) (i : Z) : Z := default 0 (v !! Z.to_nat i).

(** The state of a [SuffixArray] whose vectors have the size of the text and
    whose [sa] enumerates the positions of the text. *)
Record wf (t : SuffixArray) : Prop := {
  wf_n : n t = len (s t);
  wf_sa : perm_of_indices (n t) (sa t);
  wf_ra : len (ra t) = n t;
  wf_rb : len (rb t) = n t
}.

(** The rank [ra[x]], or the sentinel 0 past the end of the text. *)
Definition ra_ext (t : SuffixArray) (x : Z) : Z := if x <? n t then zth (ra t) x else 0.

(** The comparison of the composite keys [(ra[i], ra[i+k])] and
    [(ra[j], ra[j+k])] made by [cmp]. *)
Definition key_lt (t : SuffixArray) (i j : Z) : bool :=
  (zth (ra t) i <? zth (ra t) j) ||
  ((zth (ra t) i =? zth (ra t) j) && (ra_ext t (i + k t) <? ra_ext t (j + k t))).

(** The rank given to the element at position [p] of the sorted [l]: 1 at the
    front, one more at each position where the key increases. *)
Fixpoint rank_at (f : Z -> Z -> bool) (l : list Z) (p : nat) : Z :=
  match p with
  | O => 1
  | S p' => rank_at f l p' + Z.b2z (f (zth l (Z.of_nat p')) (zth l (Z.of_nat p)))
  end.

(** [doubling t log tf]: entered in state [t], the loop runs the iterations
    of [log] (state at the start and at the end of each body) and leaves in
    state [tf]. *)
Inductive doubling `{Impl} :
  SuffixArray -> list (SuffixArray * SuffixArray) -> SuffixArray -> Prop :=
| doubling_exit t :
    n t <= k t -> doubling t [] t
| doubling_break t t' :
    k t < n t -> build_iter t = Ok t' ->
    zth (ra t') (zth (sa t') (n t' - 1)) = n t' ->
    doubling t [(t, t')] t'
| doubling_next t t' log tf :
    k t < n t -> build_iter t = Ok t' ->
    zth (ra t') (zth (sa t') (n t' - 1)) <> n t' ->
    doubling (with_k t' (2 * k t')) log tf ->
    doubling t ((t, t') :: log) tf.

(** The state at the first test of the doubling loop: [sa] is the identity,
    [ra] holds the values of the characters, and [k] is 1. *)
Definition start `{Impl} (str : list ascii) : SuffixArray :=
  {| s := str; n := len str; k := 1;
     sa := seqZ 0 (len str); ra := map char_to_int str; rb := vzero (len str) |}.

(** [a < b] in the lexicographic order of strings. *)
Definition lex_ltb (a b : list ascii) : bool :=
  match traits_compare a b with
  | Lt => true
  | _ => false
  end.

(** At the start of the iteration with step [k], the ranks are positive and
    compare as the first [k] characters of the suffixes. *)
Definition rank_order (t : SuffixArray) : Prop :=
  (forall i j, 0 <= i < n t -> 0 <= j < n t ->
     (zth (ra t) i <? zth (ra t) j) =
     lex_ltb (prefix_at (s t) (k t) i) (prefix_at (s t) (k t) j)) /\
  (forall i, 0 <= i < n t -> 0 < zth (ra t) i).

(** At the start of the iteration with step [k], two suffixes have the same
    rank exactly when their first [k] characters agree, and no rank is the
    sentinel. *)
Definition rank_classes (t : SuffixArray) : Prop :=
  (forall i j, 0 <= i < n t -> 0 <= j < n t ->
     zth (ra t) i = zth (ra t) j <-> prefix_at (s t) (k t) i = prefix_at (s t) (k t) j) /\
  (forall i, 0 <= i < n t -> zth (ra t) i <> 0).

(** The comparison made by [find] at rank [r]: the first [|p|] characters of
    the suffix of rank [r], against the pattern. *)
Definition rank_cmp (t : SuffixArray) (p : list ascii) (r : Z) : comparison :=
  traits_compare (prefix_at (s t) (len p) (zth (sa t) r)) p.

(** The comparisons never decrease along the ranks. *)
Definition cmp_monotone (t : SuffixArray) (p : list ascii) : Prop :=
  forall r1 r2, 0 <= r1 <= r2 -> r2 < n t ->
    (rank_cmp t p r2 = Lt -> rank_cmp t p r1 = Lt) /\
    (rank_cmp t p r1 = Gt -> rank_cmp t p r2 = Gt).

(** [phi] maps the suffix of rank [r >= 1] to the suffix of rank [r - 1], and
    the suffix of rank 0 to the sentinel -1. *)
Definition is_phi (t : SuffixArray) (phi : list Z) : Prop :=
  len phi = n t /\
  zth phi (zth (sa t) 0) = -1 /\
  forall r, 1 <= r < n t -> zth phi (zth (sa t) r) = zth (sa t) (r - 1).

(** The length of the longest common prefix of the suffix at [i] and its
    predecessor in the suffix array; 0 for the first suffix of the array. *)
Definition true_plcp (str : list ascii) (phi : list Z) (i : Z) : Z :=
  if zth phi i =? -1 then 0 else lcp_len (suffix str i) (suffix str (zth phi i)).

(** The values tracked by the second loop of [findLCP] after the positions
    below [i]: [maxL] is the greatest of the lengths found, and [lcp] is the
    common prefix at the first position that attains it. *)
Definition best_so_far (str : list ascii) (phi : list Z) (i : Z) (q : lcp_state) : Prop :=
  (forall x, 0 <= x < i -> true_plcp str phi x <= maxL q) /\
  ((maxL q = 0 /\ lcp q = []) \/
   (0 < maxL q /\ exists x, 0 <= x < i /\ true_plcp str phi x = maxL q /\
      lcp q = prefix_at str (maxL q) x /\
      forall y, 0 <= y < x -> true_plcp str phi y < maxL q)).

(** The greatest element of a list of lengths; 0 for the empty list. *)
Definition max_list (l : list Z) : Z := foldr Z.max 0 l.

(** The lengths of the common prefixes of all pairs of distinct suffixes. *)
Definition pair_lcps (str : list ascii) : list Z :=
  i ← seqZ 0 (len str); j ← seqZ 0 (len str);
  if decide (i = j) then [] else [lcp_len (suffix str i) (suffix str j)].

(** The maximum, over the pairs of distinct suffixes, of the length of their
    longest common prefix; 0 when the text has fewer than two suffixes. *)
Definition max_pair_lcp (str : list ascii) : Z := max_list (pair_lcps str).

(** The sorted part, read from its last element: nothing is smaller than an
    element that comes later in this reading. *)
Definition descending (f : Z -> Z -> bool) (l : list Z) : Prop :=
  StronglySorted (fun a b => f a b = false) l.

(** The order of the suffixes, as a relation on the positions of the text. *)
Definition suffix_le (str : list ascii) (x y : Z) : Prop :=
  0 <= x < len str /\ 0 <= y < len str /\ lex_le (suffix str x) (suffix str y).

(** * Verification *)

(** ** The insertion sort meets the contract of [std::sort] *)

Lemma linear_insert_perm f x l : linear_insert f x l ≡ₚ x :: l.
Proof.
  induction l as [|y l IH]; simpl; [done|].
  destruct (f x y); [|done].
  rewrite IH. apply Permutation_swap.
Qed.

Lemma insertion_fold_perm f l acc :
  fold_left (fun acc x => linear_insert f x acc) l acc ≡ₚ l ++ acc.
Proof.
  revert acc. induction l as [|x l IH]; intros acc; simpl; [done|].
  rewrite IH, linear_insert_perm. by rewrite Permutation_middle.
Qed.

Lemma insertion_sort_perm f l : insertion_sort f l ≡ₚ l.
Proof.
  unfold insertion_sort. rewrite reverse_Permutation.
  rewrite insertion_fold_perm. by rewrite app_nil_r.
Qed.

Lemma linear_insert_descending f (dom : list Z) x l :
  strict_weak_on f dom -> x ∈ dom -> (forall y, y ∈ l -> y ∈ dom) ->
  descending f l -> descending f (linear_insert f x l).
Proof.
  intros (Hirr & Htr & Hneg) Hx Hl Hs.
  induction Hs as [|y l Hs IH Hy]; simpl.
  - repeat constructor.
  - assert (Hyd : y ∈ dom) by (apply Hl; left).
    assert (Hld : forall z, z ∈ l -> z ∈ dom) by (intros z Hz; apply Hl; by right).
    destruct (f x y) eqn:Hxy.
    + constructor; [by apply IH|].
      rewrite Forall_forall. intros z Hz.
      apply (elem_of_Permutation_proper z _ _ (linear_insert_perm f x l)) in Hz.
      apply elem_of_cons in Hz as [->|Hz].
      * destruct (f y x) eqn:Hyx; [|done].
        rewrite <- (Hirr x Hx). symmetry. by apply (Htr x y x).
      * rewrite Forall_forall in Hy. by apply Hy.
    + constructor; [by constructor|].
      rewrite Forall_forall. intros z Hz.
      apply elem_of_cons in Hz as [->|Hz]; [done|].
      destruct (f x z) eqn:Hxz; [|done].
      assert (Hzd : z ∈ dom) by (apply Hl; by right).
      destruct (Hneg x z y Hx Hzd Hyd Hxz) as [H1|H1]; [congruence|].
      rewrite Forall_forall in Hy. specialize (Hy z Hz). congruence.
Qed.

Lemma insertion_fold_descending f (dom : list Z) l acc :
  strict_weak_on f dom -> (forall y, y ∈ l -> y ∈ dom) -> (forall y, y ∈ acc -> y ∈ dom) ->
  descending f acc ->
  descending f (fold_left (fun acc x => linear_insert f x acc) l acc).
Proof.
  intros Hswo. revert acc.
  induction l as [|x l IH]; intros acc Hl Hacc Hs; simpl; [done|].
  apply IH.
  - intros y Hy. apply Hl. by right.
  - intros y Hy.
    apply (elem_of_Permutation_proper y _ _ (linear_insert_perm f x acc)) in Hy.
    apply elem_of_cons in Hy as [->|Hy]; [apply Hl; left | by apply Hacc].
  - apply (linear_insert_descending f dom); auto. apply Hl; left.
Qed.

Lemma descending_lookup f l (i j : nat) x y :
  descending f l -> (i < j)%nat -> l !! i = Some x -> l !! j = Some y -> f x y = false.
Proof.
  intros Hs. revert i j.
  induction Hs as [|a l Hs IH Ha]; intros i j Hij Hi Hj; [done|].
  destruct j as [|j]; [lia|].
  destruct i as [|i]; simpl in *.
  - injection Hi as ->. rewrite Forall_forall in Ha. apply Ha.
    by apply list_elem_of_lookup_2 in Hj.
  - apply (IH i j); [lia|done..].
Qed.

Lemma insertion_sort_ordered f l : strict_weak_on f l -> ordered_by f (insertion_sort f l).
Proof.
  intros Hswo i j x y Hij Hi Hj.
  unfold insertion_sort in *.
  set (acc := fold_left _ l []) in *.
  assert (Hd : descending f acc).
  { apply (insertion_fold_descending f l); auto; [|constructor].
    intros z Hz. by apply elem_of_nil in Hz. }
  assert (Hlen : (j < length acc)%nat).
  { apply lookup_lt_Some in Hj. by rewrite length_reverse in Hj. }
  rewrite reverse_lookup in Hi by lia.
  rewrite reverse_lookup in Hj by lia.
  apply (descending_lookup f acc (length acc - S j) (length acc - S i)); [done|lia|done..].
Qed.

(** Two implementations, with plain [char] signed (as on x86) and unsigned
    (as on ARM); on short ranges the [std::sort] of libstdc++ is this
    insertion sort. *)
Definition impl_of (signed : bool) : Impl :=
  {| plain_char_signed := signed;
     std_sort := insertion_sort;
     std_sort_perm := insertion_sort_perm;
     std_sort_ordered := insertion_sort_ordered |}.

Lemma bind_Ok {A B : Type} (r : result A) (f : A -> result B) b :
  bind r f = Ok b <-> exists a, r = Ok a /\ f a = Ok b.
Proof.
  split.
  - destruct r; simpl; intros H; try discriminate. eauto.
  - intros (a & -> & H). exact H.
Qed.

Lemma len_nonneg {A : Type} (l : list A) : 0 <= len l.
Proof. unfold len. lia. Qed.

Lemma len_insert (v : list Z) i x : len (<[i := x]> v) = len v.
Proof. unfold len. by rewrite length_insert. Qed.

Lemma len_vzero m : 0 <= m -> len (vzero m) = m.
Proof. intros Hm. unfold len, vzero. rewrite length_replicate. lia. Qed.

Lemma lookup_zth (v : list Z) (i : Z) :
  0 <= i < len v -> v !! Z.to_nat i = Some (zth v i).
Proof.
  intros Hi. unfold zth.
  destruct (lookup_lt_is_Some_2 v (Z.to_nat i)) as [x Hx]; [unfold len in Hi; lia|].
  by rewrite Hx.
Qed.

Lemma zth_lookup (v : list Z) (p : nat) x : v !! p = Some x -> zth v (Z.of_nat p) = x.
Proof. intros Hp. unfold zth. by rewrite Nat2Z.id, Hp. Qed.

Lemma vget_Ok (v : list Z) i : 0 <= i < len v -> vget v i = Ok (zth v i).
Proof.
  intros Hi. unfold vget.
  destruct (Z.leb_spec 0 i); [|lia]. by rewrite (lookup_zth v i Hi).
Qed.

Lemma vget_inv (v : list Z) i x : vget v i = Ok x -> 0 <= i < len v /\ x = zth v i.
Proof.
  unfold vget. destruct (Z.leb_spec 0 i); [|done].
  destruct (v !! Z.to_nat i) as [y|] eqn:Hy; [|done].
  intros [= ->]. apply lookup_lt_Some in Hy as Hlt.
  split; [unfold len; lia|]. unfold zth. by rewrite Hy.
Qed.

Lemma vget_oob (v : list Z) i : ~ (0 <= i < len v) -> vget v i = OutOfBounds.
Proof.
  intros Hi. unfold vget. destruct (Z.leb_spec 0 i); [|done].
  rewrite lookup_ge_None_2; [done|]. unfold len in Hi. lia.
Qed.

Lemma vset_Ok (v : list Z) i x :
  0 <= i < len v -> vset v i x = Ok (<[Z.to_nat i := x]> v).
Proof.
  intros Hi. unfold vset.
  destruct (Z.leb_spec 0 i); [|lia]. destruct (Z.ltb_spec i (len v)); [done|lia].
Qed.

Lemma zth_insert_eq (v : list Z) i x : 0 <= i < len v -> zth (<[Z.to_nat i := x]> v) i = x.
Proof.
  intros Hi. unfold zth. rewrite list_lookup_insert_eq; [done|]. unfold len in Hi. lia.
Qed.

Lemma zth_insert_ne (v : list Z) i j x :
  0 <= i -> 0 <= j -> i <> j -> zth (<[Z.to_nat i := x]> v) j = zth v j.
Proof.
  intros Hi Hj Hne. unfold zth. rewrite list_lookup_insert_ne; [done|]. lia.
Qed.

Lemma zth_ext (v w : list Z) :
  len v = len w -> (forall i, 0 <= i < len v -> zth v i = zth w i) -> v = w.
Proof.
  intros Hlen Hext. apply list_eq_same_length with (length v); [unfold len in Hlen; lia|reflexivity|].
  intros p x y Hp Hx Hy.
  specialize (Hext (Z.of_nat p)). unfold len in Hext.
  rewrite (zth_lookup v p x Hx), (zth_lookup w p y Hy) in Hext. apply Hext. lia.
Qed.

Lemma for_count_inv {St : Type} (I : Z -> St -> Prop) (body : Z -> St -> result St)
    (cnt : nat) (a : Z) (st : St) :
  I a st ->
  (forall i st0, a <= i < a + Z.of_nat cnt -> I i st0 ->
     exists st1, body i st0 = Ok st1 /\ I (i + 1) st1) ->
  exists st', for_count cnt a body st = Ok st' /\ I (a + Z.of_nat cnt) st'.
Proof.
  revert a st. induction cnt as [|cnt IH]; intros a st HI Hstep; simpl.
  - exists st. split; [done|]. by replace (a + Z.of_nat 0) with a by lia.
  - destruct (Hstep a st) as (st1 & -> & HI1); [lia|done|]. simpl.
    destruct (IH (a + 1) st1 HI1) as (st' & Hrun & HI').
    { intros i st0 Hi. apply Hstep. lia. }
    exists st'. split; [done|]. by replace (a + Z.of_nat (S cnt)) with (a + 1 + Z.of_nat cnt) by lia.
Qed.

Lemma for_loop_inv {St : Type} (I : Z -> St -> Prop) (body : Z -> St -> result St)
    (a b : Z) (st : St) :
  a <= b -> I a st ->
  (forall i st0, a <= i < b -> I i st0 -> exists st1, body i st0 = Ok st1 /\ I (i + 1) st1) ->
  exists st', for_loop a b body st = Ok st' /\ I b st'.
Proof.
  intros Hab HI Hstep. unfold for_loop.
  destruct (for_count_inv I body (Z.to_nat (b - a)) a st HI) as (st' & Hrun & HI').
  { intros i st0 Hi. apply Hstep. lia. }
  exists st'. split; [done|]. by replace (a + Z.of_nat (Z.to_nat (b - a))) with b in HI' by lia.
Qed.

Lemma for_loop_empty {St : Type} (body : Z -> St -> result St) (a b : Z) (st : St) :
  b <= a -> for_loop a b body st = Ok st.
Proof. intros Hab. unfold for_loop. by replace (Z.to_nat (b - a)) with O by lia. Qed.

(** ** Lists that enumerate the indices of the text *)

Lemma perm_elem (l : list Z) m x : perm_of_indices m l -> x ∈ l <-> 0 <= x < m.
Proof.
  intros Hp. rewrite (elem_of_Permutation_proper x _ _ Hp), elem_of_seqZ. lia.
Qed.

Lemma perm_NoDup (l : list Z) m : perm_of_indices m l -> NoDup l.
Proof. intros Hp. eapply NoDup_Permutation_proper; [exact Hp|apply NoDup_seqZ]. Qed.

Lemma perm_len (l : list Z) m : 0 <= m -> perm_of_indices m l -> len l = m.
Proof.
  intros Hm Hp. unfold len. rewrite (Permutation_length Hp), length_seqZ. lia.
Qed.

Lemma perm_range (l : list Z) m p :
  perm_of_indices m l -> 0 <= p < m -> 0 <= zth l p < m.
Proof.
  intros Hp Hr. pose proof (perm_len l m ltac:(lia) Hp) as Hlen.
  apply (perm_elem l m _ Hp).
  apply list_elem_of_lookup. exists (Z.to_nat p). apply lookup_zth. lia.
Qed.

Lemma perm_inj (l : list Z) m p q :
  perm_of_indices m l -> 0 <= p < m -> 0 <= q < m -> zth l p = zth l q -> p = q.
Proof.
  intros Hp Hr Hq Heq. pose proof (perm_len l m ltac:(lia) Hp) as Hlen.
  assert (Z.to_nat p = Z.to_nat q); [|lia].
  apply (NoDup_lookup l _ _ (zth l p) (perm_NoDup l m Hp)).
  - apply lookup_zth. lia.
  - rewrite Heq. apply lookup_zth. lia.
Qed.

Lemma perm_surj (l : list Z) m x :
  perm_of_indices m l -> 0 <= x < m -> exists p, 0 <= p < m /\ zth l p = x.
Proof.
  intros Hp Hx. pose proof (perm_len l m ltac:(lia) Hp) as Hlen.
  apply (perm_elem l m _ Hp) in Hx.
  apply list_elem_of_lookup in Hx as [i Hi].
  apply lookup_lt_Some in Hi as Hlt.
  exists (Z.of_nat i). split; [unfold len in Hlen; lia|]. by apply zth_lookup.
Qed.

(** ** One iteration of the doubling loop *)

Lemma cmp_Ok t i j :
  len (ra t) = n t -> 0 <= k t -> 0 <= i < n t -> 0 <= j < n t ->
  cmp t i j = Ok (key_lt t i j).
Proof.
  intros Hra Hk Hi Hj. unfold cmp, key_lt, ra_ext.
  assert (Hx : forall x, 0 <= x < n t ->
            (if x + k t <? n t then vget (ra t) (x + k t) else Ok 0)
            = Ok (if x + k t <? n t then zth (ra t) (x + k t) else 0)).
  { intros x Hx. destruct (Z.ltb_spec (x + k t) (n t)); [|done]. apply vget_Ok. lia. }
  rewrite (Hx i Hi), (Hx j Hj). simpl.
  rewrite !vget_Ok by lia. done.
Qed.

Lemma cmp_val_key t i j :
  len (ra t) = n t -> 0 <= k t -> 0 <= i < n t -> 0 <= j < n t ->
  cmp_val t i j = key_lt t i j.
Proof. intros. unfold cmp_val. by rewrite cmp_Ok. Qed.

Lemma key_lt_spec t i j :
  key_lt t i j = true <->
  zth (ra t) i < zth (ra t) j \/
  (zth (ra t) i = zth (ra t) j /\ ra_ext t (i + k t) < ra_ext t (j + k t)).
Proof.
  unfold key_lt. rewrite orb_true_iff, andb_true_iff, !Z.ltb_lt, Z.eqb_eq. tauto.
Qed.

Lemma key_lt_false t i j :
  key_lt t i j = false <->
  zth (ra t) j < zth (ra t) i \/
  (zth (ra t) i = zth (ra t) j /\ ra_ext t (j + k t) <= ra_ext t (i + k t)).
Proof.
  rewrite <- not_true_iff_false, key_lt_spec. lia.
Qed.

Lemma key_lt_swo t l : strict_weak_on (key_lt t) l.
Proof.
  split; [|split].
  - intros x _. apply key_lt_false. lia.
  - intros x y z _ _ _. rewrite !key_lt_spec. lia.
  - intros x y z _ _ _. rewrite !key_lt_spec. lia.
Qed.

Lemma cmp_val_swo t :
  wf t -> 0 <= k t -> strict_weak_on (cmp_val t) (sa t).
Proof.
  intros [_ Hsa Hra _] Hk.
  assert (Hin : forall x, x ∈ sa t -> 0 <= x < n t) by (intros x; by apply perm_elem).
  destruct (key_lt_swo t (sa t)) as (H1 & H2 & H3).
  split; [|split].
  - intros x Hx. rewrite cmp_val_key by auto. by apply H1.
  - intros x y z Hx Hy Hz. rewrite !cmp_val_key by auto. by apply H2.
  - intros x y z Hx Hy Hz. rewrite !cmp_val_key by auto. by apply H3.
Qed.

Lemma sort_sa_spec `{Impl} t :
  wf t -> 0 <= k t ->
  exists l, sort_sa t = Ok (with_sa t l) /\ perm_of_indices (n t) l /\
            forall p q, 0 <= p < q -> q < n t -> key_lt t (zth l q) (zth l p) = false.
Proof.
  intros Hwf Hk. pose proof Hwf as [Hn Hsa Hra Hrb].
  assert (Hn0 : 0 <= n t) by (rewrite Hn; apply len_nonneg).
  exists (std_sort (cmp_val t) (sa t)).
  assert (Hperm : perm_of_indices (n t) (std_sort (cmp_val t) (sa t))).
  { unfold perm_of_indices. by rewrite std_sort_perm. }
  split; [|split; [done|]].
  - unfold sort_sa.
    replace (forallb _ (sa t)) with true; [done|]. symmetry.
    apply forallb_forall. intros i Hi%list_elem_of_In.
    apply forallb_forall. intros j Hj%list_elem_of_In.
    apply (perm_elem _ _ _ Hsa) in Hi, Hj. rewrite cmp_Ok by auto. done.
  - intros p q Hpq Hq.
    pose proof (perm_len _ _ Hn0 Hperm) as Hlen.
    rewrite <- cmp_val_key; [|done|done|apply (perm_range _ _ _ Hperm); lia..].
    apply (std_sort_ordered (cmp_val t) (sa t) (cmp_val_swo t Hwf Hk)
             (Z.to_nat p) (Z.to_nat q)); [lia|apply lookup_zth; lia..].
Qed.

Lemma rerank_loop_spec t l v0 :
  wf t -> 0 <= k t -> 1 <= n t -> perm_of_indices (n t) l ->
  len v0 = n t -> zth v0 (zth l 0) = 1 ->
  exists v, for_loop 1 (n t) rerank_body (with_rb (with_sa t l) v0)
              = Ok (with_rb (with_sa t l) v) /\
            len v = n t /\
            forall p, 0 <= p < n t -> zth v (zth l p) = rank_at (key_lt t) l (Z.to_nat p).
Proof.
  intros Hwf Hk Hn Hl Hv0 Hfirst. pose proof Hwf as [_ _ Hra _].
  pose proof (perm_len l (n t) ltac:(lia) Hl) as Hlen.
  set (I := fun (i : Z) (st : SuffixArray) =>
    exists v, st = with_rb (with_sa t l) v /\ len v = n t /\
      forall p, 0 <= p < i -> zth v (zth l p) = rank_at (key_lt t) l (Z.to_nat p)).
  assert (Hinit : I 1 (with_rb (with_sa t l) v0)).
  { exists v0. split; [done|]. split; [done|].
    intros p Hp. by replace p with 0 by lia. }
  destruct (for_loop_inv I rerank_body 1 (n t) (with_rb (with_sa t l) v0) Hn Hinit)
    as (st' & Hrun & v & -> & Hv & Hranks); [|by eauto].
  intros i st0 Hi (v & -> & Hv & Hranks).
  pose proof (perm_range l (n t) i Hl ltac:(lia)) as Hsai.
  pose proof (perm_range l (n t) (i - 1) Hl ltac:(lia)) as Hsap.
  unfold rerank_body. simpl.
  rewrite (vget_Ok l i) by lia. simpl.
  rewrite (vget_Ok l (i - 1)) by lia. simpl.
  rewrite (vget_Ok v) by lia. simpl.
  rewrite (cmp_Ok _ (zth l (i - 1)) (zth l i)) by done. simpl.
  rewrite vset_Ok by lia. simpl.
  eexists. split; [reflexivity|].
  eexists. split; [reflexivity|]. split; [by rewrite len_insert|].
  intros p Hp. destruct (decide (p = i)) as [->|Hne].
  - rewrite zth_insert_eq by lia.
    rewrite (Hranks (i - 1)) by lia.
    replace (Z.to_nat i) with (S (Z.to_nat (i - 1))) by lia. cbn [rank_at].
    replace (Z.of_nat (S (Z.to_nat (i - 1)))) with i by lia.
    rewrite Z2Nat.id by lia. reflexivity.
  - rewrite zth_insert_ne; [apply Hranks; lia|lia| |].
    + pose proof (perm_range l (n t) p Hl ltac:(lia)). lia.
    + intros Heq. apply Hne. symmetry. apply (perm_inj l (n t)); [done|lia..|done].
Qed.

Lemma copy_loop_spec t l rbv v0 :
  0 <= n t -> perm_of_indices (n t) l -> len rbv = n t -> len v0 = n t ->
  for_loop 0 (n t) copy_body (with_ra (with_rb (with_sa t l) rbv) v0)
  = Ok (with_ra (with_rb (with_sa t l) rbv) rbv).
Proof.
  intros Hn Hl Hrbv Hv0.
  pose proof (perm_len l (n t) ltac:(lia) Hl) as Hlen.
  set (I := fun (i : Z) (st : SuffixArray) =>
    exists v, st = with_ra (with_rb (with_sa t l) rbv) v /\ len v = n t /\
      forall p, 0 <= p < i -> zth v (zth l p) = zth rbv (zth l p)).
  assert (Hinit : I 0 (with_ra (with_rb (with_sa t l) rbv) v0)).
  { exists v0. split; [done|]. split; [done|]. intros p Hp. lia. }
  destruct (for_loop_inv I copy_body 0 (n t) (with_ra (with_rb (with_sa t l) rbv) v0) Hn Hinit)
    as (st' & Hrun & v & -> & Hv & Hcopy).
  { intros i st0 Hi (v & -> & Hv & Hcopy).
    pose proof (perm_range l (n t) i Hl ltac:(lia)) as Hsai.
    unfold copy_body. simpl.
    rewrite (vget_Ok l i) by lia. simpl.
    rewrite (vget_Ok rbv) by lia. simpl.
    rewrite vset_Ok by lia. simpl.
    eexists. split; [reflexivity|].
    eexists. split; [reflexivity|]. split; [by rewrite len_insert|].
    intros p Hp. destruct (decide (p = i)) as [->|Hne].
    - by rewrite zth_insert_eq by lia.
    - rewrite zth_insert_ne; [apply Hcopy; lia|lia| |].
      + pose proof (perm_range l (n t) p Hl ltac:(lia)). lia.
      + intros Heq. apply Hne. symmetry. apply (perm_inj l (n t)); [done|lia..|done]. }
  rewrite Hrun. do 2 f_equal. apply zth_ext; [lia|].
  intros x Hx. destruct (perm_surj l (n t) x Hl ltac:(lia)) as (p & Hp & <-).
  by apply Hcopy.
Qed.

(** The effect of the body of the doubling loop: [sa] is sorted by the
    composite keys, and the new ranks follow the sorted order. *)
Lemma build_iter_spec `{Impl} t :
  wf t -> 0 <= k t -> 1 <= n t ->
  exists t', build_iter t = Ok t' /\ wf t' /\
    s t' = s t /\ n t' = n t /\ k t' = k t /\
    (forall p q, 0 <= p < q -> q < n t -> key_lt t (zth (sa t') q) (zth (sa t') p) = false) /\
    (forall p, 0 <= p < n t ->
       zth (ra t') (zth (sa t') p) = rank_at (key_lt t) (sa t') (Z.to_nat p)).
Proof.
  intros Hwf Hk Hn. pose proof Hwf as [Hns Hsa Hra Hrb].
  destruct (sort_sa_spec t Hwf Hk) as (l & Hsort & Hl & Hord).
  pose proof (perm_len l (n t) ltac:(lia) Hl) as Hlen.
  pose proof (perm_range l (n t) 0 Hl ltac:(lia)) as Hsa0.
  unfold build_iter. rewrite Hsort. simpl.
  rewrite (vget_Ok l 0) by lia. simpl.
  rewrite vset_Ok by lia. simpl.
  destruct (rerank_loop_spec t l (<[Z.to_nat (zth l 0) := 1]> (rb t)))
    as (v & Hrun & Hv & Hranks); [done..| by rewrite len_insert| by rewrite zth_insert_eq by lia |].
  rewrite Hrun. simpl.
  pose proof (copy_loop_spec t l v (ra t) ltac:(lia) Hl Hv Hra) as Hcopy.
  exists (with_ra (with_rb (with_sa t l) v) v).
  split; [exact Hcopy|]. split; [by constructor|]. by repeat split.
Qed.

(** ** The ranks given along a sorted list mirror the comparator *)

Section Ranks.
Variable f : Z -> Z -> bool.
Variable l : list Z.
Variable m : nat.
Hypothesis f_irrefl : forall x, f x x = false.
Hypothesis f_negtrans : forall x y z, f x y = true -> f x z = true \/ f z y = true.
Hypothesis l_sorted : forall p q : nat,
  (p < q)%nat -> (q < m)%nat -> f (zth l (Z.of_nat q)) (zth l (Z.of_nat p)) = false.

Lemma rank_at_step (p : nat) : rank_at f l p <= rank_at f l (S p) <= rank_at f l p + 1.
Proof. simpl. destruct (f _ _); simpl; lia. Qed.

Lemma rank_at_mono (p q : nat) : (p <= q)%nat -> rank_at f l p <= rank_at f l q.
Proof.
  induction 1 as [|q Hpq IH]; [lia|]. pose proof (rank_at_step q). lia.
Qed.

Lemma rank_at_bounds (p : nat) : 1 <= rank_at f l p <= 1 + Z.of_nat p.
Proof.
  induction p as [|p IH]; [simpl; lia|]. pose proof (rank_at_step p). lia.
Qed.

Lemma rank_at_lt (p q : nat) :
  (p < q)%nat -> (q < m)%nat ->
  rank_at f l p < rank_at f l q <-> f (zth l (Z.of_nat p)) (zth l (Z.of_nat q)) = true.
Proof.
  intros Hpq. induction Hpq as [|q Hpq IH]; intros Hq.
  - simpl. destruct (f _ _); simpl; split; (lia || done).
  - specialize (IH ltac:(lia)).
    assert (Hp : (p < q)%nat) by lia.
    pose proof (rank_at_mono p q ltac:(lia)) as Hmono.
    pose proof (rank_at_step q) as Hstep.
    split.
    + intros Hlt.
      destruct (Z_lt_le_dec (rank_at f l p) (rank_at f l q)) as [H1|H1].
      * apply IH in H1.
        destruct (f_negtrans _ _ (zth l (Z.of_nat (S q))) H1) as [H2|H2]; [done|].
        rewrite l_sorted in H2 by lia. done.
      * assert (H2 : f (zth l (Z.of_nat q)) (zth l (Z.of_nat (S q))) = true).
        { simpl in Hlt. destruct (f (zth l (Z.of_nat q)) _); [done|simpl in Hlt; lia]. }
        destruct (f_negtrans _ _ (zth l (Z.of_nat p)) H2) as [H3|H3]; [|done].
        rewrite l_sorted in H3 by lia. done.
    + intros Hf.
      destruct (f_negtrans _ _ (zth l (Z.of_nat q)) Hf) as [H1|H1].
      * apply IH in H1. lia.
      * simpl. rewrite H1. simpl. lia.
Qed.

Lemma rank_at_ltb (p q : nat) :
  (p < m)%nat -> (q < m)%nat ->
  (rank_at f l p <? rank_at f l q) = f (zth l (Z.of_nat p)) (zth l (Z.of_nat q)).
Proof.
  intros Hp Hq. destruct (lt_eq_lt_dec p q) as [[Hlt|<-]|Hgt].
  - destruct (f _ _) eqn:Hf.
    + apply Z.ltb_lt. by apply rank_at_lt.
    + apply Z.ltb_ge. apply Z.nlt_ge. intros Hr. apply rank_at_lt in Hr; [congruence|done..].
  - rewrite f_irrefl. apply Z.ltb_irrefl.
  - rewrite l_sorted by done. apply Z.ltb_ge. apply rank_at_mono. lia.
Qed.

(** When the last rank is the number of elements, the ranks are the
    positions, counted from 1. *)
Lemma rank_at_full (p : nat) :
  (0 < m)%nat -> rank_at f l (m - 1) = Z.of_nat m -> (p < m)%nat ->
  rank_at f l p = 1 + Z.of_nat p.
Proof.
  intros Hm Hlast Hp.
  assert (Hgap : forall d : nat, rank_at f l (p + d) <= rank_at f l p + Z.of_nat d).
  { induction d as [|d IH]; [rewrite Nat.add_0_r; lia|].
    replace (p + S d)%nat with (S (p + d)) by lia.
    pose proof (rank_at_step (p + d)). lia. }
  specialize (Hgap (m - 1 - p)%nat).
  replace (p + (m - 1 - p))%nat with (m - 1)%nat in Hgap by lia.
  pose proof (rank_at_bounds p). lia.
Qed.

End Ranks.

Lemma key_lt_irrefl t x : key_lt t x x = false.
Proof. apply key_lt_false. lia. Qed.

Lemma key_lt_negtrans t x y z :
  key_lt t x y = true -> key_lt t x z = true \/ key_lt t z y = true.
Proof. rewrite !key_lt_spec. lia. Qed.

(** After an iteration the order of the new ranks is the order of the
    composite keys of the iteration. *)
Lemma build_iter_ranks `{Impl} t :
  wf t -> 0 <= k t -> 1 <= n t ->
  exists t', build_iter t = Ok t' /\ wf t' /\
    s t' = s t /\ n t' = n t /\ k t' = k t /\
    (forall p q, 0 <= p < q -> q < n t -> key_lt t (zth (sa t') q) (zth (sa t') p) = false) /\
    (forall p, 0 <= p < n t ->
       zth (ra t') (zth (sa t') p) = rank_at (key_lt t) (sa t') (Z.to_nat p)) /\
    (forall i j, 0 <= i < n t -> 0 <= j < n t ->
       (zth (ra t') i <? zth (ra t') j) = key_lt t i j) /\
    (forall i, 0 <= i < n t -> 1 <= zth (ra t') i <= n t).
Proof.
  intros Hwf Hk Hn.
  destruct (build_iter_spec t Hwf Hk Hn) as (t' & Hrun & Hwf' & Hs & Hn' & Hk' & Hord & Hranks).
  exists t'. do 7 (split; [done|]).
  pose proof Hwf' as [_ Hsa' _ _]. rewrite Hn' in Hsa'.
  assert (Hsorted : forall p q : nat, (p < q)%nat -> (q < Z.to_nat (n t))%nat ->
            key_lt t (zth (sa t') (Z.of_nat q)) (zth (sa t') (Z.of_nat p)) = false).
  { intros p q Hpq Hq. apply Hord; lia. }
  split.
  - intros i j Hi Hj.
    destruct (perm_surj _ _ i Hsa' Hi) as (p & Hp & <-).
    destruct (perm_surj _ _ j Hsa' Hj) as (q & Hq & <-).
    rewrite !Hranks by done.
    rewrite (rank_at_ltb (key_lt t) (sa t') (Z.to_nat (n t)));
      [|apply key_lt_irrefl|apply key_lt_negtrans|done|lia|lia].
    by rewrite !Z2Nat.id by lia.
  - intros i Hi.
    destruct (perm_surj _ _ i Hsa' Hi) as (p & Hp & <-).
    rewrite Hranks by done.
    pose proof (rank_at_bounds (key_lt t) (sa t') (Z.to_nat p)). lia.
Qed.

(** ** The lexicographic order of strings *)

Lemma uchar_inj x y : uchar x = uchar y -> x = y.
Proof.
  unfold uchar. intros Heq. apply N2Z.inj in Heq.
  rewrite <- (ascii_N_embedding x), <- (ascii_N_embedding y). by rewrite Heq.
Qed.

Lemma uchar_range x : 0 <= uchar x < 256.
Proof.
  unfold uchar. pose proof (N_ascii_bounded x). lia.
Qed.

Lemma uchar_zero x : uchar x = 0 <-> x = zero.
Proof.
  split; [|by intros ->]. intros Hx. by apply uchar_inj.
Qed.

Lemma traits_compare_refl a : traits_compare a a = Eq.
Proof. induction a as [|x a IH]; simpl; [done|]. by rewrite Z.compare_refl. Qed.

Lemma traits_compare_eq a b : traits_compare a b = Eq -> a = b.
Proof.
  revert b. induction a as [|x a IH]; intros [|y b]; simpl; try done.
  destruct (Z.compare_spec (uchar x) (uchar y)) as [Hxy| |]; try done.
  intros Hab. apply uchar_inj in Hxy as ->. by rewrite (IH b Hab).
Qed.

Lemma traits_compare_eq_iff a b : traits_compare a b = Eq <-> a = b.
Proof. split; [apply traits_compare_eq|intros ->; apply traits_compare_refl]. Qed.

Lemma traits_compare_antisym a b : traits_compare b a = CompOpp (traits_compare a b).
Proof.
  revert b. induction a as [|x a IH]; intros [|y b]; simpl; try done.
  rewrite (Z.compare_antisym (uchar x) (uchar y)).
  destruct (uchar x ?= uchar y); simpl; auto.
Qed.

Lemma traits_compare_lt_gt a b : traits_compare a b = Lt <-> traits_compare b a = Gt.
Proof. rewrite (traits_compare_antisym a b). destruct (traits_compare a b); simpl; split; congruence. Qed.

Lemma traits_compare_lt_trans a b c :
  traits_compare a b = Lt -> traits_compare b c = Lt -> traits_compare a c = Lt.
Proof.
  revert b c. induction a as [|x a IH]; intros [|y b] [|z c]; simpl; try done.
  destruct (Z.compare_spec (uchar x) (uchar y)) as [Hxy|Hxy|Hxy]; try done;
  destruct (Z.compare_spec (uchar y) (uchar z)) as [Hyz|Hyz|Hyz]; try done;
  destruct (Z.compare_spec (uchar x) (uchar z)) as [Hxz|Hxz|Hxz]; try done; try lia.
  apply IH.
Qed.

Lemma lex_le_refl a : lex_le a a.
Proof. unfold lex_le. by rewrite traits_compare_refl. Qed.

Lemma lex_le_trans a b c : lex_le a b -> lex_le b c -> lex_le a c.
Proof.
  unfold lex_le. intros Hab Hbc.
  destruct (traits_compare a b) eqn:H1; [|clear Hab|done].
  - apply traits_compare_eq in H1 as ->. done.
  - destruct (traits_compare b c) eqn:H2; [|clear Hbc|done].
    + apply traits_compare_eq in H2 as <-. by rewrite H1.
    + by rewrite (traits_compare_lt_trans a b c H1 H2).
Qed.

Lemma lex_le_antisym a b : lex_le a b -> lex_le b a -> a = b.
Proof.
  unfold lex_le. rewrite (traits_compare_antisym a b).
  destruct (traits_compare a b) eqn:H1; simpl; try done.
  intros _ _. by apply traits_compare_eq.
Qed.

Lemma lex_le_total a b : lex_le a b \/ lex_le b a.
Proof.
  unfold lex_le. rewrite (traits_compare_antisym a b).
  destruct (traits_compare a b); simpl; auto.
Qed.

Lemma lex_le_nil a : lex_le [] a.
Proof. unfold lex_le. by destruct a. Qed.

(** Comparing concatenations: the first parts decide, unless they are equal;
    a first part shorter than the other one must be followed by nothing. *)
Lemma traits_compare_app a a2 b b2 :
  ((length a < length b)%nat -> a2 = []) ->
  ((length b < length a)%nat -> b2 = []) ->
  traits_compare (a ++ a2) (b ++ b2) =
  match traits_compare a b with
  | Eq => traits_compare a2 b2
  | c => c
  end.
Proof.
  revert b. induction a as [|x a IH]; intros [|y b] Ha Hb; simpl in *.
  - done.
  - rewrite Ha by lia. done.
  - rewrite Hb by lia. done.
  - destruct (uchar x ?= uchar y); try done.
    apply IH; intros; [apply Ha|apply Hb]; lia.
Qed.

(** Cutting both strings at the same length keeps their order. *)
Lemma traits_compare_take m a b :
  traits_compare (take m a) (take m b) = Lt -> traits_compare a b = Lt.
Proof.
  revert a b. induction m as [|m IH]; intros [|x a] [|y b]; simpl; try done.
  destruct (uchar x ?= uchar y); try done. apply IH.
Qed.

Lemma lex_le_take m a b : lex_le a b -> lex_le (take m a) (take m b).
Proof.
  unfold lex_le. intros Hab Hgt. apply Hab.
  apply traits_compare_lt_gt. apply traits_compare_lt_gt in Hgt.
  by apply (traits_compare_take m).
Qed.

(** ** The runs of the doubling loop *)

Lemma wf_with_k t v : wf t -> wf (with_k t v).
Proof. intros [H1 H2 H3 H4]. by constructor. Qed.

Lemma build_loop_doubling `{Impl} fuel t :
  wf t -> 1 <= k t -> n t - k t <= Z.of_nat fuel ->
  exists tf log, build_loop fuel t = Ok (tf, log) /\ doubling t log tf.
Proof.
  revert t. induction fuel as [|fuel IH]; intros t Hwf Hk Hfuel; simpl.
  - destruct (Z.ltb_spec (k t) (n t)); [lia|].
    exists t, []. split; [done|]. by constructor.
  - destruct (Z.ltb_spec (k t) (n t)) as [Hlt|Hge].
    2:{ exists t, []. split; [done|]. by constructor. }
    destruct (build_iter_spec t Hwf ltac:(lia) ltac:(lia))
      as (t' & Hrun & Hwf' & Hs & Hn & Hk' & _).
    rewrite Hrun. simpl.
    pose proof Hwf' as [_ Hsa' Hra' _].
    pose proof (perm_len (sa t') (n t') ltac:(lia) Hsa') as Hlen.
    pose proof (perm_range (sa t') (n t') (n t' - 1) Hsa' ltac:(lia)) as Hlast.
    rewrite (vget_Ok (sa t')) by lia. simpl.
    rewrite (vget_Ok (ra t')) by lia. simpl.
    destruct (Z.eqb_spec (zth (ra t') (zth (sa t') (n t' - 1))) (n t')) as [Heq|Hne].
    + exists t', [(t, t')]. split; [done|]. by constructor.
    + rewrite Z.shiftl_mul_pow2 by lia.
      replace (k t' * 2 ^ 1) with (2 * k t') by lia.
      destruct (IH (with_k t' (2 * k t'))) as (tf & log & Hloop & Hd).
      { by apply wf_with_k. }
      { simpl. lia. }
      { simpl. lia. }
      rewrite Hloop. simpl. exists tf, ((t, t') :: log). split; [done|].
      by apply doubling_next.
Qed.

(** A property of the state at the start of a body that every iteration
    re-establishes holds at the start of every iteration that is run. *)
Lemma doubling_invariant `{Impl} (P : SuffixArray -> Prop) t log tf :
  (forall t0 t1, wf t0 -> 1 <= k t0 -> k t0 < n t0 -> P t0 -> build_iter t0 = Ok t1 ->
     P (with_k t1 (2 * k t1))) ->
  doubling t log tf -> wf t -> 1 <= k t -> P t ->
  Forall (fun it => wf it.1 /\ 1 <= k it.1 /\ k it.1 < n it.1 /\ P it.1 /\
                    build_iter it.1 = Ok it.2) log.
Proof.
  intros Hstep Hd. induction Hd as [t|t t' Hlt Hrun Hlast|t t' log tf Hlt Hrun Hlast Hd IH];
    intros Hwf Hk HP.
  - constructor.
  - constructor; [|constructor]. simpl. tauto.
  - constructor; [simpl; tauto|].
    destruct (build_iter_spec t Hwf ltac:(lia) ltac:(lia))
      as (t1 & Hrun1 & Hwf' & Hs & Hn & Hk' & _).
    rewrite Hrun in Hrun1. injection Hrun1 as <-.
    apply IH; [by apply wf_with_k|simpl; lia|by apply (Hstep t)].
Qed.

(** How the loop is left: without any iteration, by the [break] of the last
    iteration, or by the loop test after the last iteration. *)
Lemma doubling_final `{Impl} t log tf :
  doubling t log tf ->
  (log = [] /\ tf = t /\ n t <= k t) \/
  (exists log' t0 t1, log = log' ++ [(t0, t1)] /\
     ((tf = t1 /\ zth (ra t1) (zth (sa t1) (n t1 - 1)) = n t1) \/
      (tf = with_k t1 (2 * k t1) /\ n t1 <= 2 * k t1))).
Proof.
  induction 1 as [t|t t' Hlt Hrun Hlast|t t' log tf Hlt Hrun Hlast Hd IH].
  - left. done.
  - right. exists [], t, t'. split; [done|]. left. done.
  - right. destruct IH as [(-> & -> & Hge)|(log' & t0 & t1 & -> & Hfin)].
    + exists [], t, t'. split; [done|]. right. done.
    + exists ((t, t') :: log'), t0, t1. split; [done|]. exact Hfin.
Qed.

(** ** Prefixes of suffixes *)

Lemma take_plus_app {A : Type} (a b : nat) (l : list A) :
  take (a + b) l = take a l ++ take b (drop a l).
Proof.
  revert l. induction a as [|a IH]; intros [|x l]; simpl; try done.
  - by rewrite take_nil.
  - by rewrite IH.
Qed.

Lemma suffix_add str i h : 0 <= i -> 0 <= h -> suffix str (i + h) = drop (Z.to_nat h) (suffix str i).
Proof.
  intros Hi Hh. unfold suffix. rewrite drop_drop. f_equal. lia.
Qed.

Lemma suffix_length str i : 0 <= i <= len str -> len (suffix str i) = len str - i.
Proof. intros Hi. unfold suffix, len in *. rewrite length_drop. lia. Qed.

Lemma suffix_ge str i : len str <= i -> suffix str i = [].
Proof. intros Hi. unfold suffix. apply drop_ge. unfold len in Hi. lia. Qed.

Lemma suffix_cons str i :
  0 <= i < len str -> exists c, str !! Z.to_nat i = Some c /\ suffix str i = c :: suffix str (i + 1).
Proof.
  intros Hi. destruct (lookup_lt_is_Some_2 str (Z.to_nat i)) as [c Hc]; [unfold len in Hi; lia|].
  exists c. split; [done|]. unfold suffix.
  replace (Z.to_nat (i + 1)) with (S (Z.to_nat i)) by lia.
  by apply drop_S.
Qed.

Lemma prefix_at_double str h i :
  0 <= h -> 0 <= i ->
  prefix_at str (2 * h) i = prefix_at str h i ++ prefix_at str h (i + h).
Proof.
  intros Hh Hi. unfold prefix_at. rewrite suffix_add by lia.
  replace (Z.to_nat (2 * h)) with (Z.to_nat h + Z.to_nat h)%nat by lia.
  apply take_plus_app.
Qed.

Lemma prefix_at_length str h i :
  0 <= h -> 0 <= i <= len str -> len (prefix_at str h i) = Z.min h (len str - i).
Proof.
  intros Hh Hi. unfold prefix_at, suffix, len in *. rewrite length_take, length_drop. lia.
Qed.

Lemma prefix_at_ge str h i : len str <= i -> prefix_at str h i = [].
Proof. intros Hi. unfold prefix_at. rewrite suffix_ge by done. apply take_nil. Qed.

Lemma prefix_at_full str h i : 0 <= i -> len str <= i + h -> prefix_at str h i = suffix str i.
Proof.
  intros Hi Hh. unfold prefix_at. apply take_ge. unfold suffix, len in *.
  rewrite length_drop. lia.
Qed.

Lemma prefix_at_half str h i :
  0 <= h -> prefix_at str h i = take (Z.to_nat h) (prefix_at str (2 * h) i).
Proof.
  intros Hh. unfold prefix_at. rewrite take_take. f_equal. lia.
Qed.

Lemma prefix_at_one str i c :
  0 <= i -> str !! Z.to_nat i = Some c -> prefix_at str 1 i = [c].
Proof.
  intros Hi Hc. unfold prefix_at, suffix. rewrite (drop_S _ _ _ Hc). simpl.
  by rewrite take_0.
Qed.

Lemma prefix_at_nonempty str h i : 1 <= h -> 0 <= i < len str -> prefix_at str h i <> [].
Proof.
  intros Hh Hi Hnil. pose proof (prefix_at_length str h i ltac:(lia) ltac:(lia)) as Hlen.
  rewrite Hnil in Hlen. unfold len in Hlen at 1. simpl in Hlen. lia.
Qed.

(** ** The conversion of characters to [int] *)

Lemma char_to_int_inj `{Impl} x y : char_to_int x = char_to_int y -> x = y.
Proof.
  unfold char_to_int. pose proof (uchar_range x). pose proof (uchar_range y).
  intros Heq. apply uchar_inj.
  destruct plain_char_signed; simpl in Heq;
    [destruct (Z.leb_spec 128 (uchar x)), (Z.leb_spec 128 (uchar y))|]; lia.
Qed.

Lemma char_to_int_zero `{Impl} x : char_to_int x = 0 <-> x = zero.
Proof.
  rewrite <- uchar_zero. unfold char_to_int. pose proof (uchar_range x).
  destruct plain_char_signed; simpl; [destruct (Z.leb_spec 128 (uchar x))|]; lia.
Qed.

Lemma char_to_int_pos `{Impl} x : 0 < char_to_int x -> char_to_int x = uchar x.
Proof.
  unfold char_to_int. pose proof (uchar_range x).
  destruct plain_char_signed; simpl; [destruct (Z.leb_spec 128 (uchar x))|]; lia.
Qed.

Lemma positive_text_nul_free `{Impl} str : positive_text str -> nul_free str.
Proof.
  unfold positive_text, nul_free. intros Hp. eapply Forall_impl; [exact Hp|].
  simpl. intros c Hc ->. by rewrite (proj2 (char_to_int_zero zero)) in Hc.
Qed.

(** Where plain [char] is unsigned, the positive characters are the
    characters other than NUL. *)
Lemma nul_free_positive_text `{Impl} str :
  plain_char_signed = false -> nul_free str -> positive_text str.
Proof.
  intros Hu. unfold positive_text, nul_free. intros Hp. eapply Forall_impl; [exact Hp|].
  simpl. intros c Hc.
  assert (char_to_int c <> 0) by (by rewrite char_to_int_zero).
  unfold char_to_int in *. rewrite Hu in *. simpl in *.
  pose proof (uchar_range c). lia.
Qed.

(** ** The state at the first test of the doubling loop *)

Lemma zth_seqZ m i : 0 <= i < m -> zth (seqZ 0 m) i = i.
Proof.
  intros Hi. unfold zth. rewrite lookup_seqZ_lt by lia. simpl. lia.
Qed.

Lemma len_seqZ m : 0 <= m -> len (seqZ 0 m) = m.
Proof. intros Hm. unfold len. rewrite length_seqZ. lia. Qed.

Lemma init_sa_spec t :
  0 <= n t -> len (sa t) = n t ->
  for_loop 0 (n t) init_sa_body t = Ok (with_sa t (seqZ 0 (n t))).
Proof.
  intros Hn Hlen.
  set (I := fun (i : Z) (st : SuffixArray) =>
    exists v, st = with_sa t v /\ len v = n t /\ forall p, 0 <= p < i -> zth v p = p).
  assert (Hinit : I 0 t).
  { exists (sa t). split; [by destruct t|]. split; [done|]. intros p Hp. lia. }
  destruct (for_loop_inv I init_sa_body 0 (n t) t Hn Hinit)
    as (st' & Hrun & v & -> & Hv & Hid).
  { intros i st0 Hi (v & -> & Hv & Hid).
    unfold init_sa_body. simpl. rewrite vset_Ok by lia. simpl.
    eexists. split; [reflexivity|].
    eexists. split; [reflexivity|]. split; [by rewrite len_insert|].
    intros p Hp. destruct (decide (p = i)) as [->|Hne].
    - by rewrite zth_insert_eq by lia.
    - rewrite zth_insert_ne by lia. apply Hid. lia. }
  rewrite Hrun. do 2 f_equal. apply zth_ext; [by rewrite len_seqZ|].
  intros i Hi. rewrite zth_seqZ by lia. apply Hid. lia.
Qed.

Lemma zth_map_char `{Impl} str i c :
  0 <= i -> str !! Z.to_nat i = Some c -> zth (map char_to_int str) i = char_to_int c.
Proof.
  intros Hi Hc. unfold zth.
  change (map char_to_int str) with (char_to_int <$> str).
  by rewrite list_lookup_fmap, Hc.
Qed.

Lemma str_at_Ok str i c : 0 <= i -> str !! Z.to_nat i = Some c -> str_at str i = Ok c.
Proof.
  intros Hi Hc. unfold str_at. destruct (Z.leb_spec 0 i); [|lia]. by rewrite Hc.
Qed.

Lemma str_at_end str : str_at str (len str) = Ok zero.
Proof.
  unfold str_at. pose proof (len_nonneg str). destruct (Z.leb_spec 0 (len str)); [|lia].
  rewrite lookup_ge_None_2 by (unfold len; lia). by rewrite Z.eqb_refl.
Qed.

Lemma str_at_oob str i : ~ (0 <= i <= len str) -> str_at str i = OutOfBounds.
Proof.
  intros Hi. unfold str_at. destruct (Z.leb_spec 0 i); [|done].
  rewrite lookup_ge_None_2 by (unfold len in Hi; lia).
  destruct (Z.eqb_spec i (len str)); [lia|done].
Qed.

Lemma init_ra_spec `{Impl} t :
  n t = len (s t) -> len (ra t) = n t ->
  for_loop 0 (n t) init_ra_body t = Ok (with_ra t (map char_to_int (s t))).
Proof.
  intros Hn Hlen. pose proof (len_nonneg (s t)) as Hn0. rewrite <- Hn in Hn0.
  set (I := fun (i : Z) (st : SuffixArray) =>
    exists v, st = with_ra t v /\ len v = n t /\
      forall p, 0 <= p < i -> zth v p = zth (map char_to_int (s t)) p).
  assert (Hinit : I 0 t).
  { exists (ra t). split; [by destruct t|]. split; [done|]. intros p Hp. lia. }
  destruct (for_loop_inv I init_ra_body 0 (n t) t Hn0 Hinit)
    as (st' & Hrun & v & -> & Hv & Hid).
  { intros i st0 Hi (v & -> & Hv & Hid).
    destruct (lookup_lt_is_Some_2 (s t) (Z.to_nat i)) as [c Hc]; [unfold len in Hn; lia|].
    unfold init_ra_body. simpl. rewrite (str_at_Ok _ _ c) by (done || lia). simpl.
    rewrite vset_Ok by lia. simpl.
    eexists. split; [reflexivity|].
    eexists. split; [reflexivity|]. split; [by rewrite len_insert|].
    intros p Hp. destruct (decide (p = i)) as [->|Hne].
    - rewrite zth_insert_eq by lia. symmetry. apply zth_map_char; [lia|done].
    - rewrite zth_insert_ne by lia. apply Hid. lia. }
  rewrite Hrun. do 2 f_equal. apply zth_ext.
  - rewrite Hv, Hn. unfold len. by rewrite length_map.
  - intros i Hi. apply Hid. lia.
Qed.

Lemma wf_start `{Impl} str : wf (start str).
Proof.
  pose proof (len_nonneg str). constructor; simpl.
  - done.
  - by unfold perm_of_indices.
  - unfold len. by rewrite length_map.
  - by apply len_vzero.
Qed.

Lemma build_log_start `{Impl} str :
  build_log (unbuilt str) = build_loop (Z.to_nat (len str)) (start str).
Proof.
  pose proof (len_nonneg str) as Hn. unfold build_log.
  rewrite init_sa_spec; [|done|by apply len_vzero]. simpl.
  rewrite (init_ra_spec (with_sa (unbuilt str) (seqZ 0 (len str)))); [|done|by apply len_vzero].
  reflexivity.
Qed.

(** [build] returns, and its doubling loop runs as [doubling] describes. *)
Lemma build_log_doubling `{Impl} str :
  exists tf log, build_log (unbuilt str) = Ok (tf, log) /\ doubling (start str) log tf.
Proof.
  rewrite build_log_start. apply build_loop_doubling; [apply wf_start|simpl; lia|simpl; lia].
Qed.

(** The state stays well formed along a run. *)
Lemma doubling_wf `{Impl} t log tf :
  doubling t log tf -> wf t -> 1 <= k t ->
  wf tf /\ s tf = s t /\ n tf = n t.
Proof.
  induction 1 as [t|t t' Hlt Hrun Hlast|t t' log tf Hlt Hrun Hlast Hd IH]; intros Hwf Hk.
  - done.
  - destruct (build_iter_spec t Hwf ltac:(lia) ltac:(lia))
      as (t1 & Hrun1 & Hwf' & Hs & Hn & Hk' & _).
    rewrite Hrun in Hrun1. injection Hrun1 as <-. done.
  - destruct (build_iter_spec t Hwf ltac:(lia) ltac:(lia))
      as (t1 & Hrun1 & Hwf' & Hs & Hn & Hk' & _).
    rewrite Hrun in Hrun1. injection Hrun1 as <-.
    destruct IH as (Hwff & Hsf & Hnf); [by apply wf_with_k|simpl; lia|].
    simpl in *. split; [done|]. split; congruence.
Qed.

(** The constructor returns a well-formed object for every text. *)
Lemma SuffixArray_new_wf `{Impl} str :
  exists t, SuffixArray_new str = Ok t /\ wf t /\ s t = str /\ n t = len str.
Proof.
  destruct (build_log_doubling str) as (tf & log & Hrun & Hd).
  exists tf. unfold SuffixArray_new, build. rewrite Hrun. simpl. split; [done|].
  apply (doubling_wf _ _ _ Hd (wf_start str)). simpl. lia.
Qed.

(** ** The ranks order the prefixes (texts of positive characters) *)

Lemma lex_ltb_app a a2 b b2 :
  ((length a < length b)%nat -> a2 = []) ->
  ((length b < length a)%nat -> b2 = []) ->
  lex_ltb (a ++ a2) (b ++ b2) =
  lex_ltb a b || (negb (lex_ltb a b) && negb (lex_ltb b a) && lex_ltb a2 b2).
Proof.
  intros Ha Hb. unfold lex_ltb. rewrite (traits_compare_app a a2 b b2 Ha Hb).
  rewrite (traits_compare_antisym a b). by destruct (traits_compare a b).
Qed.

Lemma rank_order_ext t x y :
  wf t -> 1 <= k t -> rank_order t -> 0 <= x -> 0 <= y ->
  (ra_ext t x <? ra_ext t y) =
  lex_ltb (prefix_at (s t) (k t) x) (prefix_at (s t) (k t) y).
Proof.
  intros [Hn _ _ _] Hk [Hord Hpos] Hx Hy. unfold ra_ext.
  destruct (Z.ltb_spec x (n t)) as [Hxn|Hxn], (Z.ltb_spec y (n t)) as [Hyn|Hyn].
  - apply Hord; lia.
  - rewrite (prefix_at_ge _ _ y) by lia.
    pose proof (Hpos x ltac:(lia)). unfold lex_ltb.
    destruct (prefix_at (s t) (k t) x); simpl; [|destruct (Z.ltb_spec (zth (ra t) x) 0); [lia|done]].
    destruct (Z.ltb_spec (zth (ra t) x) 0); [lia|done].
  - rewrite (prefix_at_ge _ _ x) by lia.
    pose proof (Hpos y ltac:(lia)).
    pose proof (prefix_at_nonempty (s t) (k t) y ltac:(lia) ltac:(lia)).
    unfold lex_ltb. destruct (prefix_at (s t) (k t) y); [done|]. simpl.
    by apply Z.ltb_lt.
  - rewrite !prefix_at_ge by lia. done.
Qed.

Lemma prefix_at_app_side str h i j :
  1 <= h -> 0 <= i <= len str -> 0 <= j <= len str ->
  (length (prefix_at str h i) < length (prefix_at str h j))%nat ->
  prefix_at str h (i + h) = [].
Proof.
  intros Hh Hi Hj Hlt. apply prefix_at_ge.
  pose proof (prefix_at_length str h i ltac:(lia) Hi).
  pose proof (prefix_at_length str h j ltac:(lia) Hj).
  unfold len in *. lia.
Qed.

(** The comparison of the composite keys is the comparison of the first
    [2 k] characters. *)
Lemma rank_order_key t i j :
  wf t -> 1 <= k t -> rank_order t -> 0 <= i < n t -> 0 <= j < n t ->
  key_lt t i j = lex_ltb (prefix_at (s t) (2 * k t) i) (prefix_at (s t) (2 * k t) j).
Proof.
  intros Hwf Hk Hro Hi Hj. pose proof Hwf as [Hn _ _ _]. pose proof Hro as [Hord Hpos].
  rewrite !prefix_at_double by lia.
  rewrite lex_ltb_app; [|apply prefix_at_app_side; lia..].
  rewrite <- !Hord, <- rank_order_ext by (done || lia).
  unfold key_lt. f_equal. f_equal.
  destruct (Z.eqb_spec (zth (ra t) i) (zth (ra t) j)),
    (Z.ltb_spec (zth (ra t) i) (zth (ra t) j)), (Z.ltb_spec (zth (ra t) j) (zth (ra t) i));
    simpl; (lia || done).
Qed.

Lemma rank_order_step `{Impl} t0 t1 :
  wf t0 -> 1 <= k t0 -> k t0 < n t0 -> rank_order t0 -> build_iter t0 = Ok t1 ->
  rank_order (with_k t1 (2 * k t1)).
Proof.
  intros Hwf Hk Hlt Hro Hrun.
  destruct (build_iter_ranks t0 Hwf ltac:(lia) ltac:(lia))
    as (t' & Hrun' & Hwf' & Hs & Hn & Hk' & _ & _ & Hltb & Hbounds).
  rewrite Hrun in Hrun'. injection Hrun' as <-.
  split; simpl; rewrite Hn.
  - intros i j Hi Hj. rewrite Hltb, Hs, Hk' by done. by apply rank_order_key.
  - intros i Hi. specialize (Hbounds i Hi). lia.
Qed.

Lemma rank_order_start `{Impl} str : positive_text str -> rank_order (start str).
Proof.
  intros Hpos.
  assert (Hch : forall i, 0 <= i < len str -> exists c,
            str !! Z.to_nat i = Some c /\ 0 < char_to_int c /\
            zth (map char_to_int str) i = uchar c /\ prefix_at str 1 i = [c]).
  { intros i Hi.
    destruct (lookup_lt_is_Some_2 str (Z.to_nat i)) as [c Hc]; [unfold len in Hi; lia|].
    exists c. split; [done|].
    assert (Hc0 : 0 < char_to_int c).
    { unfold positive_text in Hpos. rewrite Forall_forall in Hpos. apply Hpos.
      by apply list_elem_of_lookup_2 in Hc. }
    split; [done|]. split; [|apply prefix_at_one; [lia|done]].
    rewrite (zth_map_char str i c) by (lia || done). by apply char_to_int_pos. }
  split; simpl.
  - intros i j Hi Hj.
    destruct (Hch i Hi) as (ci & _ & _ & -> & ->).
    destruct (Hch j Hj) as (cj & _ & _ & -> & ->).
    unfold lex_ltb. simpl.
    destruct (Z.compare_spec (uchar ci) (uchar cj)), (Z.ltb_spec (uchar ci) (uchar cj));
      (lia || done).
  - intros i Hi. destruct (Hch i Hi) as (ci & _ & Hp & -> & _).
    by rewrite <- char_to_int_pos.
Qed.

(** ** The suffix array of a text of positive characters is sorted *)

Lemma suffixes_sorted_zth str (l : list Z) :
  (forall p q, 0 <= p < q -> q < len l -> lex_le (suffix str (zth l p)) (suffix str (zth l q))) ->
  suffixes_sorted str l.
Proof.
  intros Hs i j x y Hij Hi Hj.
  apply lookup_lt_Some in Hj as Hlt.
  rewrite <- (zth_lookup l i x Hi), <- (zth_lookup l j y Hj).
  apply Hs; unfold len; lia.
Qed.

Lemma suffixes_sorted_inv str (l : list Z) p q :
  suffixes_sorted str l -> 0 <= p <= q -> q < len l ->
  lex_le (suffix str (zth l p)) (suffix str (zth l q)).
Proof.
  intros Hs Hpq Hq. destruct (decide (p = q)) as [->|Hne]; [apply lex_le_refl|].
  apply (Hs (Z.to_nat p) (Z.to_nat q)); [lia|apply lookup_zth; lia..].
Qed.

(** The last iteration leaves [sa] sorted. *)
Lemma last_iteration_sorted `{Impl} t0 t1 :
  wf t0 -> 1 <= k t0 -> k t0 < n t0 -> rank_order t0 -> build_iter t0 = Ok t1 ->
  zth (ra t1) (zth (sa t1) (n t1 - 1)) = n t1 \/ n t1 <= 2 * k t1 ->
  suffixes_sorted (s t0) (sa t1).
Proof.
  intros Hwf Hk Hlt Hro Hrun Hend.
  destruct (build_iter_ranks t0 Hwf ltac:(lia) ltac:(lia))
    as (t' & Hrun' & Hwf' & Hs & Hn & Hk' & Hord & Hranks & Hltb & Hbounds).
  rewrite Hrun in Hrun'. injection Hrun' as <-.
  pose proof Hwf' as [_ Hsa' _ _]. rewrite Hn in Hsa'.
  pose proof (perm_len (sa t1) (n t0) ltac:(lia) Hsa') as Hlen.
  pose proof Hwf as [Hns _ _ _].
  apply suffixes_sorted_zth. intros p q Hpq Hq. rewrite Hlen in Hq.
  pose proof (perm_range (sa t1) (n t0) p Hsa' ltac:(lia)) as Hxp.
  pose proof (perm_range (sa t1) (n t0) q Hsa' ltac:(lia)) as Hxq.
  destruct Hend as [Hfull|Hexit].
  - assert (Hrk : forall r, 0 <= r < n t0 -> zth (ra t1) (zth (sa t1) r) = 1 + r).
    { intros r Hr. rewrite Hranks by done.
      rewrite (rank_at_full (key_lt t0) (sa t1) (Z.to_nat (n t0))); [lia|lia| |lia].
      rewrite Hn, Hranks in Hfull by lia.
      replace (Z.to_nat (n t0) - 1)%nat with (Z.to_nat (n t0 - 1)) by lia.
      rewrite Hfull. lia. }
    assert (Hkey : key_lt t0 (zth (sa t1) p) (zth (sa t1) q) = true).
    { rewrite <- Hltb by done. apply Z.ltb_lt. rewrite !Hrk by lia. lia. }
    rewrite rank_order_key in Hkey by done.
    unfold lex_ltb in Hkey. unfold lex_le.
    destruct (traits_compare (prefix_at _ _ _) _) eqn:Hc; try done.
    unfold prefix_at in Hc. apply traits_compare_take in Hc. by rewrite Hc.
  - specialize (Hord p q Hpq Hq).
    rewrite rank_order_key in Hord by done.
    rewrite !prefix_at_full in Hord by lia.
    unfold lex_ltb in Hord. unfold lex_le.
    rewrite (traits_compare_antisym (suffix (s t0) (zth (sa t1) q))).
    by destruct (traits_compare (suffix (s t0) (zth (sa t1) q)) _).
Qed.

Lemma build_sorted `{Impl} str :
  positive_text str ->
  exists t, SuffixArray_new str = Ok t /\ wf t /\ s t = str /\ n t = len str /\
            suffixes_sorted str (sa t).
Proof.
  intros Hpos.
  destruct (build_log_doubling str) as (tf & log & Hrun & Hd).
  pose proof (doubling_wf _ _ _ Hd (wf_start str) ltac:(simpl; lia)) as (Hwf & Hs & Hn).
  exists tf. unfold SuffixArray_new, build. rewrite Hrun. simpl.
  do 4 (split; [done|]).
  pose proof (doubling_invariant rank_order _ _ _ rank_order_step Hd
                (wf_start str) ltac:(simpl; lia) (rank_order_start str Hpos)) as Hall.
  destruct (doubling_final _ _ _ Hd) as [(-> & -> & Hge)|(log' & t0 & t1 & -> & Hfin)].
  - simpl in *. intros i j x y Hij Hi Hj.
    apply lookup_lt_Some in Hj. rewrite length_seqZ in Hj. lia.
  - apply Forall_app in Hall as [_ Hlast]. apply Forall_inv in Hlast.
    simpl in Hlast. destruct Hlast as (Hwf0 & Hk0 & Hlt0 & Hro0 & Hrun0).
    assert (Hs0 : s t0 = str).
    { destruct (build_iter_spec t0 Hwf0 ltac:(lia) ltac:(lia))
        as (t' & Hrun' & _ & Hs' & _).
      rewrite Hrun0 in Hrun'. injection Hrun' as <-.
      destruct Hfin as [[-> _]|[-> _]]; simpl in *; congruence. }
    rewrite <- Hs0.
    replace (sa tf) with (sa t1) by (by destruct Hfin as [[-> _]|[-> _]]).
    apply (last_iteration_sorted t0 t1); try done.
    destruct Hfin as [[_ Hf]|[_ Hf]]; auto.
Qed.

(** ** The ranks name the classes of equal prefixes (texts without NUL) *)

Lemma rank_classes_ext t x y :
  wf t -> 1 <= k t -> rank_classes t -> 0 <= x -> 0 <= y ->
  ra_ext t x = ra_ext t y <-> prefix_at (s t) (k t) x = prefix_at (s t) (k t) y.
Proof.
  intros [Hn _ _ _] Hk [Hcl Hnz] Hx Hy. unfold ra_ext.
  destruct (Z.ltb_spec x (n t)) as [Hxn|Hxn], (Z.ltb_spec y (n t)) as [Hyn|Hyn].
  - apply Hcl; lia.
  - rewrite (prefix_at_ge _ _ y) by lia.
    pose proof (Hnz x ltac:(lia)).
    pose proof (prefix_at_nonempty (s t) (k t) x ltac:(lia) ltac:(lia)). split; [lia|done].
  - rewrite (prefix_at_ge _ _ x) by lia.
    pose proof (Hnz y ltac:(lia)).
    pose proof (prefix_at_nonempty (s t) (k t) y ltac:(lia) ltac:(lia)). split; [lia|done].
  - rewrite !prefix_at_ge by lia. done.
Qed.

(** Two composite keys are equal exactly when the first [2 k] characters
    agree. *)
Lemma rank_classes_key t i j :
  wf t -> 1 <= k t -> rank_classes t -> 0 <= i < n t -> 0 <= j < n t ->
  key_lt t i j = false /\ key_lt t j i = false <->
  prefix_at (s t) (2 * k t) i = prefix_at (s t) (2 * k t) j.
Proof.
  intros Hwf Hk Hrc Hi Hj. pose proof Hrc as [Hcl Hnz].
  rewrite !key_lt_false.
  pose proof (Hcl i j Hi Hj) as H1.
  pose proof (rank_classes_ext t (i + k t) (j + k t) Hwf Hk Hrc ltac:(lia) ltac:(lia)) as H2.
  rewrite !prefix_at_double by lia.
  split.
  - intros Hkeys. assert (Heq1 : zth (ra t) i = zth (ra t) j) by lia.
    assert (Heq2 : ra_ext t (i + k t) = ra_ext t (j + k t)) by lia.
    apply H1 in Heq1. apply H2 in Heq2. by rewrite Heq1, Heq2.
  - intros Happ.
    assert (Hpre : prefix_at (s t) (k t) i = prefix_at (s t) (k t) j).
    { rewrite (prefix_at_half _ _ i), (prefix_at_half _ _ j) by lia.
      rewrite !prefix_at_double by lia. by rewrite Happ. }
    rewrite Hpre in Happ. apply app_inv_head in Happ.
    apply H1 in Hpre. apply H2 in Happ. lia.
Qed.

(** After the iteration with step [k], two suffixes have the same rank
    exactly when their first [2 k] characters agree. *)
Lemma rank_classes_after `{Impl} t0 t1 :
  wf t0 -> 1 <= k t0 -> k t0 < n t0 -> rank_classes t0 -> build_iter t0 = Ok t1 ->
  len (ra t1) = n t0 /\ k t1 = k t0 /\
  (forall i j, 0 <= i < n t0 -> 0 <= j < n t0 ->
     zth (ra t1) i = zth (ra t1) j <->
     prefix_at (s t0) (2 * k t0) i = prefix_at (s t0) (2 * k t0) j) /\
  (forall i, 0 <= i < n t0 -> zth (ra t1) i <> 0).
Proof.
  intros Hwf Hk Hlt Hrc Hrun.
  destruct (build_iter_ranks t0 Hwf ltac:(lia) ltac:(lia))
    as (t' & Hrun' & Hwf' & Hs & Hn & Hk' & _ & _ & Hltb & Hbounds).
  rewrite Hrun in Hrun'. injection Hrun' as <-.
  pose proof Hwf' as [_ _ Hra' _].
  split; [congruence|]. split; [done|]. split.
  - intros i j Hi Hj. rewrite <- rank_classes_key by done.
    rewrite <- !Hltb by done. rewrite !Z.ltb_ge. lia.
  - intros i Hi. specialize (Hbounds i Hi). lia.
Qed.

Lemma rank_classes_step `{Impl} t0 t1 :
  wf t0 -> 1 <= k t0 -> k t0 < n t0 -> rank_classes t0 -> build_iter t0 = Ok t1 ->
  rank_classes (with_k t1 (2 * k t1)).
Proof.
  intros Hwf Hk Hlt Hrc Hrun.
  destruct (build_iter_spec t0 Hwf ltac:(lia) ltac:(lia))
    as (t' & Hrun' & _ & Hs & Hn & Hk' & _).
  rewrite Hrun in Hrun'. injection Hrun' as <-.
  destruct (rank_classes_after t0 t1 Hwf Hk Hlt Hrc Hrun) as (_ & _ & Hcl & Hnz).
  split; simpl; rewrite Hn; [|done].
  intros i j Hi Hj. rewrite Hs, Hk'. by apply Hcl.
Qed.

Lemma rank_classes_start `{Impl} str : nul_free str -> rank_classes (start str).
Proof.
  intros Hnf.
  assert (Hch : forall i, 0 <= i < len str -> exists c,
            c <> zero /\ zth (map char_to_int str) i = char_to_int c /\
            prefix_at str 1 i = [c]).
  { intros i Hi.
    destruct (lookup_lt_is_Some_2 str (Z.to_nat i)) as [c Hc]; [unfold len in Hi; lia|].
    exists c. split.
    - unfold nul_free in Hnf. rewrite Forall_forall in Hnf. apply Hnf.
      by apply list_elem_of_lookup_2 in Hc.
    - split; [apply zth_map_char; [lia|done]|apply prefix_at_one; [lia|done]]. }
  split; simpl.
  - intros i j Hi Hj.
    destruct (Hch i Hi) as (ci & _ & -> & ->).
    destruct (Hch j Hj) as (cj & _ & -> & ->).
    split; [by intros ->%char_to_int_inj|by intros [= ->]].
  - intros i Hi. destruct (Hch i Hi) as (ci & Hnz & -> & _).
    by rewrite char_to_int_zero.
Qed.

(** ** [find]: the two binary searches *)

Lemma substr_Ok str pos cnt :
  0 <= pos <= len str -> 0 <= cnt -> substr str pos cnt = Ok (prefix_at str cnt pos).
Proof.
  intros Hpos Hcnt. unfold substr.
  destruct (Z.leb_spec 0 pos); [|lia]. destruct (Z.leb_spec pos (len str)); [|lia].
  destruct (Z.leb_spec 0 cnt); [|lia]. done.
Qed.

Lemma compare_rank t p r :
  wf t -> 0 <= r < n t ->
  vget (sa t) r = Ok (zth (sa t) r) /\
  compare (s t) (zth (sa t) r) (len p) p = Ok (rank_cmp t p r).
Proof.
  intros [Hn Hsa _ _] Hr.
  pose proof (perm_len (sa t) (n t) ltac:(lia) Hsa) as Hlen.
  pose proof (perm_range (sa t) (n t) r Hsa Hr) as Hx.
  split; [apply vget_Ok; lia|].
  unfold compare. rewrite substr_Ok; [done|lia|apply len_nonneg].
Qed.

Lemma half_bounds a : 2 * (a / 2) <= a < 2 * (a / 2) + 2.
Proof.
  pose proof (Z.mod_pos_bound a 2 ltac:(lia)). pose proof (Z.div_mod a 2 ltac:(lia)). lia.
Qed.

Lemma lower_bound_loop_spec t p fuel lo hi :
  wf t -> cmp_monotone t p ->
  0 <= lo <= hi -> hi <= n t -> hi - lo <= Z.of_nat fuel ->
  (forall r, 0 <= r < lo -> rank_cmp t p r = Lt) ->
  (forall r, hi <= r < n t -> rank_cmp t p r <> Lt) ->
  exists res, lower_bound_loop fuel t (len p) p lo hi = Ok res /\
    lo <= res <= hi /\
    (forall r, 0 <= r < res -> rank_cmp t p r = Lt) /\
    (forall r, res <= r < n t -> rank_cmp t p r <> Lt).
Proof.
  intros Hwf Hmono. revert lo hi.
  induction fuel as [|fuel IH]; intros lo hi Hlo Hhi Hfuel Hbelow Habove; simpl.
  - destruct (Z.ltb_spec lo hi); [lia|]. exists lo. repeat split; (lia || auto).
    intros r Hr. apply Habove. lia.
  - destruct (Z.ltb_spec lo hi) as [Hlt|Hge].
    2:{ exists lo. repeat split; (lia || auto). intros r Hr. apply Habove. lia. }
    rewrite Z.quot_div_nonneg by lia.
    set (mi := (lo + hi) / 2).
    assert (Hmi : lo <= mi < hi) by (pose proof (half_bounds (lo + hi)); unfold mi; lia).
    destruct (compare_rank t p mi Hwf ltac:(lia)) as [Hget Hcmp].
    rewrite Hget. cbn [bind]. rewrite Hcmp. cbn [bind].
    destruct (rank_cmp t p mi) eqn:Hc.
    + destruct (IH lo mi) as (res & Hrun & Hres & H1 & H2); [lia..|done| |].
      { intros r Hr. destruct (decide (r < hi)); [|apply Habove; lia].
        intros Hlt'. destruct (Hmono mi r ltac:(lia) ltac:(lia)) as [Hm _].
        rewrite (Hm Hlt') in Hc. done. }
      exists res. repeat split; (lia || auto).
    + destruct (IH (mi + 1) hi) as (res & Hrun & Hres & H1 & H2); [lia..| |done|].
      { intros r Hr. destruct (Hmono r mi ltac:(lia) ltac:(lia)) as [Hm _]. auto. }
      exists res. repeat split; (lia || auto).
    + destruct (IH lo mi) as (res & Hrun & Hres & H1 & H2); [lia..|done| |].
      { intros r Hr. destruct (decide (r < hi)); [|apply Habove; lia].
        intros Hlt'. destruct (Hmono mi r ltac:(lia) ltac:(lia)) as [Hm _].
        rewrite (Hm Hlt') in Hc. done. }
      exists res. repeat split; (lia || auto).
Qed.

Lemma upper_bound_loop_spec t p fuel lo hi :
  wf t -> cmp_monotone t p ->
  -1 <= lo <= hi -> hi <= n t - 1 -> hi - lo <= Z.of_nat fuel ->
  (forall r, 0 <= r <= lo -> rank_cmp t p r <> Gt) ->
  (forall r, hi < r < n t -> rank_cmp t p r = Gt) ->
  exists res, upper_bound_loop fuel t (len p) p lo hi = Ok res /\
    lo <= res <= hi /\
    (forall r, 0 <= r <= res -> rank_cmp t p r <> Gt) /\
    (forall r, res < r < n t -> rank_cmp t p r = Gt).
Proof.
  intros Hwf Hmono. revert lo hi.
  induction fuel as [|fuel IH]; intros lo hi Hlo Hhi Hfuel Hbelow Habove; simpl.
  - destruct (Z.ltb_spec lo hi); [lia|]. exists hi. repeat split; (lia || auto).
    intros r Hr. apply Hbelow. lia.
  - destruct (Z.ltb_spec lo hi) as [Hlt|Hge].
    2:{ exists hi. repeat split; (lia || auto). intros r Hr. apply Hbelow. lia. }
    rewrite Z.quot_div_nonneg by lia.
    set (mi := (lo + hi + 1) / 2).
    assert (Hmi : lo < mi <= hi) by (pose proof (half_bounds (lo + hi + 1)); unfold mi; lia).
    destruct (compare_rank t p mi Hwf ltac:(lia)) as [Hget Hcmp].
    rewrite Hget. cbn [bind]. rewrite Hcmp. cbn [bind].
    destruct (rank_cmp t p mi) eqn:Hc.
    + destruct (IH mi hi) as (res & Hrun & Hres & H1 & H2); [lia..| |done|].
      { intros r Hr Hgt. destruct (Hmono r mi ltac:(lia) ltac:(lia)) as [_ Hm].
        rewrite (Hm Hgt) in Hc. done. }
      exists res. repeat split; (lia || auto).
    + destruct (IH mi hi) as (res & Hrun & Hres & H1 & H2); [lia..| |done|].
      { intros r Hr Hgt. destruct (Hmono r mi ltac:(lia) ltac:(lia)) as [_ Hm].
        rewrite (Hm Hgt) in Hc. done. }
      exists res. repeat split; (lia || auto).
    + destruct (IH lo (mi - 1)) as (res & Hrun & Hres & H1 & H2); [lia..|done| |].
      { intros r Hr. destruct (Hmono mi r ltac:(lia) ltac:(lia)) as [_ Hm]. auto. }
      exists res. repeat split; (lia || auto).
Qed.

Lemma push_loop_spec t first last :
  wf t -> 0 <= first -> first <= last + 1 -> last < n t ->
  for_loop first (last + 1) (push_body t) []
  = Ok (take (Z.to_nat (last + 1 - first)) (drop (Z.to_nat first) (sa t))).
Proof.
  intros [Hn Hsa _ _] Hfirst Hle Hlast.
  pose proof (perm_len (sa t) (n t) ltac:(lia) Hsa) as Hlen.
  set (I := fun (i : Z) (pos : list Z) =>
    pos = take (Z.to_nat (i - first)) (drop (Z.to_nat first) (sa t))).
  assert (Hinit : I first []).
  { unfold I. by replace (Z.to_nat (first - first)) with O by lia. }
  destruct (for_loop_inv I (push_body t) first (last + 1) [] Hle Hinit) as (pos & Hrun & Hpos).
  { intros i pos Hi ->. unfold push_body. rewrite vget_Ok by lia. cbn [bind].
    eexists. split; [reflexivity|]. unfold I.
    replace (Z.to_nat (i + 1 - first)) with (S (Z.to_nat (i - first))) by lia.
    symmetry. apply take_S_r. rewrite lookup_drop.
    replace (Z.to_nat first + Z.to_nat (i - first))%nat with (Z.to_nat i) by lia.
    apply lookup_zth. lia. }
  by rewrite Hrun, Hpos.
Qed.

Lemma elem_of_range (l : list Z) first last x :
  0 <= first -> last < len l ->
  x ∈ take (Z.to_nat (last + 1 - first)) (drop (Z.to_nat first) l) <->
  exists r, first <= r <= last /\ x = zth l r.
Proof.
  intros Hfirst Hlast. rewrite list_elem_of_lookup. split.
  - intros (i & Hi). apply lookup_lt_Some in Hi as Hlt. rewrite length_take in Hlt.
    rewrite lookup_take_lt in Hi by lia. rewrite lookup_drop in Hi.
    exists (first + Z.of_nat i). split; [lia|].
    symmetry. rewrite <- (zth_lookup l _ x Hi). f_equal. lia.
  - intros (r & Hr & ->). exists (Z.to_nat (r - first)).
    rewrite lookup_take_lt by lia. rewrite lookup_drop.
    replace (Z.to_nat first + Z.to_nat (r - first))%nat with (Z.to_nat r) by lia.
    apply lookup_zth. lia.
Qed.

(** When the pattern is greater than the compared prefix of every suffix (in
    particular when the text is empty), the lower bound is [n] and [find]
    reads [sa[n]]. *)
Lemma find_out_of_bounds t p :
  wf t -> (forall r, 0 <= r < n t -> rank_cmp t p r = Lt) -> find t p = OutOfBounds.
Proof.
  intros Hwf Hall. pose proof Hwf as [Hn Hsa _ _].
  pose proof (len_nonneg (s t)) as Hn0. rewrite <- Hn in Hn0.
  pose proof (perm_len (sa t) (n t) Hn0 Hsa) as Hlen.
  assert (Hmono : cmp_monotone t p).
  { intros r1 r2 Hr1 Hr2. split; [intros _; apply Hall; lia|].
    rewrite Hall by lia. done. }
  destruct (lower_bound_loop_spec t p (Z.to_nat (n t)) 0 (n t) Hwf Hmono)
    as (lo & Hrun & Hlo & _ & Habove); [lia..| | |].
  { intros r Hr. lia. }
  { intros r Hr. lia. }
  assert (lo = n t) as ->.
  { destruct (decide (lo = n t)); [done|]. destruct (Habove lo); [lia|]. apply Hall. lia. }
  unfold find. rewrite Hrun. cbn [bind]. rewrite vget_oob by lia. done.
Qed.

(** When some compared prefix is not smaller than the pattern, [find]
    returns the ranks between the two bounds, which are the ranks whose
    compared prefix is the pattern. *)
Lemma find_range t p :
  wf t -> cmp_monotone t p ->
  (exists r0, 0 <= r0 < n t /\ rank_cmp t p r0 <> Lt) ->
  exists first last,
    find t p = Ok (take (Z.to_nat (last + 1 - first)) (drop (Z.to_nat first) (sa t))) /\
    0 <= first /\ first <= last + 1 /\ last < n t /\
    forall r, 0 <= r < n t -> rank_cmp t p r = Eq <-> first <= r <= last.
Proof.
  intros Hwf Hmono (r0 & Hr0 & Hnlt). pose proof Hwf as [Hn Hsa _ _].
  pose proof (perm_len (sa t) (n t) ltac:(lia) Hsa) as Hlen.
  destruct (lower_bound_loop_spec t p (Z.to_nat (n t)) 0 (n t) Hwf Hmono)
    as (lo & Hrun & Hlo & Hbelow & Habove); [lia..| | |].
  { intros r Hr. lia. }
  { intros r Hr. lia. }
  assert (Hlon : lo < n t).
  { destruct (decide (lo < n t)); [done|]. destruct Hnlt. apply Hbelow. lia. }
  unfold find. rewrite Hrun. cbn [bind].
  destruct (compare_rank t p lo Hwf ltac:(lia)) as [Hget Hcmp].
  rewrite Hget. cbn [bind]. rewrite Hcmp. cbn [bind].
  assert (Hnone : rank_cmp t p lo = Gt ->
    forall r, 0 <= r < n t -> rank_cmp t p r = Eq <-> lo <= r <= lo - 1).
  { intros Hgt r Hr. split; [|lia]. intros Heq. exfalso.
    destruct (decide (r < lo)) as [Hlt|Hge].
    - rewrite Hbelow in Heq by lia. done.
    - destruct (Hmono lo r ltac:(lia) ltac:(lia)) as [_ Hm]. rewrite (Hm Hgt) in Heq. done. }
  destruct (rank_cmp t p lo) eqn:Hc.
  - destruct (upper_bound_loop_spec t p (Z.to_nat (n t)) (-1) (n t - 1) Hwf Hmono)
      as (hi & Hrun2 & Hhi & Hle & Hgt); [lia..| | |].
    { intros r Hr. lia. }
    { intros r Hr. lia. }
    rewrite Hrun2. cbn [bind].
    assert (Hlohi : lo <= hi).
    { destruct (decide (lo <= hi)); [done|]. rewrite Hgt in Hc by lia. done. }
    rewrite push_loop_spec by (done || lia).
    exists lo, hi. split; [done|]. split; [lia|]. split; [lia|]. split; [lia|].
    intros r Hr. split.
    + intros Heq. split.
      * destruct (decide (lo <= r)); [done|]. rewrite Hbelow in Heq by lia. done.
      * destruct (decide (r <= hi)); [done|]. rewrite Hgt in Heq by lia. done.
    + intros Hrange. specialize (Hle r ltac:(lia)). specialize (Habove r ltac:(lia)).
      by destruct (rank_cmp t p r).
  - destruct (Habove lo); [lia|done].
  - exists lo, (lo - 1). replace (Z.to_nat (lo - 1 + 1 - lo)) with O by lia.
    split; [done|]. split; [lia|]. split; [lia|]. split; [lia|]. by apply Hnone.
Qed.

(** On a sorted suffix array the comparisons are monotone. *)
Lemma sorted_cmp_monotone t p :
  wf t -> suffixes_sorted (s t) (sa t) -> cmp_monotone t p.
Proof.
  intros [Hn Hsa _ _] Hsorted r1 r2 Hr1 Hr2.
  pose proof (perm_len (sa t) (n t) ltac:(lia) Hsa) as Hlen.
  pose proof (suffixes_sorted_inv (s t) (sa t) r1 r2 Hsorted Hr1 ltac:(lia)) as Hle.
  apply (lex_le_take (Z.to_nat (len p))) in Hle. unfold rank_cmp, prefix_at.
  set (a := take _ (suffix _ (zth _ r1))) in *. set (b := take _ (suffix _ (zth _ r2))) in *.
  unfold lex_le in Hle. split.
  - intros Hb. destruct (traits_compare a b) eqn:Hab; [|clear Hle|done].
    + by apply traits_compare_eq in Hab as ->.
    + by apply (traits_compare_lt_trans a b p).
  - intros Ha. apply traits_compare_lt_gt. apply traits_compare_lt_gt in Ha.
    destruct (traits_compare a b) eqn:Hab; [|clear Hle|done].
    + by apply traits_compare_eq in Hab as <-.
    + by apply (traits_compare_lt_trans p a b).
Qed.

(** The ranks whose compared prefix is the pattern are the ranks of the
    occurrences of the pattern. *)
Lemma occurs_at_rank t p x :
  wf t ->
  occurs_at (s t) p x <-> exists r, 0 <= r < n t /\ x = zth (sa t) r /\ rank_cmp t p r = Eq.
Proof.
  intros [Hn Hsa _ _]. unfold occurs_at, rank_cmp, prefix_at.
  replace (Z.to_nat (len p)) with (length p) by (unfold len; lia).
  rewrite <- Hn. split.
  - intros [Hx Hocc]. destruct (perm_surj (sa t) (n t) x Hsa Hx) as (r & Hr & <-).
    exists r. split; [done|]. split; [done|]. by apply traits_compare_eq_iff.
  - intros (r & Hr & -> & Heq). split; [by apply perm_range|].
    by apply traits_compare_eq_iff.
Qed.

(** ** Longest common prefixes *)

Lemma lcp_len_nonneg a b : 0 <= lcp_len a b.
Proof.
  revert b. induction a as [|x a IH]; intros [|y b]; simpl; try lia.
  case_bool_decide; [specialize (IH b)|]; lia.
Qed.

Lemma lcp_len_sym a b : lcp_len a b = lcp_len b a.
Proof.
  revert b. induction a as [|x a IH]; intros [|y b]; simpl; try done.
  repeat case_bool_decide; first [congruence | by rewrite IH].
Qed.

Lemma lcp_len_le_l a b : lcp_len a b <= len a.
Proof.
  revert b. induction a as [|x a IH]; intros [|y b]; unfold len in *; simpl; try lia.
  case_bool_decide; [specialize (IH b)|]; lia.
Qed.

Lemma lcp_len_le_r a b : lcp_len a b <= len b.
Proof. rewrite lcp_len_sym. apply lcp_len_le_l. Qed.

(** Below the length of the common prefix the characters agree. *)
Lemma lcp_len_agree a b (i : nat) :
  Z.of_nat i < lcp_len a b -> exists c, a !! i = Some c /\ b !! i = Some c.
Proof.
  revert a b. induction i as [|i IH]; intros [|x a] [|y b]; simpl; try lia.
  - case_bool_decide as Hxy; [|lia]. subst. eauto.
  - case_bool_decide as Hxy; [|lia]. intros Hi. apply IH. lia.
Qed.

(** At the length of the common prefix the strings differ, or one ends. *)
Lemma lcp_len_differ a b c d :
  a !! Z.to_nat (lcp_len a b) = Some c -> b !! Z.to_nat (lcp_len a b) = Some d -> c <> d.
Proof.
  revert b. induction a as [|x a IH]; intros [|y b]; simpl; try done.
  case_bool_decide as Hxy.
  - pose proof (lcp_len_nonneg a b).
    replace (Z.to_nat (1 + lcp_len a b)) with (S (Z.to_nat (lcp_len a b))) by lia.
    simpl. apply IH.
  - simpl. congruence.
Qed.

(** Between two strings in lexicographic order, every string shares with the
    greater one at least the prefix that the smaller one shares with it. *)
Lemma lcp_len_sandwich a b c :
  lex_le a b -> lex_le b c -> lcp_len a c <= lcp_len b c.
Proof.
  unfold lex_le. revert b c.
  induction a as [|x a IH]; intros b c; [intros _ _; apply lcp_len_nonneg|].
  destruct b as [|y b], c as [|z c]; simpl; try done; try lia.
  destruct (Z.compare_spec (uchar x) (uchar y)) as [Hxy|Hxy|Hxy]; try done;
    destruct (Z.compare_spec (uchar y) (uchar z)) as [Hyz|Hyz|Hyz]; try done;
    intros Hab Hbc; pose proof (lcp_len_nonneg b c);
    try apply uchar_inj in Hxy; try apply uchar_inj in Hyz; subst;
    repeat case_bool_decide; subst; try lia.
  specialize (IH b c Hab Hbc). lia.
Qed.

Lemma lcp_len_cons x a y b : 1 <= lcp_len (x :: a) (y :: b) -> x = y /\ lcp_len (x :: a) (y :: b) = 1 + lcp_len a b.
Proof. simpl. case_bool_decide; [done|lia]. Qed.

Lemma lex_le_cons_inv x a b : lex_le (x :: a) (x :: b) -> lex_le a b.
Proof. unfold lex_le. simpl. by rewrite Z.compare_refl. Qed.

(** ** Suffixes in a sorted suffix array *)

Lemma suffix_inj str x y : 0 <= x <= len str -> 0 <= y <= len str -> suffix str x = suffix str y -> x = y.
Proof.
  intros Hx Hy Heq. apply (f_equal len) in Heq. rewrite !suffix_length in Heq by done. lia.
Qed.

Lemma suffix_lookup str i (j : nat) : 0 <= i -> suffix str i !! j = str !! Z.to_nat (i + Z.of_nat j).
Proof.
  intros Hi. unfold suffix. rewrite lookup_drop. f_equal. lia.
Qed.

(** In a sorted suffix array, the lexicographic order of two suffixes gives
    the order of their ranks. *)
Lemma sorted_rank_le t p q :
  wf t -> suffixes_sorted (s t) (sa t) -> 0 <= p < n t -> 0 <= q < n t ->
  lex_le (suffix (s t) (zth (sa t) p)) (suffix (s t) (zth (sa t) q)) -> p <= q.
Proof.
  intros [Hn Hsa _ _] Hsorted Hp Hq Hle.
  pose proof (perm_len (sa t) (n t) ltac:(lia) Hsa) as Hlen.
  destruct (decide (p <= q)) as [|Hgt]; [done|]. exfalso.
  pose proof (suffixes_sorted_inv (s t) (sa t) q p Hsorted ltac:(lia) ltac:(lia)) as Hle'.
  pose proof (lex_le_antisym _ _ Hle Hle') as Heq.
  pose proof (perm_range (sa t) (n t) p Hsa Hp).
  pose proof (perm_range (sa t) (n t) q Hsa Hq).
  apply suffix_inj in Heq; [|lia..].
  apply (perm_inj (sa t) (n t)) in Heq; [lia|done..].
Qed.

(** ** [findLCP]: the array [phi] *)

Lemma phi_loop_spec t :
  wf t -> 1 <= n t ->
  exists phi,
    for_loop 1 (n t) (phi_body t) (<[Z.to_nat (zth (sa t) 0) := -1]> (vzero (n t))) = Ok phi /\
    is_phi t phi.
Proof.
  intros [Hn Hsa _ _] Hn1.
  pose proof (perm_len (sa t) (n t) ltac:(lia) Hsa) as Hlen.
  pose proof (perm_range (sa t) (n t) 0 Hsa ltac:(lia)) as Hsa0.
  set (I := fun (i : Z) (phi : list Z) =>
    len phi = n t /\ zth phi (zth (sa t) 0) = -1 /\
    forall r, 1 <= r < i -> zth phi (zth (sa t) r) = zth (sa t) (r - 1)).
  assert (Hinit : I 1 (<[Z.to_nat (zth (sa t) 0) := -1]> (vzero (n t)))).
  { split; [rewrite len_insert; apply len_vzero; lia|]. split; [|intros r Hr; lia].
    rewrite zth_insert_eq; [done|]. rewrite len_vzero; lia. }
  destruct (for_loop_inv I (phi_body t) 1 (n t) _ Hn1 Hinit) as (phi & Hrun & Hphi).
  { intros i phi Hi (Hphi & Hfirst & Hprev).
    pose proof (perm_range (sa t) (n t) i Hsa ltac:(lia)) as Hsai.
    unfold phi_body. rewrite (vget_Ok (sa t) i) by lia. cbn [bind].
    rewrite (vget_Ok (sa t) (i - 1)) by lia. cbn [bind].
    rewrite vset_Ok by lia.
    eexists. split; [reflexivity|]. split; [by rewrite len_insert|].
    assert (Hne : forall r, 0 <= r < i -> zth (sa t) i <> zth (sa t) r).
    { intros r Hr Heq. apply (perm_inj (sa t) (n t)) in Heq; [lia|done|lia..]. }
    split.
    - rewrite zth_insert_ne; [done|lia..|apply Hne; lia].
    - intros r Hr. destruct (decide (r = i)) as [->|Hri].
      + by rewrite zth_insert_eq by lia.
      + pose proof (perm_range (sa t) (n t) r Hsa ltac:(lia)).
        rewrite zth_insert_ne; [apply Hprev; lia|lia..|apply Hne; lia]. }
  exists phi. done.
Qed.

Lemma is_phi_first t phi i :
  wf t -> 1 <= n t -> is_phi t phi -> 0 <= i < n t ->
  zth phi i = -1 <-> i = zth (sa t) 0.
Proof.
  intros [Hn Hsa _ _] Hn1 (Hlen & Hfirst & Hprev) Hi. split; [|by intros ->].
  intros Hphi. destruct (perm_surj (sa t) (n t) i Hsa Hi) as (r & Hr & <-).
  destruct (decide (r = 0)) as [->|Hne]; [done|].
  rewrite Hprev in Hphi by lia.
  pose proof (perm_range (sa t) (n t) (r - 1) Hsa ltac:(lia)). lia.
Qed.

(** ** [findLCP]: the extension of the common prefix *)

Lemma str_at_suffix str i (j : nat) c :
  0 <= i -> suffix str i !! j = Some c -> str_at str (i + Z.of_nat j) = Ok c.
Proof.
  intros Hi Hc. rewrite suffix_lookup in Hc by done. apply str_at_Ok; [lia|done].
Qed.

(** The character read at the end of a common prefix, at a position up to
    the terminator. *)
Lemma str_at_cases str i :
  0 <= i <= len str ->
  (exists c, str !! Z.to_nat i = Some c /\ str_at str i = Ok c /\ i < len str) \/
  (i = len str /\ str_at str i = Ok zero).
Proof.
  intros Hi. destruct (decide (i = len str)) as [->|Hne].
  - right. split; [done|apply str_at_end].
  - left. destruct (lookup_lt_is_Some_2 str (Z.to_nat i)) as [c Hc]; [unfold len in *; lia|].
    exists c. split; [done|]. split; [apply str_at_Ok; [lia|done]|lia].
Qed.

Lemma extend_loop_spec str i j L0 fuel :
  nul_free str -> 0 <= i < len str -> 0 <= j < len str -> i <> j ->
  0 <= L0 <= lcp_len (suffix str i) (suffix str j) ->
  lcp_len (suffix str i) (suffix str j) - L0 < Z.of_nat fuel ->
  extend_loop fuel str i j L0 = Ok (lcp_len (suffix str i) (suffix str j)).
Proof.
  intros Hnf Hi Hj Hij. set (T := lcp_len (suffix str i) (suffix str j)).
  revert L0. induction fuel as [|fuel IH]; intros L0 HL Hfuel; [lia|]. simpl.
  destruct (decide (L0 < T)) as [Hlt|Hge].
  - destruct (lcp_len_agree (suffix str i) (suffix str j) (Z.to_nat L0)) as (c & Hci & Hcj);
      [fold T; lia|].
    apply (str_at_suffix str i) in Hci; [|lia]. apply (str_at_suffix str j) in Hcj; [|lia].
    rewrite Z2Nat.id in Hci, Hcj by lia. rewrite Hci, Hcj. cbn [bind].
    rewrite bool_decide_eq_true_2 by done. apply IH; lia.
  - assert (L0 = T) as -> by lia.
    pose proof (lcp_len_le_l (suffix str i) (suffix str j)) as Hli.
    pose proof (lcp_len_le_r (suffix str i) (suffix str j)) as Hlj.
    rewrite suffix_length in Hli, Hlj by lia. fold T in Hli, Hlj.
    assert (Hdiff : forall c d, str !! Z.to_nat (i + T) = Some c ->
              str !! Z.to_nat (j + T) = Some d -> c <> d).
    { intros c d Hc Hd.
      apply (lcp_len_differ (suffix str i) (suffix str j)); fold T;
        rewrite suffix_lookup by lia; rewrite Z2Nat.id by lia; done. }
    assert (Hnz : forall x c, str !! x = Some c -> c <> zero).
    { intros x c Hc. unfold nul_free in Hnf. rewrite Forall_forall in Hnf. apply Hnf.
      by apply list_elem_of_lookup_2 in Hc. }
    destruct (str_at_cases str (i + T) ltac:(lia)) as [(c & Hc & -> & Hci)|[Hci ->]];
    destruct (str_at_cases str (j + T) ltac:(lia)) as [(d & Hd & -> & Hcj)|[Hcj ->]];
    cbn [bind].
    + rewrite bool_decide_eq_false_2; [done|]. by apply Hdiff.
    + rewrite bool_decide_eq_false_2; [done|]. by apply (Hnz _ _ Hc).
    + rewrite bool_decide_eq_false_2; [done|]. intros Heq. by apply (Hnz _ _ Hd).
    + lia.
Qed.

(** ** [findLCP]: the permuted longest common prefixes *)

Lemma true_plcp_nonneg str phi i : 0 <= true_plcp str phi i.
Proof. unfold true_plcp. destruct (_ =? _); [lia|apply lcp_len_nonneg]. Qed.

Lemma is_phi_pred t phi i :
  wf t -> 1 <= n t -> is_phi t phi -> 0 <= i < n t -> zth phi i <> -1 ->
  exists r, 1 <= r < n t /\ i = zth (sa t) r /\ zth phi i = zth (sa t) (r - 1) /\
            0 <= zth phi i < n t /\ zth phi i <> i.
Proof.
  intros Hwf Hn1 Hphi Hi Hne. pose proof Hwf as [Hn Hsa _ _].
  pose proof Hphi as (Hlen & Hfirst & Hprev).
  destruct (perm_surj (sa t) (n t) i Hsa Hi) as (r & Hr & <-).
  assert (r <> 0) by (intros ->; done).
  exists r. split; [lia|]. split; [done|]. rewrite Hprev by lia. split; [done|].
  split; [apply (perm_range (sa t) (n t)); [done|lia]|].
  intros Heq. apply (perm_inj (sa t) (n t)) in Heq; [lia|done|lia..].
Qed.

Lemma sorted_ranks_le t p q :
  wf t -> suffixes_sorted (s t) (sa t) -> 0 <= p <= q -> q < n t ->
  lex_le (suffix (s t) (zth (sa t) p)) (suffix (s t) (zth (sa t) q)).
Proof.
  intros [Hn Hsa _ _] Hsorted Hp Hq.
  pose proof (perm_len (sa t) (n t) ltac:(lia) Hsa) as Hlen.
  apply suffixes_sorted_inv; [done|lia..].
Qed.

(** Among the suffixes smaller than the suffix at [x], the predecessor of [x]
    in the suffix array shares the longest prefix with it. *)
Lemma pred_lcp_max t phi x y :
  wf t -> suffixes_sorted (s t) (sa t) -> is_phi t phi ->
  0 <= x < n t -> 0 <= y < n t -> x <> y ->
  lex_le (suffix (s t) y) (suffix (s t) x) ->
  zth phi x <> -1 /\ lcp_len (suffix (s t) x) (suffix (s t) y) <= true_plcp (s t) phi x.
Proof.
  intros Hwf Hsorted Hphi Hx Hy Hxy Hle. pose proof Hwf as [Hn Hsa _ _].
  pose proof Hphi as (Hlen & Hfirst & Hprev).
  destruct (perm_surj (sa t) (n t) x Hsa Hx) as (rx & Hrx & <-).
  destruct (perm_surj (sa t) (n t) y Hsa Hy) as (ry & Hry & <-).
  pose proof (sorted_rank_le t ry rx Hwf Hsorted Hry Hrx Hle) as Hranks.
  assert (ry <> rx) by (intros ->; done).
  unfold true_plcp. rewrite Hprev by lia.
  pose proof (perm_range (sa t) (n t) (rx - 1) Hsa ltac:(lia)) as Hpred.
  destruct (Z.eqb_spec (zth (sa t) (rx - 1)) (-1)); [lia|]. split; [lia|].
  rewrite (lcp_len_sym (suffix (s t) (zth (sa t) rx)) (suffix (s t) (zth (sa t) ry))).
  rewrite (lcp_len_sym (suffix (s t) (zth (sa t) rx)) (suffix (s t) (zth (sa t) (rx - 1)))).
  apply lcp_len_sandwich; apply sorted_ranks_le; (done || lia).
Qed.

(** Kasai's lemma: from one position of the text to the next, the length of
    the common prefix with the predecessor drops by one at most. *)
Lemma kasai t phi i :
  wf t -> suffixes_sorted (s t) (sa t) -> is_phi t phi ->
  0 <= i -> i + 1 < n t ->
  true_plcp (s t) phi i - 1 <= true_plcp (s t) phi (i + 1).
Proof.
  intros Hwf Hsorted Hphi Hi Hi1. pose proof Hwf as [Hn Hsa _ _].
  pose proof (true_plcp_nonneg (s t) phi (i + 1)) as Hnn.
  unfold true_plcp at 1. destruct (Z.eqb_spec (zth phi i) (-1)) as [|Hne]; [lia|].
  destruct (is_phi_pred t phi i Hwf ltac:(lia) Hphi ltac:(lia) Hne)
    as (r & Hr & Hir & Hjr & Hj & Hji).
  set (j := zth phi i) in *.
  destruct (decide (lcp_len (suffix (s t) i) (suffix (s t) j) <= 1)) as [|Hbig]; [lia|].
  destruct (suffix_cons (s t) i ltac:(lia)) as (c & _ & Hsi).
  destruct (suffix_cons (s t) j ltac:(lia)) as (d & _ & Hsj).
  assert (Hle : lex_le (suffix (s t) j) (suffix (s t) i)).
  { rewrite Hir, Hjr. apply sorted_ranks_le; (done || lia). }
  rewrite Hsi, Hsj in Hle, Hbig |- *.
  destruct (lcp_len_cons c (suffix (s t) (i + 1)) d (suffix (s t) (j + 1)) ltac:(lia))
    as [<- ->].
  apply lex_le_cons_inv in Hle.
  assert (Hj1 : j + 1 < n t).
  { destruct (decide (j + 1 < n t)) as [|Hge]; [done|]. exfalso. apply Hbig.
    rewrite (suffix_ge (s t) (j + 1)) by lia. rewrite lcp_len_sym. simpl.
    case_bool_decide; lia. }
  destruct (pred_lcp_max t phi (i + 1) (j + 1) Hwf Hsorted Hphi) as [_ Hmax];
    [lia..|done|]. lia.
Qed.

Lemma plcp_loop_spec t phi :
  wf t -> 1 <= n t -> suffixes_sorted (s t) (sa t) -> nul_free (s t) -> is_phi t phi ->
  exists q,
    for_loop 0 (n t) (plcp_body t phi)
      {| plcp := vzero (n t); L := 0; maxL := 0; lcp := [] |} = Ok q /\
    len (plcp q) = n t /\
    (forall x, 0 <= x < n t -> zth (plcp q) x = true_plcp (s t) phi x) /\
    best_so_far (s t) phi (n t) q.
Proof.
  intros Hwf Hn1 Hsorted Hnf Hphi. pose proof Hwf as [Hn Hsa _ _].
  pose proof Hphi as (Hlen & Hfirst & Hprev).
  set (I := fun (i : Z) (q : lcp_state) =>
    len (plcp q) = n t /\
    (forall x, 0 <= x < i -> zth (plcp q) x = true_plcp (s t) phi x) /\
    0 <= L q /\ (i < n t -> L q <= true_plcp (s t) phi i) /\
    best_so_far (s t) phi i q).
  assert (Hinit : I 0 {| plcp := vzero (n t); L := 0; maxL := 0; lcp := [] |}).
  { split; [apply len_vzero; lia|]. split; [intros x Hx; lia|]. split; [simpl; lia|].
    split; [intros _; apply true_plcp_nonneg|]. split; [intros x Hx; lia|]. by left. }
  destruct (for_loop_inv I (plcp_body t phi) 0 (n t) _ ltac:(lia) Hinit)
    as (q & Hrun & Hq & Hvals & _ & _ & Hbest); [|by exists q].
  intros i q Hi (Hq & Hvals & HL0 & HL & Hbest).
  specialize (HL ltac:(lia)).
  assert (Hnext : forall L', L' <= Z.max (true_plcp (s t) phi i - 1) 0 ->
            i + 1 < n t -> L' <= true_plcp (s t) phi (i + 1)).
  { intros L' HL' Hi1. pose proof (kasai t phi i Hwf Hsorted Hphi ltac:(lia) Hi1).
    pose proof (true_plcp_nonneg (s t) phi (i + 1)). lia. }
  assert (Hstore : forall v, zth phi i = -1 \/ zth phi i <> -1 -> v = true_plcp (s t) phi i ->
            len (<[Z.to_nat i := v]> (plcp q)) = n t /\
            forall x, 0 <= x < i + 1 ->
              zth (<[Z.to_nat i := v]> (plcp q)) x = true_plcp (s t) phi x).
  { intros v _ ->. split; [by rewrite len_insert|]. intros x Hx.
    destruct (decide (x = i)) as [->|Hxi]; [by rewrite zth_insert_eq by lia|].
    rewrite zth_insert_ne by lia. apply Hvals. lia. }
  unfold plcp_body. rewrite (vget_Ok phi i) by lia. cbn [bind].
  destruct (Z.eqb_spec (zth phi i) (-1)) as [Hs|Hns].
  - assert (Htp : true_plcp (s t) phi i = 0).
    { unfold true_plcp. by rewrite Hs. }
    rewrite vset_Ok by lia. cbn [bind].
    eexists. split; [reflexivity|].
    destruct (Hstore 0 ltac:(auto) ltac:(done)) as [Hlen' Hvals'].
    split; [done|]. split; [done|]. unfold best_so_far in *. cbn [L maxL lcp plcp].
    split; [done|]. split; [apply Hnext; lia|].
    destruct Hbest as [Hmax Hwit]. split.
    + intros x Hx. destruct (decide (x = i)) as [->|]; [|apply Hmax; lia].
      rewrite Htp. destruct Hwit as [[Hz _]|[Hpos _]]; lia.
    + destruct Hwit as [Hz|(Hpos & x & Hx & Hrest)]; [by left|].
      right. split; [done|]. exists x. split; [lia|done].
  - destruct (is_phi_pred t phi i Hwf Hn1 Hphi Hi Hns) as (r & Hr & Hir & Hjr & Hj & Hji).
    assert (Htp : true_plcp (s t) phi i = lcp_len (suffix (s t) i) (suffix (s t) (zth phi i))).
    { unfold true_plcp. destruct (Z.eqb_spec (zth phi i) (-1)); [done|done]. }
    pose proof (lcp_len_le_l (suffix (s t) i) (suffix (s t) (zth phi i))) as Hbound.
    rewrite suffix_length in Hbound by lia.
    rewrite (extend_loop_spec (s t) i (zth phi i) (L q)); [|done|lia|lia|lia|lia|lia].
    rewrite <- Htp in *. cbn [bind].
    pose proof (true_plcp_nonneg (s t) phi i) as Hnn.
    rewrite vset_Ok by lia. cbn [bind].
    destruct (Hstore (true_plcp (s t) phi i) ltac:(auto) ltac:(done)) as [Hlen' Hvals'].
    unfold best_so_far in *. destruct Hbest as [Hmax Hwit].
    destruct (Z.ltb_spec (maxL q) (true_plcp (s t) phi i)) as [Hlt|Hge].
    + rewrite substr_Ok by lia. cbn [bind].
      eexists. split; [reflexivity|].
      split; [done|]. cbn [L maxL lcp plcp fst snd].
      split; [done|]. split; [lia|]. split; [apply Hnext; lia|].
      split.
      * intros x Hx. destruct (decide (x = i)) as [->|]; [lia|].
        specialize (Hmax x ltac:(lia)). lia.
      * right. split; [destruct Hwit as [[Hz _]|[Hpos _]]; lia|].
        exists i. split; [lia|]. split; [done|]. split; [done|].
        intros y Hy. specialize (Hmax y ltac:(lia)). lia.
    + cbn [bind]. eexists. split; [reflexivity|].
      split; [done|]. cbn [L maxL lcp plcp fst snd].
      split; [done|]. split; [lia|]. split; [apply Hnext; lia|].
      split.
      * intros x Hx. destruct (decide (x = i)) as [->|]; [lia|]. apply Hmax. lia.
      * destruct Hwit as [Hz|(Hpos & x & Hx & Hrest)]; [by left|].
        right. split; [done|]. exists x. split; [lia|done].
Qed.

(** On a sorted suffix array of a text without NUL, [findLCP] returns; its
    arrays are the predecessor map and the lengths of the common prefixes. *)
Lemma findLCP_run_spec t :
  wf t -> 1 <= n t -> suffixes_sorted (s t) (sa t) -> nul_free (s t) ->
  exists phi q, findLCP_run t = Ok (phi, q) /\ is_phi t phi /\
    len (plcp q) = n t /\
    (forall x, 0 <= x < n t -> zth (plcp q) x = true_plcp (s t) phi x) /\
    best_so_far (s t) phi (n t) q.
Proof.
  intros Hwf Hn1 Hsorted Hnf. pose proof Hwf as [Hn Hsa _ _].
  pose proof (perm_len (sa t) (n t) ltac:(lia) Hsa) as Hlen.
  pose proof (perm_range (sa t) (n t) 0 Hsa ltac:(lia)) as Hsa0.
  destruct (phi_loop_spec t Hwf Hn1) as (phi & Hphirun & Hphi).
  destruct (plcp_loop_spec t phi Hwf Hn1 Hsorted Hnf Hphi) as (q & Hrun & Hq).
  exists phi, q. split; [|by split].
  unfold findLCP_run. rewrite (vget_Ok (sa t) 0) by lia. cbn [bind].
  rewrite vset_Ok by (rewrite len_vzero; lia). cbn [bind].
  rewrite Hphirun. cbn [bind]. rewrite Hrun. done.
Qed.

Lemma lcp_len_take a b :
  take (Z.to_nat (lcp_len a b)) a = take (Z.to_nat (lcp_len a b)) b.
Proof.
  revert b. induction a as [|x a IH]; intros [|y b]; simpl; try done.
  case_bool_decide as Hxy; [|done]. subst. pose proof (lcp_len_nonneg a b).
  replace (Z.to_nat (1 + lcp_len a b)) with (S (Z.to_nat (lcp_len a b))) by lia.
  simpl. by rewrite IH.
Qed.

(** ** The longest common prefix over all pairs of suffixes *)

Lemma max_list_nonneg l : 0 <= max_list l.
Proof. induction l as [|x l IH]; simpl; [done|]. unfold max_list in *. lia. Qed.

Lemma max_list_ge l x : x ∈ l -> x <= max_list l.
Proof.
  induction 1 as [x l|x y l Hin IH]; unfold max_list in *; simpl; lia.
Qed.

Lemma max_list_attained l : max_list l = 0 \/ max_list l ∈ l.
Proof.
  induction l as [|x l IH]; [by left|]. unfold max_list in *. simpl.
  pose proof (max_list_nonneg l) as Hnn. unfold max_list in Hnn.
  destruct (Z.max_spec x (foldr Z.max 0 l)) as [[Hlt ->]|[Hge ->]].
  - destruct IH as [IH|IH]; [by left|]. right. by right.
  - right. left.
Qed.

Lemma max_list_eq l m :
  0 <= m -> (forall x, x ∈ l -> x <= m) -> (m = 0 \/ m ∈ l) -> max_list l = m.
Proof.
  intros Hm Hub Hin. pose proof (max_list_nonneg l) as Hnn.
  apply Z.le_antisymm.
  - destruct (max_list_attained l) as [->|Hat]; [done|]. by apply Hub.
  - destruct Hin as [->|Hin]; [done|]. by apply max_list_ge.
Qed.

Lemma elem_of_pair_lcps str v :
  v ∈ pair_lcps str <->
  exists i j, 0 <= i < len str /\ 0 <= j < len str /\ i <> j /\
              v = lcp_len (suffix str i) (suffix str j).
Proof.
  unfold pair_lcps. rewrite list_elem_of_bind. split.
  - intros (i & Hv & Hi). apply list_elem_of_bind in Hv as (j & Hv & Hj).
    apply elem_of_seqZ in Hi, Hj. destruct (decide (i = j)); [by apply elem_of_nil in Hv|].
    apply list_elem_of_singleton in Hv. exists i, j. repeat split; (lia || done).
  - intros (i & j & Hi & Hj & Hij & ->). exists i. split; [|apply elem_of_seqZ; lia].
    apply list_elem_of_bind. exists j. split; [|apply elem_of_seqZ; lia].
    rewrite decide_False by done. apply list_elem_of_singleton. done.
Qed.

(** What [findLCP] computes on a sorted suffix array: a substring of the
    text whose length is the greatest length of a prefix common to two
    distinct suffixes, and which occurs twice when it is not empty. *)
Lemma findLCP_spec t :
  wf t -> 1 <= n t -> suffixes_sorted (s t) (sa t) -> nul_free (s t) ->
  exists r, findLCP t = Ok r /\ len r = max_pair_lcp (s t) /\
    (exists x, occurs_at (s t) r x) /\
    (r <> [] -> exists x y, x <> y /\ occurs_at (s t) r x /\ occurs_at (s t) r y).
Proof.
  intros Hwf Hn1 Hsorted Hnf. pose proof Hwf as [Hn Hsa _ _].
  destruct (findLCP_run_spec t Hwf Hn1 Hsorted Hnf) as (phi & q & Hrun & Hphi & _ & _ & Hbest).
  exists (lcp q). unfold findLCP. rewrite Hrun. cbn [bind]. split; [done|].
  destruct Hbest as [Hmax Hwit].
  assert (Hpairs : forall x y, 0 <= x < n t -> 0 <= y < n t -> x <> y ->
            lcp_len (suffix (s t) x) (suffix (s t) y) <= maxL q).
  { intros x y Hx Hy Hxy.
    destruct (lex_le_total (suffix (s t) y) (suffix (s t) x)) as [Hle|Hle].
    - destruct (pred_lcp_max t phi x y Hwf Hsorted Hphi Hx Hy Hxy Hle) as [_ Hb].
      specialize (Hmax x Hx). lia.
    - destruct (pred_lcp_max t phi y x Hwf Hsorted Hphi Hy Hx ltac:(done) Hle) as [_ Hb].
      specialize (Hmax y Hy). rewrite lcp_len_sym. lia. }
  destruct Hwit as [[Hz Hnil]|(Hpos & x & Hx & Htp & Hlcp & _)].
  - rewrite Hnil. split; [|split].
    + change (len (@nil ascii)) with 0.
      symmetry. apply max_list_eq; [done| |by left].
      intros v (i & j & Hi & Hj & Hij & ->)%elem_of_pair_lcps.
      rewrite <- Hz. apply Hpairs; lia.
    + exists 0. split; [lia|done].
    + done.
  - assert (Hns : zth phi x <> -1).
    { intros Hs. unfold true_plcp in Htp. rewrite Hs in Htp. simpl in Htp. lia. }
    destruct (is_phi_pred t phi x Hwf Hn1 Hphi Hx Hns) as (r & Hr & Hxr & Hyr & Hy & Hyx).
    assert (Htp' : lcp_len (suffix (s t) x) (suffix (s t) (zth phi x)) = maxL q).
    { rewrite <- Htp. unfold true_plcp. by destruct (Z.eqb_spec (zth phi x) (-1)). }
    pose proof (lcp_len_le_l (suffix (s t) x) (suffix (s t) (zth phi x))) as Hlx.
    pose proof (lcp_len_le_r (suffix (s t) x) (suffix (s t) (zth phi x))) as Hly.
    rewrite suffix_length in Hlx, Hly by lia. rewrite Htp' in Hlx, Hly.
    assert (Hlen : len (lcp q) = maxL q).
    { rewrite Hlcp, prefix_at_length by lia. lia. }
    assert (Hocc : forall z, 0 <= z < n t -> prefix_at (s t) (maxL q) z = lcp q ->
              occurs_at (s t) (lcp q) z).
    { intros z Hz Hpz. split; [lia|]. rewrite <- Hpz at 2. unfold prefix_at.
      f_equal. unfold len in Hlen. lia. }
    assert (Hoy : prefix_at (s t) (maxL q) (zth phi x) = lcp q).
    { rewrite Hlcp. unfold prefix_at. rewrite <- Htp'. symmetry. apply lcp_len_take. }
    split; [|split].
    + rewrite Hlen. symmetry. apply max_list_eq; [lia| |].
      * intros v (i & j & Hi & Hj & Hij & ->)%elem_of_pair_lcps. apply Hpairs; lia.
      * right. apply elem_of_pair_lcps. exists x, (zth phi x).
        repeat split; (lia || done).
    + exists x. by apply Hocc.
    + intros _. exists x, (zth phi x). split; [done|]. split; apply Hocc; (done || lia).
Qed.

(** ** The only error is a read out of bounds

    No call of [find] or [findLCP] on a constructed object exhausts the fuel
    of a loop of the embedding or throws [std::out_of_range]. *)

Lemma for_count_cases {St : Type} (I : Z -> St -> Prop) (body : Z -> St -> result St)
    (cnt : nat) (a : Z) (st : St) :
  I a st ->
  (forall i st0, a <= i < a + Z.of_nat cnt -> I i st0 ->
     (exists st1, body i st0 = Ok st1 /\ I (i + 1) st1) \/ body i st0 = OutOfBounds) ->
  (exists st', for_count cnt a body st = Ok st') \/ for_count cnt a body st = OutOfBounds.
Proof.
  revert a st. induction cnt as [|cnt IH]; intros a st HI Hstep; simpl; [by eauto|].
  destruct (Hstep a st) as [(st1 & -> & HI1)| ->]; [lia|done| |by right]. simpl.
  apply IH; [done|]. intros i st0 Hi. apply Hstep. lia.
Qed.

Lemma lower_bound_loop_returns t p fuel lo hi :
  wf t -> 0 <= lo <= hi -> hi <= n t -> hi - lo <= Z.of_nat fuel ->
  exists res, lower_bound_loop fuel t (len p) p lo hi = Ok res /\ lo <= res <= hi.
Proof.
  intros Hwf. revert lo hi.
  induction fuel as [|fuel IH]; intros lo hi Hlo Hhi Hfuel; simpl.
  - destruct (Z.ltb_spec lo hi); [lia|]. exists lo. split; [done|lia].
  - destruct (Z.ltb_spec lo hi) as [Hlt|Hge]; [|exists lo; split; [done|lia]].
    rewrite Z.quot_div_nonneg by lia. pose proof (half_bounds (lo + hi)) as Hmi.
    destruct (compare_rank t p ((lo + hi) / 2) Hwf ltac:(lia)) as [Hget Hcmp].
    rewrite Hget. cbn [bind]. rewrite Hcmp. cbn [bind].
    destruct (rank_cmp t p ((lo + hi) / 2)).
    + destruct (IH lo ((lo + hi) / 2)) as (res & -> & Hres); [lia..|]. exists res. split; [done|lia].
    + destruct (IH ((lo + hi) / 2 + 1) hi) as (res & -> & Hres); [lia..|].
      exists res. split; [done|lia].
    + destruct (IH lo ((lo + hi) / 2)) as (res & -> & Hres); [lia..|]. exists res. split; [done|lia].
Qed.

Lemma upper_bound_loop_returns t p fuel lo hi :
  wf t -> -1 <= lo <= hi -> hi <= n t - 1 -> hi - lo <= Z.of_nat fuel ->
  exists res, upper_bound_loop fuel t (len p) p lo hi = Ok res /\ lo <= res <= hi.
Proof.
  intros Hwf. revert lo hi.
  induction fuel as [|fuel IH]; intros lo hi Hlo Hhi Hfuel; simpl.
  - destruct (Z.ltb_spec lo hi); [lia|]. exists hi. split; [done|lia].
  - destruct (Z.ltb_spec lo hi) as [Hlt|Hge]; [|exists hi; split; [done|lia]].
    rewrite Z.quot_div_nonneg by lia. pose proof (half_bounds (lo + hi + 1)) as Hmi.
    destruct (compare_rank t p ((lo + hi + 1) / 2) Hwf ltac:(lia)) as [Hget Hcmp].
    rewrite Hget. cbn [bind]. rewrite Hcmp. cbn [bind].
    destruct (rank_cmp t p ((lo + hi + 1) / 2)).
    + destruct (IH ((lo + hi + 1) / 2) hi) as (res & -> & Hres); [lia..|].
      exists res. split; [done|lia].
    + destruct (IH ((lo + hi + 1) / 2) hi) as (res & -> & Hres); [lia..|].
      exists res. split; [done|lia].
    + destruct (IH lo ((lo + hi + 1) / 2 - 1)) as (res & -> & Hres); [lia..|].
      exists res. split; [done|lia].
Qed.

Lemma find_cases t p :
  wf t -> (exists pos, find t p = Ok pos) \/ find t p = OutOfBounds.
Proof.
  intros Hwf. pose proof Hwf as [Hn Hsa _ _].
  pose proof (len_nonneg (s t)) as Hn0. rewrite <- Hn in Hn0.
  pose proof (perm_len (sa t) (n t) Hn0 Hsa) as Hlen.
  destruct (lower_bound_loop_returns t p (Z.to_nat (n t)) 0 (n t) Hwf)
    as (lo & Hrun & Hlo); [lia..|].
  unfold find. rewrite Hrun. cbn [bind].
  destruct (decide (lo < n t)) as [Hlt|Hge]; [|right; by rewrite vget_oob by lia].
  destruct (compare_rank t p lo Hwf ltac:(lia)) as [Hget Hcmp].
  rewrite Hget. cbn [bind]. rewrite Hcmp. cbn [bind].
  destruct (rank_cmp t p lo); [|by eauto..].
  destruct (upper_bound_loop_returns t p (Z.to_nat (n t)) (-1) (n t - 1) Hwf)
    as (hi & Hrun2 & Hhi); [lia..|].
  rewrite Hrun2. cbn [bind].
  destruct (decide (lo <= hi + 1)) as [Hle|Hgt].
  - rewrite push_loop_spec by (done || lia). eauto.
  - rewrite for_loop_empty by lia. eauto.
Qed.

Lemma extend_loop_cases str i j L0 fuel :
  0 <= i + L0 -> (0 < fuel)%nat -> len str + 1 - (i + L0) < Z.of_nat fuel ->
  (exists L1, extend_loop fuel str i j L0 = Ok L1 /\ L0 <= L1) \/
  extend_loop fuel str i j L0 = OutOfBounds.
Proof.
  revert L0. induction fuel as [|fuel IH]; intros L0 HL Hpos Hfuel; simpl.
  - lia.
  - destruct (decide (i + L0 <= len str)) as [Hin|Hout];
      [|right; by rewrite str_at_oob by lia].
    destruct (str_at_cases str (i + L0) ltac:(lia)) as [(c & _ & -> & _)|[_ ->]]; cbn [bind].
    + destruct (str_at str (j + L0)) as [d| | |] eqn:Hd; cbn [bind]; try by right.
      * case_bool_decide; [|left; exists L0; split; [done|lia]].
        destruct (IH (L0 + 1)) as [(L1 & -> & HL1)| ->]; [lia..| |by right].
        left. exists L1. split; [done|lia].
      * exfalso. unfold str_at in Hd. repeat case_match; done.
      * exfalso. unfold str_at in Hd. repeat case_match; done.
    + destruct (str_at str (j + L0)) as [d| | |] eqn:Hd; cbn [bind]; try by right.
      * case_bool_decide; [|left; exists L0; split; [done|lia]].
        destruct (IH (L0 + 1)) as [(L1 & -> & HL1)| ->]; [lia..| |by right].
        left. exists L1. split; [done|lia].
      * exfalso. unfold str_at in Hd. repeat case_match; done.
      * exfalso. unfold str_at in Hd. repeat case_match; done.
Qed.

Lemma findLCP_run_cases t :
  wf t -> (exists r, findLCP_run t = Ok r) \/ findLCP_run t = OutOfBounds.
Proof.
  intros Hwf. pose proof Hwf as [Hn Hsa _ _].
  pose proof (len_nonneg (s t)) as Hn0. rewrite <- Hn in Hn0.
  pose proof (perm_len (sa t) (n t) Hn0 Hsa) as Hlen.
  unfold findLCP_run.
  destruct (decide (1 <= n t)) as [Hn1|Hz]; [|right; by rewrite vget_oob by lia].
  pose proof (perm_range (sa t) (n t) 0 Hsa ltac:(lia)) as Hsa0.
  rewrite (vget_Ok (sa t) 0) by lia. cbn [bind].
  rewrite vset_Ok by (rewrite len_vzero; lia). cbn [bind].
  destruct (phi_loop_spec t Hwf Hn1) as (phi & -> & Hphi & _). cbn [bind].
  set (I := fun (i : Z) (q : lcp_state) => len (plcp q) = n t /\ 0 <= L q).
  destruct (for_count_cases I (plcp_body t phi) (Z.to_nat (n t - 0)) 0
              {| plcp := vzero (n t); L := 0; maxL := 0; lcp := [] |})
    as [(q & Hq)|Hq].
  - split; [apply len_vzero; lia|simpl; lia].
  - intros i q Hi [Hlen' HL]. unfold plcp_body.
    rewrite (vget_Ok phi i) by lia. cbn [bind].
    destruct (zth phi i =? -1).
    + rewrite vset_Ok by lia. cbn [bind]. left. eexists. split; [reflexivity|].
      split; [simpl; by rewrite len_insert|done].
    + destruct (extend_loop_cases (s t) i (zth phi i) (L q) (Z.to_nat (n t + 2)))
        as [(L1 & -> & HL1)| ->]; [lia..| |by right]. cbn [bind].
      rewrite vset_Ok by lia. cbn [bind].
      destruct (maxL q <? L1).
      * rewrite substr_Ok by lia. cbn [bind]. left. eexists. split; [reflexivity|].
        split; [simpl; by rewrite len_insert|simpl; lia].
      * cbn [bind]. left. eexists. split; [reflexivity|].
        split; [simpl; by rewrite len_insert|simpl; lia].
  - left. unfold for_loop. rewrite Hq. cbn [bind]. eauto.
  - right. unfold for_loop. by rewrite Hq.
Qed.

(** * The claims of the specification *)

(** ** Construction *)

(** C1 (as amended).  For every text whose characters all have a positive
    value as [int], [build] returns, and the array it leaves in [sa] is a
    permutation of [0, n) in which the suffixes appear in lexicographic
    order: for all ranks [i < j], [suffix (sa[i]) <= suffix (sa[j])]. *)
Theorem build_sorted_permutation `{Impl} (str : list ascii) :
  positive_text str ->
  exists t, SuffixArray_new str = Ok t /\
    perm_of_indices (len str) (sa t) /\ suffixes_sorted str (sa t).
Proof.
  intros Hpos.
  destruct (build_sorted str Hpos) as (t & Hnew & [_ Hsa _ _] & _ & Hn & Hsorted).
  exists t. rewrite Hn in Hsa. done.
Qed.

Lemma build_sorted_permutation_witness :
  exists t, @SuffixArray_new (impl_of true) (text_of "GATAGACA") = Ok t /\
    perm_of_indices (len (text_of "GATAGACA")) (sa t) /\
    suffixes_sorted (text_of "GATAGACA") (sa t).
Proof.
  apply (@build_sorted_permutation (impl_of true) (text_of "GATAGACA")).
  unfold positive_text. repeat (constructor; [vm_compute; reflexivity|]). constructor.
Defined.

(** C1 as stated fails on a text with NUL characters: in ["\0\0"] both
    suffixes get the composite key (0, 0), the sort leaves them in the order
    0, 1, and the loop ends after the step [k = 1]; but the suffix at 1 is a
    proper prefix of the suffix at 0. *)
Lemma build_sorted_counterexample :
  (exists t, @SuffixArray_new (impl_of false) [zero; zero] = Ok t /\
     sa t = [0; 1] /\ ~ suffixes_sorted [zero; zero] (sa t)) /\
  (exists t, @SuffixArray_new (impl_of true) [zero; zero] = Ok t /\
     sa t = [0; 1] /\ ~ suffixes_sorted [zero; zero] (sa t)).
Proof.
  split; (eexists; split; [vm_compute; reflexivity|]; split; [reflexivity|];
    intros Hs; by apply (Hs 0%nat 1%nat 0 1 ltac:(lia) eq_refl eq_refl)).
Qed.

(** ** Search *)

(** C2 (as amended).  For every text whose characters all have a positive
    value as [int], and every pattern that is not greater than the first
    [|p|] characters of every suffix (as is every pattern that occurs in the
    text), [find] returns exactly the positions where the pattern occurs,
    each once, as a segment of the suffix array. *)
Theorem find_occurrences `{Impl} (str p : list ascii) :
  positive_text str ->
  (exists i, 0 <= i < len str /\ traits_compare (prefix_at str (len p) i) p <> Lt) ->
  exists t pos, SuffixArray_new str = Ok t /\ find t p = Ok pos /\
    (exists before after, sa t = before ++ pos ++ after) /\
    NoDup pos /\ forall x, x ∈ pos <-> occurs_at str p x.
Proof.
  intros Hpos (i & Hi & Hnlt).
  destruct (build_sorted str Hpos) as (t & Hnew & Hwf & Hs & Hn & Hsorted).
  pose proof Hwf as [_ Hsa _ _].
  pose proof (perm_len (sa t) (n t) ltac:(lia) Hsa) as Hlen.
  rewrite <- Hs in Hsorted.
  destruct (find_range t p Hwf (sorted_cmp_monotone t p Hwf Hsorted))
    as (first & last & Hfind & Hfirst & Hfl & Hlast & Hrange).
  { destruct (perm_surj (sa t) (n t) i Hsa ltac:(lia)) as (r & Hr & Hri).
    exists r. split; [done|]. unfold rank_cmp. by rewrite Hri, Hs. }
  exists t, (take (Z.to_nat (last + 1 - first)) (drop (Z.to_nat first) (sa t))).
  split; [done|]. split; [done|]. split; [|split].
  - exists (take (Z.to_nat first) (sa t)),
      (drop (Z.to_nat (last + 1 - first)) (drop (Z.to_nat first) (sa t))).
    by rewrite !take_drop.
  - eapply sublist_NoDup; [exact (perm_NoDup _ (n t) Hsa)|].
    etrans; [apply sublist_take|apply sublist_drop].
  - intros x. rewrite elem_of_range by lia. rewrite <- Hs, (occurs_at_rank t p x Hwf).
    split.
    + intros (r & Hr & ->). exists r. split; [lia|]. split; [done|]. apply Hrange; lia.
    + intros (r & Hr & -> & Heq). exists r. split; [by apply Hrange|done].
Qed.

Lemma find_occurrences_witness :
  exists t pos, @SuffixArray_new (impl_of true) (text_of "GATAGACA") = Ok t /\
    find t (text_of "GA") = Ok pos /\
    (exists before after, sa t = before ++ pos ++ after) /\
    NoDup pos /\ forall x, x ∈ pos <-> occurs_at (text_of "GATAGACA") (text_of "GA") x.
Proof.
  apply (@find_occurrences (impl_of true) (text_of "GATAGACA") (text_of "GA")).
  - unfold positive_text. repeat (constructor; [vm_compute; reflexivity|]). constructor.
  - exists 0. split; [vm_compute; by split|]. vm_compute. discriminate.
Defined.

(** C2 as stated fails on texts that [build] does not sort.  In ["\0\0\0"]
    the pattern ["\0\0"] occurs at 0 and at 1, and [find] returns 0 only;
    where plain [char] is signed, in ["a\xE9"] the pattern ["a"] occurs at 0
    and [find] returns nothing. *)
Lemma find_occurrences_counterexample :
  (exists t pos, @SuffixArray_new (impl_of false) [zero; zero; zero] = Ok t /\
     find t [zero; zero] = Ok pos /\
     occurs_at [zero; zero; zero] [zero; zero] 1 /\ 1 ∉ pos) /\
  (exists t pos, @SuffixArray_new (impl_of true) [ascii_of_nat 97; ascii_of_nat 233] = Ok t /\
     find t [ascii_of_nat 97] = Ok pos /\
     occurs_at [ascii_of_nat 97; ascii_of_nat 233] [ascii_of_nat 97] 0 /\ 0 ∉ pos).
Proof.
  split.
  - exists {| s := [zero; zero; zero]; n := 3; k := 4;
              sa := [1; 2; 0]; ra := [2; 1; 1]; rb := [2; 1; 1] |}, [0].
    split; [vm_compute; reflexivity|]. split; [vm_compute; reflexivity|].
    split; [split; [vm_compute; by split|reflexivity]|].
    intros Hin. apply list_elem_of_singleton in Hin. lia.
  - exists {| s := [ascii_of_nat 97; ascii_of_nat 233]; n := 2; k := 1;
              sa := [1; 0]; ra := [2; 1]; rb := [2; 1] |}, [].
    split; [vm_compute; reflexivity|]. split; [vm_compute; reflexivity|].
    split; [split; [vm_compute; by split|reflexivity]|].
    apply not_elem_of_nil.
Qed.

(** C3 (the defect).  When the pattern is greater than the first [|p|]
    characters of every suffix, and in particular on the empty text, the
    lower bound found by [find] is [n] and [find] reads [sa[n]], outside
    the array. *)
Theorem find_reads_past_sa `{Impl} (str p : list ascii) :
  (forall i, 0 <= i < len str -> traits_compare (prefix_at str (len p) i) p = Lt) ->
  exists t, SuffixArray_new str = Ok t /\ find t p = OutOfBounds.
Proof.
  intros Hall. destruct (SuffixArray_new_wf str) as (t & Hnew & Hwf & Hs & Hn).
  exists t. split; [done|]. apply find_out_of_bounds; [done|].
  intros r Hr. unfold rank_cmp. rewrite Hs. apply Hall.
  pose proof Hwf as [_ Hsa _ _]. rewrite <- Hn. by apply perm_range.
Qed.

Lemma find_reads_past_sa_witness :
  (exists t, @SuffixArray_new (impl_of true) (text_of "a") = Ok t /\
     find t (text_of "b") = OutOfBounds) /\
  (exists t, @SuffixArray_new (impl_of true) [] = Ok t /\ find t [] = OutOfBounds).
Proof.
  split.
  - apply (@find_reads_past_sa (impl_of true) (text_of "a") (text_of "b")).
    intros i Hi. change (len (text_of "a")) with 1 in Hi.
    assert (i = 0) as -> by lia. reflexivity.
  - apply (@find_reads_past_sa (impl_of true) [] []).
    intros i Hi. change (len (@nil ascii)) with 0 in Hi. lia.
Defined.

(** C9.  For every non-empty text, [find] applied to the empty pattern
    returns the whole suffix array: [n] indices, a permutation of [0, n),
    in the order of the suffix array. *)
Theorem find_empty_pattern `{Impl} (str : list ascii) :
  str <> [] ->
  exists t, SuffixArray_new str = Ok t /\ find t [] = Ok (sa t) /\
    len (sa t) = len str /\ perm_of_indices (len str) (sa t).
Proof.
  intros Hne. destruct (SuffixArray_new_wf str) as (t & Hnew & Hwf & Hs & Hn).
  pose proof Hwf as [_ Hsa _ _].
  assert (Hn1 : 1 <= n t).
  { rewrite Hn. destruct str; [done|]. unfold len. simpl. lia. }
  pose proof (perm_len (sa t) (n t) ltac:(lia) Hsa) as Hlen.
  assert (Heq : forall r, rank_cmp t [] r = Eq).
  { intros r. reflexivity. }
  assert (Hmono : cmp_monotone t []).
  { intros r1 r2 _ _. rewrite !Heq. done. }
  destruct (find_range t [] Hwf Hmono) as (first & last & Hfind & Hfirst & Hfl & Hlast & Hrange).
  { exists 0. split; [lia|]. by rewrite Heq. }
  assert (first = 0) as -> by (pose proof (proj1 (Hrange 0 ltac:(lia)) (Heq 0)); lia).
  assert (last = n t - 1) as ->
    by (pose proof (proj1 (Hrange (n t - 1) ltac:(lia)) (Heq (n t - 1))); lia).
  exists t. split; [done|]. rewrite <- Hn. split; [|done].
  rewrite Hfind. f_equal. simpl. rewrite drop_0. apply take_ge. unfold len in Hlen. lia.
Qed.

Lemma find_empty_pattern_witness :
  exists t, @SuffixArray_new (impl_of true) (text_of "GATAGACA") = Ok t /\
    find t [] = Ok (sa t) /\
    len (sa t) = len (text_of "GATAGACA") /\
    perm_of_indices (len (text_of "GATAGACA")) (sa t).
Proof.
  apply (@find_empty_pattern (impl_of true) (text_of "GATAGACA")). discriminate.
Defined.

(** ** The doubling loop, step by step *)

(** The iterations recorded by a run: each starts from a well-formed state,
    the [idx]-th one with the step [k * 2 ^ idx]; the first starts from the
    state in which the loop was entered, and the others from ranks between
    1 and [n]. *)
Lemma doubling_log `{Impl} t log tf :
  doubling t log tf -> wf t -> 1 <= k t ->
  forall (idx : nat) t0 t1, log !! idx = Some (t0, t1) ->
    wf t0 /\ 1 <= k t0 /\ k t0 < n t0 /\ build_iter t0 = Ok t1 /\
    s t0 = s t /\ n t0 = n t /\ k t0 = k t * 2 ^ Z.of_nat idx /\
    (idx = 0%nat -> t0 = t) /\
    (idx <> 0%nat -> forall i, 0 <= i < n t -> 1 <= zth (ra t0) i <= n t).
Proof.
  induction 1 as [t|t t' Hlt Hrun Hlast|t t' log tf Hlt Hrun Hlast Hd IH];
    intros Hwf Hk idx t0 t1 Hidx.
  - done.
  - destruct idx as [|idx]; [|done]. injection Hidx as <- <-.
    do 6 (split; [done|]). split; [simpl; lia|]. by split.
  - destruct idx as [|idx].
    + injection Hidx as <- <-.
      do 6 (split; [done|]). split; [simpl; lia|]. by split.
    + simpl in Hidx.
      destruct (build_iter_ranks t Hwf ltac:(lia) ltac:(lia))
        as (t'' & Hrun' & Hwf' & Hs & Hn & Hk' & _ & _ & _ & Hbounds).
      rewrite Hrun in Hrun'. injection Hrun' as <-.
      destruct (IH (wf_with_k t' _ Hwf') ltac:(simpl; lia) idx t0 t1 Hidx)
        as (Hwf0 & Hk0 & Hlt0 & Hrun0 & Hs0 & Hn0 & Hkk & Hfirst & Hrest).
      simpl in Hk0, Hs0, Hn0, Hkk, Hrest.
      do 4 (split; [done|]). split; [congruence|]. split; [congruence|].
      split; [|split; [done|]].
      * rewrite Hkk, Hk'. replace (Z.of_nat (S idx)) with (Z.of_nat idx + 1) by lia.
        rewrite Z.pow_add_r by lia. lia.
      * intros _ i Hi. rewrite <- Hn in Hi |- *.
        destruct idx as [|idx']; [|by apply Hrest].
        rewrite (Hfirst eq_refl). simpl. rewrite Hn in Hi |- *. by apply Hbounds.
Qed.

(** C5 (as amended).  For every text without NUL character, after the
    iteration of the doubling loop with step [k] (the [idx]-th iteration has
    [k = 2 ^ idx]), [ra[i] == ra[j]] exactly when the first [2 k] characters
    of the suffixes at [i] and [j], each cut at the end of the text, are the
    same. *)
Theorem rank_classes_after_step `{Impl} (str : list ascii) :
  nul_free str ->
  exists tf log, build_log (unbuilt str) = Ok (tf, log) /\
    forall (idx : nat) t0 t1, log !! idx = Some (t0, t1) ->
      k t1 = 2 ^ Z.of_nat idx /\ len (ra t1) = len str /\
      forall i j, 0 <= i < len str -> 0 <= j < len str ->
        zth (ra t1) i = zth (ra t1) j <->
        prefix_at str (2 * k t1) i = prefix_at str (2 * k t1) j.
Proof.
  intros Hnf. destruct (build_log_doubling str) as (tf & log & Hrun & Hd).
  exists tf, log. split; [done|]. intros idx t0 t1 Hidx.
  pose proof (doubling_invariant rank_classes _ _ _ rank_classes_step Hd
                (wf_start str) ltac:(simpl; lia) (rank_classes_start str Hnf)) as Hall.
  rewrite Forall_lookup in Hall. specialize (Hall idx (t0, t1) Hidx). simpl in Hall.
  destruct Hall as (Hwf0 & Hk0 & Hlt0 & Hrc & Hrun0).
  destruct (doubling_log _ _ _ Hd (wf_start str) ltac:(simpl; lia) idx t0 t1 Hidx)
    as (_ & _ & _ & _ & Hs0 & Hn0 & Hkk & _). simpl in Hs0, Hn0, Hkk.
  destruct (rank_classes_after t0 t1 Hwf0 Hk0 Hlt0 Hrc Hrun0) as (Hlen & Hk1 & Hcl & _).
  rewrite Hk1, <- Hn0, <- Hs0. split; [lia|]. split; [done|].
  intros i j Hi Hj. by apply Hcl.
Qed.

Lemma rank_classes_after_step_witness :
  exists tf log, @build_log (impl_of true) (unbuilt (text_of "GATAGACA")) = Ok (tf, log) /\
    forall (idx : nat) t0 t1, log !! idx = Some (t0, t1) ->
      k t1 = 2 ^ Z.of_nat idx /\ len (ra t1) = len (text_of "GATAGACA") /\
      forall i j, 0 <= i < len (text_of "GATAGACA") -> 0 <= j < len (text_of "GATAGACA") ->
        zth (ra t1) i = zth (ra t1) j <->
        prefix_at (text_of "GATAGACA") (2 * k t1) i = prefix_at (text_of "GATAGACA") (2 * k t1) j.
Proof.
  apply (@rank_classes_after_step (impl_of true) (text_of "GATAGACA")).
  unfold nul_free. repeat (constructor; [discriminate|]). constructor.
Defined.

(** C5 as stated fails on a text with NUL characters: in ["\0\0"], after the
    step [k = 1] both suffixes have the rank 1, but their first two
    characters are ["\0\0"] and ["\0"]. *)
Lemma rank_classes_counterexample :
  exists tf t0 t1,
    @build_log (impl_of false) (unbuilt [zero; zero]) = Ok (tf, [(t0, t1)]) /\
    k t1 = 1 /\ ra t1 = [1; 1] /\
    prefix_at [zero; zero] (2 * k t1) 0 <> prefix_at [zero; zero] (2 * k t1) 1.
Proof.
  do 3 eexists. split; [vm_compute; reflexivity|].
  split; [reflexivity|]. split; [reflexivity|]. discriminate.
Qed.

(** In a run of the loop, an iteration starts from the state in which the
    iteration before it ended, with [k] doubled. *)
Lemma doubling_head `{Impl} t log tf a b rest :
  doubling t log tf -> log = (a, b) :: rest -> a = t.
Proof.
  intros Hd Hlog. destruct Hd; [done|by injection Hlog as <- _ _..].
Qed.

Lemma doubling_chain `{Impl} t log tf :
  doubling t log tf ->
  forall (idx : nat) a b c d, log !! idx = Some (a, b) -> log !! S idx = Some (c, d) ->
    c = with_k b (2 * k b).
Proof.
  induction 1 as [t|t t' Hlt Hrun Hlast|t t' log tf Hlt Hrun Hlast Hd IH];
    intros idx a b c d Ha Hc.
  - done.
  - destruct idx; done.
  - destruct idx as [|idx].
    + injection Ha as <- <-. simpl in Hc.
      destruct log as [|[c' d'] rest]; [done|]. injection Hc as -> ->.
      exact (doubling_head _ _ _ c d rest Hd eq_refl).
    + simpl in Ha, Hc. by apply (IH idx a b c d).
Qed.

(** C8 (as amended).  For every text, the ranks that every iteration of the
    doubling loop assigns are normalized: the rank of [sa[0]] is 1, along
    [sa] the rank grows by one where [cmp] holds between neighbours (two
    classes) and not at all elsewhere (one class), so the ranks order the
    positions as [cmp] did and lie between 1 and [n]; [cmp] compares the
    pairs [(ra[i], ra[i+k])], with 0 for [i + k >= n], and [k = 2 ^ idx] in
    the [idx]-th iteration.  The next iteration starts from these ranks, so
    in every iteration but the first the sentinel 0 is strictly smaller than
    every rank that [cmp] reads.  The first iteration reads the values of
    the characters: when all of them are positive they are above the
    sentinel too, and then in every iteration [cmp] orders the positions as
    the first [2 k] characters of their suffixes. *)
Theorem ranks_normalized `{Impl} (str : list ascii) :
  exists tf log, build_log (unbuilt str) = Ok (tf, log) /\
    forall (idx : nat) t0 t1, log !! idx = Some (t0, t1) ->
      let m := len str in
      (len (ra t1) = m /\
       zth (ra t1) (zth (sa t1) 0) = 1 /\
       (forall p, 0 <= p -> p + 1 < m ->
          zth (ra t1) (zth (sa t1) (p + 1)) =
          zth (ra t1) (zth (sa t1) p) + Z.b2z (cmp_val t0 (zth (sa t1) p) (zth (sa t1) (p + 1)))) /\
       (forall i j, 0 <= i < m -> 0 <= j < m ->
          (zth (ra t1) i <? zth (ra t1) j) = cmp_val t0 i j) /\
       (forall i, 0 <= i < m -> 1 <= zth (ra t1) i <= m)) /\
      (k t0 = 2 ^ Z.of_nat idx /\ n t0 = m /\
       forall i j, 0 <= i < m -> 0 <= j < m -> cmp_val t0 i j = key_lt t0 i j) /\
      (idx = 0%nat -> ra t0 = map char_to_int str) /\
      (forall u0 u1, log !! S idx = Some (u0, u1) -> ra u0 = ra t1 /\ sa u0 = sa t1) /\
      (idx <> 0%nat -> forall i, 0 <= i < m -> 1 <= zth (ra t0) i <= m) /\
      (positive_text str ->
         (forall i, 0 <= i < m -> 0 < zth (ra t0) i) /\
         (forall i j, 0 <= i < m -> 0 <= j < m ->
            cmp_val t0 i j =
            lex_ltb (prefix_at str (2 * k t0) i) (prefix_at str (2 * k t0) j))).
Proof.
  destruct (build_log_doubling str) as (tf & log & Hrun & Hd).
  exists tf, log. split; [done|]. intros idx t0 t1 Hidx m.
  destruct (doubling_log _ _ _ Hd (wf_start str) ltac:(simpl; lia) idx t0 t1 Hidx)
    as (Hwf0 & Hk0 & Hlt0 & Hrun0 & Hs0 & Hn0 & Hkk & Hfirst & Hrest).
  simpl in Hs0, Hn0, Hkk, Hrest. fold m in Hn0, Hrest.
  destruct (build_iter_ranks t0 Hwf0 ltac:(lia) ltac:(lia))
    as (t' & Hrun' & Hwf' & Hs & Hn & Hk' & Hord & Hranks & Hltb & Hbounds).
  rewrite Hrun0 in Hrun'. injection Hrun' as <-.
  pose proof Hwf' as [_ Hsa' Hra' _]. pose proof Hwf0 as [_ _ Hra0 _].
  rewrite Hn0 in *. rewrite Hn in *.
  assert (Hkey : forall i j, 0 <= i < m -> 0 <= j < m -> cmp_val t0 i j = key_lt t0 i j).
  { intros i j Hi Hj. apply cmp_val_key; (lia || by rewrite Hn0). }
  split; [|split; [|split; [|split; [|split]]]].
  - split; [done|]. split; [by rewrite Hranks by lia|]. split; [|split; [|done]].
    + intros p Hp Hp1. rewrite !Hranks by lia.
      replace (Z.to_nat (p + 1)) with (S (Z.to_nat p)) by lia. cbn [rank_at].
      replace (Z.of_nat (S (Z.to_nat p))) with (p + 1) by lia. rewrite Z2Nat.id by lia.
      rewrite Hkey; [done|apply (perm_range (sa t1) m); (done || lia)..].
    + intros i j Hi Hj. rewrite Hltb by done. symmetry. by apply Hkey.
  - split; [lia|]. split; [done|]. exact Hkey.
  - intros ->. by rewrite (Hfirst eq_refl).
  - intros u0 u1 Hu. by rewrite (doubling_chain _ _ _ Hd idx t0 t1 u0 u1 Hidx Hu).
  - intros Hidx0 i Hi. by apply Hrest.
  - intros Hpos.
    pose proof (doubling_invariant rank_order _ _ _ rank_order_step Hd
                  (wf_start str) ltac:(simpl; lia) (rank_order_start str Hpos)) as Hall.
    rewrite Forall_lookup in Hall. specialize (Hall idx (t0, t1) Hidx). simpl in Hall.
    destruct Hall as (_ & _ & _ & Hro & _). split.
    + intros i Hi. apply Hro. by rewrite Hn0.
    + intros i j Hi Hj. rewrite Hkey by done. rewrite <- Hs0.
      apply rank_order_key; (done || by rewrite Hn0).
Qed.

(** C8 as stated fails at the first iteration, where [ra] holds the values of
    the characters, not ranks that start at 1.  For the text ["a\0"] these
    are 97 and 0: [cmp] reads for the position 1 the value of the sentinel.
    Where plain [char] is signed, for the text ["\xE9\xE9"] they are -23 and
    -23, below the sentinel. *)
Lemma ranks_normalized_counterexample :
  (exists tf t0 t1,
     @build_log (impl_of false) (unbuilt [ascii_of_nat 97; zero]) = Ok (tf, [(t0, t1)]) /\
     ra t0 = [97; 0] /\ zth (ra t0) 1 = 0 /\ ra t1 = [2; 1]) /\
  (exists tf t0 t1,
     @build_log (impl_of true) (unbuilt [ascii_of_nat 233; ascii_of_nat 233])
       = Ok (tf, [(t0, t1)]) /\
     ra t0 = [-23; -23] /\ zth (ra t0) 0 < 0).
Proof.
  split; (do 3 eexists; split; [vm_compute; reflexivity|]).
  - split; [reflexivity|]. split; reflexivity.
  - split; [reflexivity|]. reflexivity.
Qed.

(** ** Longest repeated substring *)

(** C4 (the defect).  On the empty text the constructor leaves [sa] empty,
    and [findLCP] reads [sa[0]], outside the array, instead of returning the
    empty string.  On a text of one character [sa = [0]] and [findLCP]
    returns the empty string. *)
Theorem boundary_texts `{Impl} :
  (exists t, SuffixArray_new [] = Ok t /\ sa t = [] /\ findLCP t = OutOfBounds) /\
  (forall c, exists t, SuffixArray_new [c] = Ok t /\ sa t = [0] /\ findLCP t = Ok []).
Proof.
  split; [|intros c]; (eexists; split; [reflexivity|]; split; reflexivity).
Qed.

Lemma positive_text_sorted `{Impl} str :
  positive_text str -> str <> [] ->
  exists t, SuffixArray_new str = Ok t /\ wf t /\ s t = str /\ n t = len str /\
    1 <= n t /\ suffixes_sorted (s t) (sa t) /\ nul_free (s t).
Proof.
  intros Hpos Hne.
  destruct (build_sorted str Hpos) as (t & Hnew & Hwf & Hs & Hn & Hsorted).
  exists t. do 4 (split; [done|]). split; [|split].
  - rewrite Hn. destruct str; [done|]. unfold len. simpl. lia.
  - by rewrite Hs.
  - rewrite Hs. by apply positive_text_nul_free.
Qed.

(** C6 (as amended).  For every non-empty text whose characters all have a
    positive value as [int], [findLCP] returns; the value it stores in
    [plcp[i]] is the length of the longest common prefix of the suffix at [i]
    and the suffix before it in the suffix array (0 for the first suffix of
    the array), found without scanning again the [L - 1] characters known
    to agree; and [plcp[i] >= plcp[i-1] - 1] for consecutive positions. *)
Theorem plcp_monotonicity `{Impl} (str : list ascii) :
  positive_text str -> str <> [] ->
  exists t phi q, SuffixArray_new str = Ok t /\ findLCP_run t = Ok (phi, q) /\
    is_phi t phi /\ len (plcp q) = len str /\
    (forall i, 0 <= i < len str -> zth (plcp q) i = true_plcp str phi i) /\
    (forall i, 1 <= i < len str -> zth (plcp q) (i - 1) - 1 <= zth (plcp q) i).
Proof.
  intros Hpos Hne.
  destruct (positive_text_sorted str Hpos Hne)
    as (t & Hnew & Hwf & Hs & Hn & Hn1 & Hsorted & Hnf).
  destruct (findLCP_run_spec t Hwf Hn1 Hsorted Hnf) as (phi & q & Hrun & Hphi & Hlen & Hvals & _).
  exists t, phi, q. do 3 (split; [done|]). rewrite <- Hn. split; [done|]. split.
  - intros i Hi. rewrite <- Hs. by apply Hvals.
  - intros i Hi. rewrite !Hvals by lia.
    replace i with (i - 1 + 1) at 2 by lia. apply kasai; (done || lia).
Qed.

Lemma plcp_monotonicity_witness :
  exists t phi q, @SuffixArray_new (impl_of true) (text_of "GATAGACA") = Ok t /\
    findLCP_run t = Ok (phi, q) /\
    is_phi t phi /\ len (plcp q) = len (text_of "GATAGACA") /\
    (forall i, 0 <= i < len (text_of "GATAGACA") ->
       zth (plcp q) i = true_plcp (text_of "GATAGACA") phi i) /\
    (forall i, 1 <= i < len (text_of "GATAGACA") ->
       zth (plcp q) (i - 1) - 1 <= zth (plcp q) i).
Proof.
  apply (@plcp_monotonicity (impl_of true) (text_of "GATAGACA")); [|discriminate].
  unfold positive_text. repeat (constructor; [vm_compute; reflexivity|]). constructor.
Defined.

(** C6 as stated fails where plain [char] is signed: for the text
    ["\xE9\xE9\xE9"] the suffix array is [1; 0; 2] and [findLCP] computes
    [plcp = [2; 0; 1]], where [plcp[1] < plcp[0] - 1].  On the text ["\0\0"]
    [findLCP] computes no value: its comparison loop takes the terminator
    for a character of the text and reads [s[3]]. *)
Lemma plcp_monotonicity_counterexample :
  (exists t phi q,
     @SuffixArray_new (impl_of true)
       [ascii_of_nat 233; ascii_of_nat 233; ascii_of_nat 233] = Ok t /\
     findLCP_run t = Ok (phi, q) /\ sa t = [1; 0; 2] /\ plcp q = [2; 0; 1] /\
     zth (plcp q) 1 < zth (plcp q) 0 - 1) /\
  (exists t, @SuffixArray_new (impl_of false) [zero; zero] = Ok t /\
     findLCP_run t = OutOfBounds).
Proof.
  split.
  - do 3 eexists. split; [vm_compute; reflexivity|]. split; [vm_compute; reflexivity|].
    split; [reflexivity|]. split; reflexivity.
  - eexists. split; [vm_compute; reflexivity|]. reflexivity.
Qed.

(** C7 (as amended).  For every non-empty text whose characters all have a
    positive value as [int], the string returned by [findLCP] occurs in the
    text, at two distinct positions when it is not empty, and its length is
    the maximum, over the pairs of distinct suffixes, of the length of their
    longest common prefix. *)
Theorem findLCP_longest_repeated `{Impl} (str : list ascii) :
  positive_text str -> str <> [] ->
  exists t r, SuffixArray_new str = Ok t /\ findLCP t = Ok r /\
    len r = max_pair_lcp str /\
    (exists x, occurs_at str r x) /\
    (r <> [] -> exists x y, x <> y /\ occurs_at str r x /\ occurs_at str r y).
Proof.
  intros Hpos Hne.
  destruct (positive_text_sorted str Hpos Hne)
    as (t & Hnew & Hwf & Hs & Hn & Hn1 & Hsorted & Hnf).
  destruct (findLCP_spec t Hwf Hn1 Hsorted Hnf) as (r & Hrun & Hr).
  exists t, r. split; [done|]. rewrite <- Hs. done.
Qed.

Lemma findLCP_longest_repeated_witness :
  exists t r, @SuffixArray_new (impl_of true) (text_of "GATAGACA") = Ok t /\
    findLCP t = Ok r /\
    len r = max_pair_lcp (text_of "GATAGACA") /\
    (exists x, occurs_at (text_of "GATAGACA") r x) /\
    (r <> [] -> exists x y, x <> y /\
       occurs_at (text_of "GATAGACA") r x /\ occurs_at (text_of "GATAGACA") r y).
Proof.
  apply (@findLCP_longest_repeated (impl_of true) (text_of "GATAGACA")); [|discriminate].
  unfold positive_text. repeat (constructor; [vm_compute; reflexivity|]). constructor.
Defined.

(** C7 as stated fails where plain [char] is signed: for the text
    ["\xE9a\xE9b\xE9b"] [findLCP] returns ["b\xE9b"], of length 3, which
    occurs once, while no two suffixes share more than 2 characters.  It
    also fails on the text ["\0\0"], where the comparison loop reads
    [s[3]], and on the empty text, where [findLCP] reads [sa[0]]. *)
Lemma findLCP_longest_repeated_counterexample :
  (exists t r,
     @SuffixArray_new (impl_of true)
       [ascii_of_nat 233; ascii_of_nat 97; ascii_of_nat 233; ascii_of_nat 98;
        ascii_of_nat 233; ascii_of_nat 98] = Ok t /\
     findLCP t = Ok r /\ len r = 3 /\
     max_pair_lcp [ascii_of_nat 233; ascii_of_nat 97; ascii_of_nat 233; ascii_of_nat 98;
                   ascii_of_nat 233; ascii_of_nat 98] = 2) /\
  (exists t, @SuffixArray_new (impl_of false) [zero; zero] = Ok t /\
     findLCP t = OutOfBounds) /\
  (exists t, @SuffixArray_new (impl_of false) [] = Ok t /\ findLCP t = OutOfBounds).
Proof.
  split; [|split].
  - do 2 eexists. split; [vm_compute; reflexivity|]. split; [vm_compute; reflexivity|].
    split; vm_compute; reflexivity.
  - eexists. split; [vm_compute; reflexivity|]. reflexivity.
  - eexists. split; [vm_compute; reflexivity|]. reflexivity.
Qed.

(** The reads of the loop [while (s[i + L] == s[phi[i] + L]) L++] on a
    sorted suffix array of a text without NUL. *)
Lemma findLCP_bounds t :
  wf t -> 1 <= n t -> suffixes_sorted (s t) (sa t) -> nul_free (s t) ->
  exists phi q, findLCP_run t = Ok (phi, q) /\
    len phi = n t /\ len (plcp q) = n t /\
    forall i, 0 <= i < n t -> zth phi i <> -1 ->
      0 <= zth phi i < n t /\ zth phi i <> i /\
      i + zth (plcp q) i <= n t /\ zth phi i + zth (plcp q) i <= n t.
Proof.
  intros Hwf Hn1 Hsorted Hnf. pose proof Hwf as [Hn _ _ _].
  destruct (findLCP_run_spec t Hwf Hn1 Hsorted Hnf) as (phi & q & Hrun & Hphi & Hlen & Hvals & _).
  exists phi, q. split; [done|]. split; [apply Hphi|]. split; [done|]. intros i Hi Hns.
  destruct (is_phi_pred t phi i Hwf Hn1 Hphi Hi Hns) as (r & _ & _ & _ & Hj & Hji).
  rewrite Hvals by done. unfold true_plcp.
  destruct (Z.eqb_spec (zth phi i) (-1)); [done|].
  pose proof (lcp_len_le_l (suffix (s t) i) (suffix (s t) (zth phi i))) as Hli.
  pose proof (lcp_len_le_r (suffix (s t) i) (suffix (s t) (zth phi i))) as Hlj.
  rewrite suffix_length in Hli, Hlj by lia. lia.
Qed.

(** C10 (the defect).  Where plain [char] is signed, [ra[i] = s[i]] gives the
    characters above 0x7F negative ranks, below the sentinel 0 of [cmp], and
    [build] does not sort the suffixes.  The text ["\xE9\xE9\xE9\xE9"] has no
    NUL character; its suffix array comes out as [2; 0; 1; 3]; at [i = 3]
    the comparison loop of [findLCP] is entered with [L = 2] carried over
    and reads [s[5]], beyond the terminator [s[4]].  On the texts that
    [build] sorts (the non-empty texts whose characters all have a positive
    value as [int], with either signedness and every [std::sort]) the claim
    holds: [findLCP] returns, and for every [i] with [phi[i]] not the
    sentinel, [phi[i]] is an index of the text other than [i], and the value
    of [L] when the comparison loop stops, stored in [plcp[i]], satisfies
    [i + L <= n] and [phi[i] + L <= n]. *)
Theorem findLCP_reads_past_terminator :
  (exists t,
     @SuffixArray_new (impl_of true)
       [ascii_of_nat 233; ascii_of_nat 233; ascii_of_nat 233; ascii_of_nat 233] = Ok t /\
     nul_free (s t) /\ sa t = [2; 0; 1; 3] /\
     findLCP_run t = OutOfBounds /\ findLCP t = OutOfBounds) /\
  (forall (impl : Impl) (str : list ascii),
     @positive_text impl str -> str <> [] ->
     exists t phi q, @SuffixArray_new impl str = Ok t /\ findLCP_run t = Ok (phi, q) /\
       len phi = len str /\ len (plcp q) = len str /\
       forall i, 0 <= i < len str -> zth phi i <> -1 ->
         0 <= zth phi i < len str /\ zth phi i <> i /\
         i + zth (plcp q) i <= len str /\ zth phi i + zth (plcp q) i <= len str).
Proof.
  split.
  - eexists. split; [vm_compute; reflexivity|].
    split; [unfold nul_free; simpl; repeat (constructor; [discriminate|]); constructor|].
    split; [reflexivity|]. split; reflexivity.
  - intros impl str Hpos Hne.
    destruct (@positive_text_sorted impl str Hpos Hne)
      as (t & Hnew & Hwf & Hs & Hn & Hn1 & Hsorted & Hnf).
    destruct (findLCP_bounds t Hwf Hn1 Hsorted Hnf) as (phi & q & Hrun & Hb).
    exists t, phi, q. split; [done|]. rewrite <- Hn. done.
Qed.

Lemma findLCP_reads_past_terminator_witness :
  exists t phi q, @SuffixArray_new (impl_of true) (text_of "GATAGACA") = Ok t /\
    findLCP_run t = Ok (phi, q) /\
    len phi = len (text_of "GATAGACA") /\ len (plcp q) = len (text_of "GATAGACA") /\
    forall i, 0 <= i < len (text_of "GATAGACA") -> zth phi i <> -1 ->
      0 <= zth phi i < len (text_of "GATAGACA") /\ zth phi i <> i /\
      i + zth (plcp q) i <= len (text_of "GATAGACA") /\
      zth phi i + zth (plcp q) i <= len (text_of "GATAGACA").
Proof.
  apply (proj2 findLCP_reads_past_terminator (impl_of true) (text_of "GATAGACA"));
    [|discriminate].
  unfold positive_text. repeat (constructor; [vm_compute; reflexivity|]). constructor.
Defined.

(** * Further properties *)

(** ** Reads within bounds *)

(** X1.  Where plain [char] is unsigned, the bounds of C10 hold for every
    non-empty text without NUL character. *)
Theorem findLCP_reads_in_bounds_unsigned `{Impl} (str : list ascii) :
  plain_char_signed = false -> nul_free str -> str <> [] ->
  exists t phi q, SuffixArray_new str = Ok t /\ findLCP_run t = Ok (phi, q) /\
    len phi = len str /\ len (plcp q) = len str /\
    forall i, 0 <= i < len str -> zth phi i <> -1 ->
      0 <= zth phi i < len str /\ zth phi i <> i /\
      i + zth (plcp q) i <= len str /\ zth phi i + zth (plcp q) i <= len str.
Proof.
  intros Hu Hnf Hne.
  destruct (positive_text_sorted str (nul_free_positive_text str Hu Hnf) Hne)
    as (t & Hnew & Hwf & Hs & Hn & Hn1 & Hsorted & Hnf').
  destruct (findLCP_bounds t Hwf Hn1 Hsorted Hnf') as (phi & q & Hrun & Hb).
  exists t, phi, q. split; [done|]. rewrite <- Hn. done.
Qed.

Lemma findLCP_reads_in_bounds_unsigned_witness :
  exists t phi q,
    @SuffixArray_new (impl_of false)
      [ascii_of_nat 233; ascii_of_nat 233; ascii_of_nat 233; ascii_of_nat 233] = Ok t /\
    findLCP_run t = Ok (phi, q) /\
    len phi = 4 /\ len (plcp q) = 4 /\
    forall i, 0 <= i < 4 -> zth phi i <> -1 ->
      0 <= zth phi i < 4 /\ zth phi i <> i /\
      i + zth (plcp q) i <= 4 /\ zth phi i + zth (plcp q) i <= 4.
Proof.
  apply (@findLCP_reads_in_bounds_unsigned (impl_of false)
           [ascii_of_nat 233; ascii_of_nat 233; ascii_of_nat 233; ascii_of_nat 233]);
    [reflexivity| |discriminate].
  unfold nul_free. repeat (constructor; [discriminate|]). constructor.
Defined.

(** X2.  For every text, whatever its characters, the constructor returns and
    leaves in [sa] a permutation of [0, n). *)
Theorem build_permutation `{Impl} (str : list ascii) :
  exists t, SuffixArray_new str = Ok t /\ s t = str /\ n t = len str /\
    perm_of_indices (len str) (sa t).
Proof.
  destruct (SuffixArray_new_wf str) as (t & Hnew & [_ Hsa _ _] & Hs & Hn).
  exists t. rewrite Hn in Hsa. done.
Qed.

(** X3.  For every text and every pattern, the constructor returns, and [find]
    and [findLCP] either return or read a vector or the string out of
    bounds. *)
Theorem only_out_of_bounds `{Impl} (str p : list ascii) :
  exists t, SuffixArray_new str = Ok t /\
    ((exists pos, find t p = Ok pos) \/ find t p = OutOfBounds) /\
    ((exists r, findLCP t = Ok r) \/ findLCP t = OutOfBounds).
Proof.
  destruct (SuffixArray_new_wf str) as (t & Hnew & Hwf & _).
  exists t. split; [done|]. split; [by apply find_cases|].
  unfold findLCP. destruct (findLCP_run_cases t Hwf) as [(r & ->)| ->]; [left|right]; by eauto.
Qed.

(** ** The comparator *)

Lemma cmp_defined t i j :
  len (ra t) = n t -> 0 <= k t ->
  is_ok (cmp t i j) = true <-> 0 <= i < n t /\ 0 <= j < n t.
Proof.
  intros Hra Hk. split.
  - intros Hok.
    destruct (decide (0 <= i < n t)) as [Hi|Hi].
    + split; [done|]. destruct (decide (0 <= j < n t)) as [Hj|Hj]; [done|]. exfalso.
      unfold cmp in Hok.
      destruct (if i + k t <? n t then vget (ra t) (i + k t) else Ok 0); try done.
      destruct (if j + k t <? n t then vget (ra t) (j + k t) else Ok 0); try done.
      cbn [bind] in Hok. destruct (vget (ra t) i); try done. cbn [bind] in Hok.
      rewrite vget_oob in Hok by lia. done.
    + exfalso. unfold cmp in Hok.
      destruct (if i + k t <? n t then vget (ra t) (i + k t) else Ok 0); try done.
      destruct (if j + k t <? n t then vget (ra t) (j + k t) else Ok 0); try done.
      cbn [bind] in Hok. rewrite vget_oob in Hok by lia. done.
  - intros [Hi Hj]. by rewrite cmp_Ok.
Qed.

Lemma cmp_val_swo_range t :
  len (ra t) = n t -> 0 <= k t -> strict_weak_on (cmp_val t) (seqZ 0 (n t)).
Proof.
  intros Hra Hk.
  assert (Hin : forall x, x ∈ seqZ 0 (n t) -> 0 <= x < n t).
  { intros x Hx%elem_of_seqZ. lia. }
  destruct (key_lt_swo t (seqZ 0 (n t))) as (H1 & H2 & H3).
  split; [|split].
  - intros x Hx. rewrite cmp_val_key by auto. by apply H1.
  - intros x y z Hx Hy Hz. rewrite !cmp_val_key by auto. by apply H2.
  - intros x y z Hx Hy Hz. rewrite !cmp_val_key by auto. by apply H3.
Qed.

(** X4.  In a state whose [ra] has [n] elements and whose step [k] is not
    negative, [cmp(i, j)] reads [ra] within its bounds exactly when [i] and
    [j] are both positions of the text, and on the positions of the text it
    is a strict weak ordering, as [std::sort] requires of its comparator:
    irreflexive, transitive, and with a transitive incomparability. *)
Theorem cmp_strict_weak_ordering (t : SuffixArray) :
  len (ra t) = n t -> 0 <= k t ->
  (forall i j, is_ok (cmp t i j) = true <-> 0 <= i < n t /\ 0 <= j < n t) /\
  strict_weak_on (cmp_val t) (seqZ 0 (n t)).
Proof.
  intros Hra Hk. split; [intros i j; by apply cmp_defined|by apply cmp_val_swo_range].
Qed.

Lemma cmp_strict_weak_ordering_witness :
  (forall i j, is_ok (cmp (@start (impl_of true) (text_of "aba")) i j) = true <->
     0 <= i < n (@start (impl_of true) (text_of "aba")) /\
     0 <= j < n (@start (impl_of true) (text_of "aba"))) /\
  strict_weak_on (cmp_val (@start (impl_of true) (text_of "aba")))
    (seqZ 0 (n (@start (impl_of true) (text_of "aba")))).
Proof.
  apply (cmp_strict_weak_ordering (@start (impl_of true) (text_of "aba")));
    [reflexivity|simpl; lia].
Defined.

(** ** The iterations of the doubling loop *)

Lemma doubling_rounds `{Impl} str tf log :
  doubling (start str) log tf ->
  (forall (idx : nat) t0 t1, log !! idx = Some (t0, t1) ->
     k t0 = 2 ^ Z.of_nat idx /\ k t0 < len str /\ k t1 = k t0) /\
  Z.of_nat (length log) <= Z.log2_up (len str).
Proof.
  intros Hd.
  assert (Hlog : forall (idx : nat) t0 t1, log !! idx = Some (t0, t1) ->
     k t0 = 2 ^ Z.of_nat idx /\ k t0 < len str /\ k t1 = k t0).
  { intros idx t0 t1 Hidx.
    destruct (doubling_log _ _ _ Hd (wf_start str) ltac:(simpl; lia) idx t0 t1 Hidx)
      as (Hwf0 & Hk0 & Hlt0 & Hrun0 & _ & Hn0 & Hkk & _). simpl in Hn0, Hkk.
    destruct (build_iter_spec t0 Hwf0 ltac:(lia) ltac:(lia)) as (t' & Hrun' & _ & _ & _ & Hk' & _).
    rewrite Hrun0 in Hrun'. injection Hrun' as <-. lia. }
  split; [done|].
  destruct (decide (length log = 0%nat)) as [->|Hne]; [apply Z.log2_up_nonneg|].
  destruct (lookup_lt_is_Some_2 log (length log - 1)) as [[t0 t1] Hlast]; [lia|].
  destruct (Hlog _ _ _ Hlast) as (Hk & Hlt & _). rewrite Hk in Hlt.
  apply Z.log2_up_lt_pow2 in Hlt; lia.
Qed.

Lemma doubling_step_bound `{Impl} str tf log :
  doubling (start str) log tf -> 1 <= k tf <= Z.max 1 (2 * len str - 2).
Proof.
  intros Hd.
  destruct (doubling_final _ _ _ Hd) as [(-> & -> & Hge)|(log' & t0 & t1 & -> & Hfin)];
    [simpl; lia|].
  destruct (doubling_rounds str tf _ Hd) as [Hlog _].
  destruct (Hlog (length log') t0 t1) as (Hk & Hlt & Hk1).
  { rewrite lookup_app_r by lia. by rewrite Nat.sub_diag. }
  assert (1 <= k t0) by (rewrite Hk; apply (Z.pow_le_mono_r 2 0); lia).
  destruct Hfin as [[-> _]|[-> _]]; simpl; lia.
Qed.

(** X5.  For every text, the [idx]-th iteration of the doubling loop runs
    with [k = 2 ^ idx < n] and leaves [k] as it is; the loop makes at most
    [ceil (log2 n)] iterations (none for a text of fewer than two
    characters); and the value of [k] when [build] returns is at least 1 and
    at most [max 1 (2 n - 2)], so that [k <<= 1] and the sums [i + k] stay
    below [2 n]. *)
Theorem doubling_rounds_bound `{Impl} (str : list ascii) :
  exists tf log, build_log (unbuilt str) = Ok (tf, log) /\
    (forall (idx : nat) t0 t1, log !! idx = Some (t0, t1) ->
       k t0 = 2 ^ Z.of_nat idx /\ k t0 < len str /\ k t1 = k t0) /\
    Z.of_nat (length log) <= Z.log2_up (len str) /\
    1 <= k tf <= Z.max 1 (2 * len str - 2).
Proof.
  destruct (build_log_doubling str) as (tf & log & Hrun & Hd).
  exists tf, log. split; [done|].
  destruct (doubling_rounds str tf log Hd) as [Hlog Hlen].
  split; [done|]. split; [done|]. by apply (doubling_step_bound str tf log).
Qed.

(** *** The ranks left by the last iteration *)

Lemma rank_at_all f (l : list Z) (m : nat) :
  (forall p : nat, (p < m)%nat -> f (zth l (Z.of_nat p)) (zth l (Z.of_nat (S p))) = true) ->
  rank_at f l m = 1 + Z.of_nat m.
Proof.
  induction m as [|m IH]; intros Hf; [done|].
  cbn [rank_at]. rewrite IH by (intros p Hp; apply Hf; lia).
  rewrite Hf by lia. simpl. lia.
Qed.

Lemma rank_at_gap f (l : list Z) (m : nat) :
  rank_at f l m = 1 + Z.of_nat m \/
  exists p : nat, (p < m)%nat /\ f (zth l (Z.of_nat p)) (zth l (Z.of_nat (S p))) = false.
Proof.
  induction m as [|m [IH|(p & Hp & Hf)]]; [by left| |right; exists p; split; [lia|done]].
  destruct (f (zth l (Z.of_nat m)) (zth l (Z.of_nat (S m)))) eqn:Hf.
  - left. cbn [rank_at]. rewrite IH, Hf. simpl. lia.
  - right. exists m. split; [lia|done].
Qed.

Lemma lex_ltb_distinct a b : a <> b -> lex_ltb b a = false -> lex_ltb a b = true.
Proof.
  unfold lex_ltb. intros Hne Hba.
  destruct (traits_compare b a) eqn:Hc; [|done|].
  - apply traits_compare_eq in Hc. congruence.
  - apply traits_compare_lt_gt in Hc. by rewrite Hc.
Qed.

(** After the last iteration the rank of the suffix at position [r] of [sa]
    is [r + 1]. *)
Lemma last_iteration_ranks `{Impl} t0 t1 :
  wf t0 -> 1 <= k t0 -> k t0 < n t0 -> rank_order t0 -> build_iter t0 = Ok t1 ->
  zth (ra t1) (zth (sa t1) (n t1 - 1)) = n t1 \/ n t1 <= 2 * k t1 ->
  forall r, 0 <= r < n t0 -> zth (ra t1) (zth (sa t1) r) = 1 + r.
Proof.
  intros Hwf Hk Hlt Hro Hrun Hend.
  destruct (build_iter_ranks t0 Hwf ltac:(lia) ltac:(lia))
    as (t' & Hrun' & Hwf' & Hs & Hn & Hk' & Hord & Hranks & Hltb & Hbounds).
  rewrite Hrun in Hrun'. injection Hrun' as <-.
  pose proof Hwf' as [_ Hsa' _ _]. rewrite Hn in Hsa'.
  pose proof Hwf as [Hns _ _ _].
  intros r Hr. rewrite Hranks by done.
  destruct Hend as [Hfull|Hexit].
  - rewrite (rank_at_full (key_lt t0) (sa t1) (Z.to_nat (n t0))); [lia|lia| |lia].
    rewrite Hn, Hranks in Hfull by lia.
    replace (Z.to_nat (n t0) - 1)%nat with (Z.to_nat (n t0 - 1)) by lia.
    rewrite Hfull. lia.
  - rewrite rank_at_all; [lia|]. intros p Hp.
    pose proof (perm_range (sa t1) (n t0) (Z.of_nat p) Hsa' ltac:(lia)) as Hxp.
    pose proof (perm_range (sa t1) (n t0) (Z.of_nat (S p)) Hsa' ltac:(lia)) as Hxq.
    specialize (Hord (Z.of_nat p) (Z.of_nat (S p)) ltac:(lia) ltac:(lia)).
    rewrite rank_order_key in Hord |- * by done.
    rewrite !prefix_at_full in Hord |- * by lia.
    apply lex_ltb_distinct; [|done].
    intros Heq. apply suffix_inj in Heq; [|lia..].
    apply (perm_inj (sa t1) (n t0)) in Heq; [lia|done|lia..].
Qed.

(** The last iteration of the doubling loop on a text of at least two
    characters, all positive. *)
Lemma build_last_iteration `{Impl} str tf log :
  positive_text str -> 2 <= len str -> doubling (start str) log tf ->
  exists log' t0 t1, log = log' ++ [(t0, t1)] /\
    wf t0 /\ 1 <= k t0 /\ k t0 < n t0 /\ rank_order t0 /\ build_iter t0 = Ok t1 /\
    s t0 = str /\ n t0 = len str /\ k t0 = 2 ^ Z.of_nat (length log') /\
    sa tf = sa t1 /\ ra tf = ra t1 /\
    (zth (ra t1) (zth (sa t1) (n t1 - 1)) = n t1 \/ n t1 <= 2 * k t1).
Proof.
  intros Hpos Hn2 Hd.
  pose proof (doubling_invariant rank_order _ _ _ rank_order_step Hd
                (wf_start str) ltac:(simpl; lia) (rank_order_start str Hpos)) as Hall.
  destruct (doubling_final _ _ _ Hd) as [(-> & -> & Hge)|(log' & t0 & t1 & -> & Hfin)];
    [simpl in Hge; lia|].
  exists log', t0, t1. split; [done|].
  apply Forall_app in Hall as [_ Hlast]. apply Forall_inv in Hlast.
  simpl in Hlast. destruct Hlast as (Hwf0 & Hk0 & Hlt0 & Hro0 & Hrun0).
  do 5 (split; [done|]).
  destruct (doubling_log _ _ _ Hd (wf_start str) ltac:(simpl; lia) (length log') t0 t1)
    as (_ & _ & _ & _ & Hs0 & Hn0 & Hkk & _).
  { rewrite lookup_app_r by lia. by rewrite Nat.sub_diag. }
  simpl in Hs0, Hn0, Hkk. do 2 (split; [done|]). split; [lia|].
  destruct Hfin as [[-> Hf]|[-> Hf]]; simpl; auto.
Qed.

(** *** The number of iterations *)

Lemma doubling_unbroken `{Impl} t log tf :
  doubling t log tf ->
  forall (idx : nat) t0 t1, log !! idx = Some (t0, t1) -> (S idx < length log)%nat ->
    zth (ra t1) (zth (sa t1) (n t1 - 1)) <> n t1.
Proof.
  induction 1 as [t|t t' Hlt Hrun Hlast|t t' log tf Hlt Hrun Hlast Hd IH];
    intros idx t0 t1 Hidx Hlen.
  - done.
  - simpl in Hlen. lia.
  - destruct idx as [|idx]; [by injection Hidx as <- <-|].
    simpl in Hidx, Hlen. apply (IH idx t0 t1 Hidx). lia.
Qed.

Lemma lcp_len_take_ge (m : nat) a b :
  take m a = take m b -> (m <= length a)%nat -> (m <= length b)%nat ->
  Z.of_nat m <= lcp_len a b.
Proof.
  revert a b. induction m as [|m IH]; intros a b Heq Ha Hb; [apply lcp_len_nonneg|].
  destruct a as [|x a]; [simpl in Ha; lia|]. destruct b as [|y b]; [simpl in Hb; lia|].
  simpl in Heq, Ha, Hb. injection Heq as -> Heq. simpl.
  rewrite bool_decide_true by done. specialize (IH a b Heq). lia.
Qed.

Lemma lcp_len_ge_take (m : nat) a b :
  Z.of_nat m <= lcp_len a b -> take m a = take m b.
Proof.
  intros Hm. pose proof (lcp_len_take a b) as Heq.
  apply (f_equal (take m)) in Heq. rewrite !take_take in Heq.
  by replace (m `min` Z.to_nat (lcp_len a b))%nat with m in Heq by lia.
Qed.

(** Two distinct suffixes have the same first [h] characters exactly when
    they have at least [h] characters in common. *)
Lemma prefix_at_eq_lcp str h x y :
  0 <= h -> 0 <= x < len str -> 0 <= y < len str -> x <> y ->
  prefix_at str h x = prefix_at str h y <-> h <= lcp_len (suffix str x) (suffix str y).
Proof.
  intros Hh Hx Hy Hxy. unfold prefix_at. split.
  - intros Heq.
    pose proof (f_equal length Heq) as Hlen. rewrite !length_take in Hlen.
    pose proof (suffix_length str x ltac:(lia)) as Hlx.
    pose proof (suffix_length str y ltac:(lia)) as Hly. unfold len in Hlx, Hly.
    rewrite <- (Z2Nat.id h) by done. apply lcp_len_take_ge; [done|lia..].
  - intros Hle. apply lcp_len_ge_take. lia.
Qed.

Lemma max_pair_lcp_ge str x y :
  0 <= x < len str -> 0 <= y < len str -> x <> y ->
  lcp_len (suffix str x) (suffix str y) <= max_pair_lcp str.
Proof.
  intros Hx Hy Hxy. apply max_list_ge, elem_of_pair_lcps. by exists x, y.
Qed.

Lemma max_pair_lcp_lt str b :
  0 < b ->
  (forall x y, 0 <= x < len str -> 0 <= y < len str -> x <> y ->
     lcp_len (suffix str x) (suffix str y) < b) ->
  max_pair_lcp str < b.
Proof.
  intros Hb Hall. unfold max_pair_lcp.
  destruct (max_list_attained (pair_lcps str)) as [->|Hin]; [done|].
  apply elem_of_pair_lcps in Hin as (x & y & Hx & Hy & Hxy & ->). by apply Hall.
Qed.

(** An iteration that the [break] does not end leaves two suffixes with the
    same first [2 k] characters. *)
Lemma unbroken_iteration `{Impl} t0 t1 :
  wf t0 -> 1 <= k t0 -> k t0 < n t0 -> rank_order t0 -> build_iter t0 = Ok t1 ->
  zth (ra t1) (zth (sa t1) (n t1 - 1)) <> n t1 ->
  2 * k t0 <= max_pair_lcp (s t0).
Proof.
  intros Hwf Hk Hlt Hro Hrun Hnot.
  destruct (build_iter_ranks t0 Hwf ltac:(lia) ltac:(lia))
    as (t' & Hrun' & Hwf' & Hs & Hn & Hk' & Hord & Hranks & Hltb & Hbounds).
  rewrite Hrun in Hrun'. injection Hrun' as <-.
  pose proof Hwf' as [_ Hsa' _ _]. rewrite Hn in Hsa'.
  pose proof Hwf as [Hns _ _ _].
  rewrite Hn, Hranks in Hnot by lia.
  destruct (rank_at_gap (key_lt t0) (sa t1) (Z.to_nat (n t0 - 1))) as [Hfull|(p & Hp & Hf)];
    [lia|].
  pose proof (perm_range (sa t1) (n t0) (Z.of_nat p) Hsa' ltac:(lia)) as Hxp.
  pose proof (perm_range (sa t1) (n t0) (Z.of_nat (S p)) Hsa' ltac:(lia)) as Hxq.
  specialize (Hord (Z.of_nat p) (Z.of_nat (S p)) ltac:(lia) ltac:(lia)).
  rewrite rank_order_key in Hord, Hf by done.
  assert (Hne : zth (sa t1) (Z.of_nat p) <> zth (sa t1) (Z.of_nat (S p))).
  { intros Heq. apply (perm_inj (sa t1) (n t0)) in Heq; [lia|done|lia..]. }
  assert (Heq : prefix_at (s t0) (2 * k t0) (zth (sa t1) (Z.of_nat p)) =
                prefix_at (s t0) (2 * k t0) (zth (sa t1) (Z.of_nat (S p)))).
  { destruct (decide (prefix_at (s t0) (2 * k t0) (zth (sa t1) (Z.of_nat p)) =
                      prefix_at (s t0) (2 * k t0) (zth (sa t1) (Z.of_nat (S p)))))
      as [|Hd]; [done|].
    rewrite (lex_ltb_distinct _ _ Hd Hord) in Hf. done. }
  apply prefix_at_eq_lcp in Heq; [|lia..|done].
  etrans; [exact Heq|]. apply max_pair_lcp_ge; (lia || done).
Qed.

(** After the last iteration no two suffixes have the same first [2 k]
    characters. *)
Lemma last_iteration_distinct `{Impl} t0 t1 :
  wf t0 -> 1 <= k t0 -> k t0 < n t0 -> rank_order t0 -> build_iter t0 = Ok t1 ->
  zth (ra t1) (zth (sa t1) (n t1 - 1)) = n t1 \/ n t1 <= 2 * k t1 ->
  max_pair_lcp (s t0) < 2 * k t0.
Proof.
  intros Hwf Hk Hlt Hro Hrun Hend.
  pose proof (last_iteration_ranks t0 t1 Hwf Hk Hlt Hro Hrun Hend) as Hrk.
  destruct (build_iter_ranks t0 Hwf ltac:(lia) ltac:(lia))
    as (t' & Hrun' & Hwf' & Hs & Hn & Hk' & Hord & Hranks & Hltb & Hbounds).
  rewrite Hrun in Hrun'. injection Hrun' as <-.
  pose proof Hwf' as [_ Hsa' _ _]. rewrite Hn in Hsa'.
  pose proof Hwf as [Hns _ _ _].
  apply max_pair_lcp_lt; [lia|]. rewrite <- Hns. intros x y Hx Hy Hxy.
  destruct (Z_lt_le_dec (lcp_len (suffix (s t0) x) (suffix (s t0) y)) (2 * k t0))
    as [|Hge]; [done|exfalso].
  apply prefix_at_eq_lcp in Hge; [|lia..|done].
  destruct (perm_surj (sa t1) (n t0) x Hsa' Hx) as (p & Hp & Hpx).
  destruct (perm_surj (sa t1) (n t0) y Hsa' Hy) as (q & Hq & Hqy).
  pose proof (Hltb x y Hx Hy) as Hxy'. pose proof (Hltb y x Hy Hx) as Hyx'.
  rewrite rank_order_key in Hxy', Hyx' by done. rewrite Hge in Hxy', Hyx'.
  unfold lex_ltb in Hxy', Hyx'. rewrite traits_compare_refl in Hxy', Hyx'.
  rewrite <- Hpx, <- Hqy, !Hrk in Hxy', Hyx' by done.
  assert (p = q) by lia. congruence.
Qed.

Lemma build_rounds `{Impl} str tf log :
  positive_text str -> 2 <= len str -> doubling (start str) log tf ->
  (1 <= length log)%nat /\
  max_pair_lcp str < 2 ^ Z.of_nat (length log) /\
  forall idx : nat, (1 <= idx < length log)%nat -> 2 ^ Z.of_nat idx <= max_pair_lcp str.
Proof.
  intros Hpos Hn2 Hd.
  destruct (build_last_iteration str tf log Hpos Hn2 Hd)
    as (log' & t0 & t1 & Hlog & Hwf0 & Hk0 & Hlt0 & Hro0 & Hrun0 & Hs0 & Hn0 & Hkk & _ & _ & Hend).
  assert (Hlen : length log = S (length log')).
  { rewrite Hlog, length_app. simpl. lia. }
  split; [lia|]. split.
  - pose proof (last_iteration_distinct t0 t1 Hwf0 Hk0 Hlt0 Hro0 Hrun0 Hend) as Hlt.
    rewrite Hs0, Hkk in Hlt. rewrite Hlen.
    replace (Z.of_nat (S (length log'))) with (Z.of_nat (length log') + 1) by lia.
    rewrite Z.pow_add_r by lia. lia.
  - intros idx Hidx.
    destruct (lookup_lt_is_Some_2 log (idx - 1)) as [[u0 u1] Hu]; [lia|].
    pose proof (doubling_invariant rank_order _ _ _ rank_order_step Hd
                  (wf_start str) ltac:(simpl; lia) (rank_order_start str Hpos)) as Hall.
    rewrite Forall_lookup in Hall. specialize (Hall _ _ Hu). simpl in Hall.
    destruct Hall as (Hwfu & Hku & Hltu & Hrou & Hrunu).
    destruct (doubling_log _ _ _ Hd (wf_start str) ltac:(simpl; lia) _ _ _ Hu)
      as (_ & _ & _ & _ & Hsu & _ & Hkku & _). simpl in Hsu, Hkku.
    pose proof (doubling_unbroken _ _ _ Hd _ _ _ Hu ltac:(lia)) as Hnot.
    pose proof (unbroken_iteration u0 u1 Hwfu Hku Hltu Hrou Hrunu Hnot) as Hge.
    rewrite Hsu, Hkku in Hge.
    replace (Z.of_nat idx) with (Z.of_nat (idx - 1) + 1) by lia.
    rewrite Z.pow_add_r by lia. lia.
Qed.

(** X6.  For every text of at least two characters, all with a positive
    value as [int], the doubling loop stops as soon as no two suffixes have
    the same first [2 k] characters: with [M] the greatest length of a prefix
    common to two distinct suffixes, the number of iterations is the least
    [r >= 1] with [M < 2 ^ r]: one iteration when [M <= 1], and
    [floor (log2 M) + 1] iterations otherwise. *)
Theorem build_rounds_exact `{Impl} (str : list ascii) :
  positive_text str -> 2 <= len str ->
  exists tf log, build_log (unbuilt str) = Ok (tf, log) /\
    max_pair_lcp str < 2 ^ Z.of_nat (length log) /\
    Z.of_nat (length log) = Z.max 1 (Z.log2_up (max_pair_lcp str + 1)).
Proof.
  intros Hpos Hn2.
  destruct (build_log_doubling str) as (tf & log & Hrun & Hd).
  exists tf, log. split; [done|].
  destruct (build_rounds str tf log Hpos Hn2 Hd) as (H1 & Hlt & Hge).
  split; [done|].
  pose proof (max_list_nonneg (pair_lcps str)) as Hnn. fold (max_pair_lcp str) in Hnn.
  destruct (decide (length log = 1%nat)) as [Hone|Hmore].
  - rewrite Hone in *. change (2 ^ Z.of_nat 1) with 2 in Hlt.
    assert (Z.log2_up (max_pair_lcp str + 1) <= 1); [|lia].
    apply Z.log2_up_le_pow2; lia.
  - specialize (Hge (length log - 1)%nat ltac:(lia)).
    rewrite (Z.log2_up_unique (max_pair_lcp str + 1) (Z.of_nat (length log))); [lia|lia|].
    replace (Z.pred (Z.of_nat (length log))) with (Z.of_nat (length log - 1)) by lia. lia.
Qed.

Lemma build_rounds_exact_witness :
  exists tf log, @build_log (impl_of true) (unbuilt (text_of "GATAGACA")) = Ok (tf, log) /\
    max_pair_lcp (text_of "GATAGACA") < 2 ^ Z.of_nat (length log) /\
    Z.of_nat (length log) = Z.max 1 (Z.log2_up (max_pair_lcp (text_of "GATAGACA") + 1)).
Proof.
  apply (@build_rounds_exact (impl_of true) (text_of "GATAGACA")); [|vm_compute; discriminate].
  unfold positive_text. repeat (constructor; [vm_compute; reflexivity|]). constructor.
Defined.

(** X7.  For every text of at least two characters, all with a positive
    value as [int], when the constructor returns [ra] is the inverse of [sa],
    counted from 1: [ra[sa[r]] = r + 1] for every rank [r]. *)
Theorem final_ranks_inverse `{Impl} (str : list ascii) :
  positive_text str -> 2 <= len str ->
  exists t, SuffixArray_new str = Ok t /\ len (ra t) = len str /\
    forall r, 0 <= r < len str -> zth (ra t) (zth (sa t) r) = r + 1.
Proof.
  intros Hpos Hn2.
  destruct (build_log_doubling str) as (tf & log & Hrun & Hd).
  destruct (build_last_iteration str tf log Hpos Hn2 Hd)
    as (log' & t0 & t1 & _ & Hwf0 & Hk0 & Hlt0 & Hro0 & Hrun0 & Hs0 & Hn0 & _ & Hsa & Hra & Hend).
  exists tf. unfold SuffixArray_new, build. rewrite Hrun. simpl. split; [done|].
  rewrite Hsa, Hra, <- Hn0.
  destruct (build_iter_spec t0 Hwf0 ltac:(lia) ltac:(lia)) as (t' & Hrun' & Hwf' & _ & Hn' & _).
  rewrite Hrun0 in Hrun'. injection Hrun' as <-.
  split; [destruct Hwf' as [_ _ Hlen _]; lia|].
  intros r Hr. rewrite (last_iteration_ranks t0 t1) by done. lia.
Qed.

Lemma final_ranks_inverse_witness :
  exists t, @SuffixArray_new (impl_of true) (text_of "GATAGACA") = Ok t /\
    len (ra t) = len (text_of "GATAGACA") /\
    forall r, 0 <= r < len (text_of "GATAGACA") -> zth (ra t) (zth (sa t) r) = r + 1.
Proof.
  apply (@final_ranks_inverse (impl_of true) (text_of "GATAGACA")); [|vm_compute; discriminate].
  unfold positive_text. repeat (constructor; [vm_compute; reflexivity|]). constructor.
Defined.

(** ** The suffix array does not depend on the implementation *)

Lemma suffix_le_antisym str : AntiSymm eq (suffix_le str).
Proof.
  intros x y (Hx & Hy & Hxy) (_ & _ & Hyx).
  apply (suffix_inj str); [lia..|]. by apply lex_le_antisym.
Qed.

Lemma StronglySorted_lookup_2 {A : Type} (R : relation A) (l : list A) :
  (forall (i j : nat) x y, (i < j)%nat -> l !! i = Some x -> l !! j = Some y -> R x y) ->
  StronglySorted R l.
Proof.
  induction l as [|a l IH]; intros Hl; constructor.
  - apply IH. intros i j x y Hij Hi Hj. apply (Hl (S i) (S j)); (lia || done).
  - apply Forall_lookup. intros j y Hj. apply (Hl 0%nat (S j)); (lia || done).
Qed.

Lemma suffixes_sorted_strongly str (l : list Z) :
  perm_of_indices (len str) l -> suffixes_sorted str l -> StronglySorted (suffix_le str) l.
Proof.
  intros Hp Hs. apply StronglySorted_lookup_2. intros i j x y Hij Hi Hj.
  split; [|split].
  - apply (perm_elem l _ x Hp). by eapply list_elem_of_lookup_2.
  - apply (perm_elem l _ y Hp). by eapply list_elem_of_lookup_2.
  - by apply (Hs i j).
Qed.

(** The suffixes of a text are distinct, so there is one way to list the
    positions in the order of the suffixes. *)
Lemma sorted_perm_unique str (l1 l2 : list Z) :
  perm_of_indices (len str) l1 -> suffixes_sorted str l1 ->
  perm_of_indices (len str) l2 -> suffixes_sorted str l2 -> l1 = l2.
Proof.
  intros Hp1 Hs1 Hp2 Hs2.
  apply (@StronglySorted_unique _ (suffix_le str) (suffix_le_antisym str));
    [by apply suffixes_sorted_strongly..|].
  unfold perm_of_indices in *. by rewrite Hp1, Hp2.
Qed.








(** ** [find] on every text *)

(** Whatever the order of [sa], a result of [find] is the part of [sa]
    between the two bounds, and the compared prefix at the lower bound is
    the pattern when this part is not empty. *)
Lemma find_slice t p pos :
  wf t -> find t p = Ok pos ->
  exists first last, 0 <= first /\ first <= last + 1 /\ last < n t /\
    pos = take (Z.to_nat (last + 1 - first)) (drop (Z.to_nat first) (sa t)) /\
    (first <= last -> rank_cmp t p first = Eq).
Proof.
  intros Hwf. pose proof Hwf as [Hn Hsa _ _].
  pose proof (len_nonneg (s t)) as Hn0. rewrite <- Hn in Hn0.
  pose proof (perm_len (sa t) (n t) Hn0 Hsa) as Hlen.
  destruct (lower_bound_loop_returns t p (Z.to_nat (n t)) 0 (n t) Hwf)
    as (lo & Hrun & Hlo); [lia..|].
  unfold find. rewrite Hrun. cbn [bind].
  destruct (decide (lo < n t)) as [Hlt|Hge]; [|by rewrite vget_oob by lia].
  destruct (compare_rank t p lo Hwf ltac:(lia)) as [Hget Hcmp].
  rewrite Hget. cbn [bind]. rewrite Hcmp. cbn [bind].
  assert (Hnone : Ok [] = Ok pos -> exists first last, 0 <= first /\ first <= last + 1 /\
            last < n t /\
            pos = take (Z.to_nat (last + 1 - first)) (drop (Z.to_nat first) (sa t)) /\
            (first <= last -> rank_cmp t p first = Eq)).
  { intros [= <-]. exists lo, (lo - 1).
    replace (Z.to_nat (lo - 1 + 1 - lo)) with O by lia.
    repeat split; (lia || done). }
  destruct (rank_cmp t p lo) eqn:Hc; [|done..].
  destruct (upper_bound_loop_returns t p (Z.to_nat (n t)) (-1) (n t - 1) Hwf)
    as (hi & Hrun2 & Hhi); [lia..|].
  rewrite Hrun2. cbn [bind].
  destruct (decide (lo <= hi + 1)) as [Hle|Hgt].
  - rewrite push_loop_spec by (done || lia). intros [= <-].
    exists lo, hi. repeat split; (lia || done).
  - rewrite for_loop_empty by lia. done.
Qed.

Lemma slice_segment {A : Type} (l : list A) (a b : nat) :
  exists before after, l = before ++ take b (drop a l) ++ after.
Proof.
  exists (take a l), (drop b (drop a l)). by rewrite !take_drop.
Qed.

Lemma slice_NoDup (l : list Z) m (a b : nat) :
  perm_of_indices m l -> NoDup (take b (drop a l)).
Proof.
  intros Hp. eapply sublist_NoDup; [exact (perm_NoDup _ m Hp)|].
  etrans; [apply sublist_take|apply sublist_drop].
Qed.

Lemma slice_elem (l : list Z) m (a b : nat) x :
  perm_of_indices m l -> x ∈ take b (drop a l) -> 0 <= x < m.
Proof.
  intros Hp Hx. apply (perm_elem l m x Hp).
  eapply elem_of_sublist; [exact Hx|]. etrans; [apply sublist_take|apply sublist_drop].
Qed.

Lemma rank_cmp_occurs t p r :
  wf t -> 0 <= r < n t -> rank_cmp t p r = Eq -> occurs_at (s t) p (zth (sa t) r).
Proof.
  intros Hwf Hr Heq. apply (occurs_at_rank t p _ Hwf). by exists r.
Qed.

Lemma find_any t p :
  wf t ->
  find t p = OutOfBounds \/
  exists pos, find t p = Ok pos /\
    (exists before after, sa t = before ++ pos ++ after) /\
    NoDup pos /\ (forall x, x ∈ pos -> 0 <= x < n t) /\
    (forall x, head pos = Some x -> occurs_at (s t) p x).
Proof.
  intros Hwf. pose proof Hwf as [Hn Hsa _ _].
  pose proof (len_nonneg (s t)) as Hn0. rewrite <- Hn in Hn0.
  pose proof (perm_len (sa t) (n t) Hn0 Hsa) as Hlen.
  destruct (find_cases t p Hwf) as [(pos & Hfind)|Hoob]; [right|by left].
  destruct (find_slice t p pos Hwf Hfind) as (first & last & Hfirst & Hfl & Hlast & -> & Heq).
  eexists. split; [exact Hfind|]. split; [apply slice_segment|].
  split; [by eapply slice_NoDup|]. split; [intros x; by eapply slice_elem|].
  intros x Hx.
  destruct (decide (first <= last)) as [Hle|Hgt].
  - assert (x = zth (sa t) first) as ->.
    { rewrite head_lookup in Hx. rewrite lookup_take_lt in Hx by lia.
      rewrite lookup_drop, Nat.add_0_r, lookup_zth in Hx by lia. congruence. }
    apply rank_cmp_occurs; (done || lia || auto).
  - replace (Z.to_nat (last + 1 - first)) with O in Hx by lia. done.
Qed.

(** X9.  For every text, whatever its characters, and every pattern, [find]
    either reads [sa] out of bounds or returns a segment of consecutive
    elements of [sa]: positions of the text, each at most once; and the
    first position it returns, if any, is one where the pattern occurs. *)
Theorem find_returns_segment `{Impl} (str p : list ascii) :
  exists t, SuffixArray_new str = Ok t /\
    (find t p = OutOfBounds \/
     exists pos, find t p = Ok pos /\
       (exists before after, sa t = before ++ pos ++ after) /\
       NoDup pos /\ (forall x, x ∈ pos -> 0 <= x < len str) /\
       (forall x, head pos = Some x -> occurs_at str p x)).
Proof.
  destruct (SuffixArray_new_wf str) as (t & Hnew & Hwf & Hs & Hn).
  exists t. split; [done|]. pose proof (find_any t p Hwf) as Hf.
  rewrite Hs, Hn in Hf. exact Hf.
Qed.

Lemma find_absent t p :
  wf t -> (forall i, ~ occurs_at (s t) p i) -> find t p = Ok [] \/ find t p = OutOfBounds.
Proof.
  intros Hwf Habs.
  destruct (find_any t p Hwf) as [Hoob|(pos & Hfind & _ & _ & _ & Hhead)]; [by right|left].
  destruct pos as [|x pos]; [done|]. destruct (Habs x). by apply Hhead.
Qed.

(** X10.  For every text, whatever its characters, [find] reports no
    position for a pattern that does not occur in the text (in particular
    for a pattern longer than the text): it returns the empty list, or reads
    [sa] out of bounds. *)
Theorem find_absent_pattern `{Impl} (str p : list ascii) :
  (forall i, ~ occurs_at str p i) ->
  exists t, SuffixArray_new str = Ok t /\ (find t p = Ok [] \/ find t p = OutOfBounds).
Proof.
  intros Habs. destruct (SuffixArray_new_wf str) as (t & Hnew & Hwf & Hs & Hn).
  exists t. split; [done|]. apply find_absent; [done|]. by rewrite Hs.
Qed.

Lemma find_absent_pattern_witness :
  exists t, @SuffixArray_new (impl_of true) (text_of "ab") = Ok t /\
    (find t (text_of "abc") = Ok [] \/ find t (text_of "abc") = OutOfBounds).
Proof.
  apply (@find_absent_pattern (impl_of true) (text_of "ab") (text_of "abc")).
  intros i [_ Hocc]. apply (f_equal length) in Hocc.
  rewrite length_take in Hocc. unfold suffix in Hocc. rewrite length_drop in Hocc.
  change (length (text_of "abc")) with 3%nat in Hocc.
  change (length (text_of "ab")) with 2%nat in Hocc. lia.
Defined.

(** ** [find] on a sorted suffix array *)

Lemma occurs_at_cmp str p x :
  occurs_at str p x -> traits_compare (prefix_at str (len p) x) p = Eq.
Proof.
  intros [_ Hocc]. apply traits_compare_eq_iff. unfold prefix_at.
  by replace (Z.to_nat (len p)) with (length p) by (unfold len; lia).
Qed.

Lemma find_sorted t p :
  wf t -> suffixes_sorted (s t) (sa t) ->
  (exists i, 0 <= i < n t /\ traits_compare (prefix_at (s t) (len p) i) p <> Lt) ->
  exists pos, find t p = Ok pos /\ NoDup pos /\ forall x, x ∈ pos <-> occurs_at (s t) p x.
Proof.
  intros Hwf Hsorted (i & Hi & Hnlt). pose proof Hwf as [Hn Hsa _ _].
  pose proof (perm_len (sa t) (n t) ltac:(lia) Hsa) as Hlen.
  destruct (find_range t p Hwf (sorted_cmp_monotone t p Hwf Hsorted))
    as (first & last & Hfind & Hfirst & Hfl & Hlast & Hrange).
  { destruct (perm_surj (sa t) (n t) i Hsa Hi) as (r & Hr & Hri).
    exists r. split; [done|]. unfold rank_cmp. by rewrite Hri. }
  eexists. split; [exact Hfind|]. split; [by eapply slice_NoDup|].
  intros x. rewrite elem_of_range by lia. rewrite (occurs_at_rank t p x Hwf). split.
  - intros (r & Hr & ->). exists r. split; [lia|]. split; [done|]. apply Hrange; lia.
  - intros (r & Hr & -> & Heq). exists r. split; [by apply Hrange|done].
Qed.

Lemma occurs_at_whole str x : occurs_at str str x -> x = 0.
Proof.
  intros [Hx Hocc]. apply (f_equal length) in Hocc.
  rewrite length_take in Hocc. unfold suffix in Hocc. rewrite length_drop in Hocc.
  unfold len in Hx. lia.
Qed.

Lemma whole_occurs_at str : str <> [] -> occurs_at str str 0.
Proof.
  intros Hne. split.
  - destruct str; [done|]. unfold len. simpl. lia.
  - unfold suffix. simpl. by rewrite take_ge.
Qed.

Lemma NoDup_only (l : list Z) a : NoDup l -> (forall x, x ∈ l <-> x = a) -> l = [a].
Proof.
  intros Hnd Hin. destruct l as [|y l].
  - pose proof (proj2 (Hin a) eq_refl) as Ha. by apply elem_of_nil in Ha.
  - assert (y = a) as -> by (apply Hin; left).
    destruct l as [|z l]; [done|].
    assert (z = a) as -> by (apply Hin; right; left).
    apply NoDup_cons in Hnd as [Hnot _]. destruct Hnot. left.
Qed.

(** X11.  For every non-empty text whose characters all have a positive
    value as [int], [find] applied to the text itself returns the position 0
    and nothing else. *)
Theorem find_whole_text `{Impl} (str : list ascii) :
  positive_text str -> str <> [] ->
  exists t, SuffixArray_new str = Ok t /\ find t str = Ok [0].
Proof.
  intros Hpos Hne.
  destruct (positive_text_sorted str Hpos Hne)
    as (t & Hnew & Hwf & Hs & Hn & Hn1 & Hsorted & _).
  exists t. split; [done|].
  destruct (find_sorted t str Hwf Hsorted) as (pos & Hfind & Hnd & Hin).
  { exists 0. split; [lia|]. rewrite Hs, occurs_at_cmp; [done|by apply whole_occurs_at]. }
  rewrite Hfind. f_equal. apply NoDup_only; [done|].
  intros x. rewrite Hin, Hs. split; [apply occurs_at_whole|intros ->; by apply whole_occurs_at].
Qed.

Lemma find_whole_text_witness :
  exists t, @SuffixArray_new (impl_of true) (text_of "GATAGACA") = Ok t /\
    find t (text_of "GATAGACA") = Ok [0].
Proof.
  apply (@find_whole_text (impl_of true) (text_of "GATAGACA")); [|discriminate].
  unfold positive_text. repeat (constructor; [vm_compute; reflexivity|]). constructor.
Defined.

Lemma two_elements (l : list Z) x y : x ∈ l -> y ∈ l -> x <> y -> 2 <= len l.
Proof.
  intros Hx Hy Hxy. destruct l as [|a [|b l]]; unfold len; simpl; try lia.
  - by apply elem_of_nil in Hx.
  - apply list_elem_of_singleton in Hx, Hy. congruence.
Qed.

(** X12.  For every non-empty text whose characters all have a positive
    value as [int], [find] applied to the string that [findLCP] returns
    returns normally, with exactly the positions where this string occurs,
    each once; they are at least two when the string is not empty. *)
Theorem find_longest_repeated `{Impl} (str : list ascii) :
  positive_text str -> str <> [] ->
  exists t r pos, SuffixArray_new str = Ok t /\ findLCP t = Ok r /\ find t r = Ok pos /\
    NoDup pos /\ (forall x, x ∈ pos <-> occurs_at str r x) /\
    (r <> [] -> 2 <= len pos).
Proof.
  intros Hpos Hne.
  destruct (positive_text_sorted str Hpos Hne)
    as (t & Hnew & Hwf & Hs & Hn & Hn1 & Hsorted & Hnf).
  destruct (findLCP_spec t Hwf Hn1 Hsorted Hnf) as (r & Hrun & _ & (x0 & Hx0) & Htwice).
  destruct (find_sorted t r Hwf Hsorted) as (pos & Hfind & Hnd & Hin).
  { exists x0. split; [rewrite Hn, <- Hs; apply Hx0|]. by rewrite occurs_at_cmp. }
  exists t, r, pos. do 4 (split; [done|]). rewrite <- Hs. split; [done|].
  intros Hr. destruct (Htwice Hr) as (x & y & Hxy & Hx & Hy).
  apply (two_elements pos x y); [by apply Hin..|done].
Qed.

Lemma find_longest_repeated_witness :
  exists t r pos, @SuffixArray_new (impl_of true) (text_of "GATAGACA") = Ok t /\
    findLCP t = Ok r /\ find t r = Ok pos /\
    NoDup pos /\ (forall x, x ∈ pos <-> occurs_at (text_of "GATAGACA") r x) /\
    (r <> [] -> 2 <= len pos).
Proof.
  apply (@find_longest_repeated (impl_of true) (text_of "GATAGACA")); [|discriminate].
  unfold positive_text. repeat (constructor; [vm_compute; reflexivity|]). constructor.
Defined.

(** ** The string returned by [findLCP] *)

Lemma findLCP_first t :
  wf t -> 1 <= n t -> suffixes_sorted (s t) (sa t) -> nul_free (s t) ->
  exists phi q, findLCP_run t = Ok (phi, q) /\ findLCP t = Ok (lcp q) /\
    (forall i, 0 <= i < n t -> zth (plcp q) i <= maxL q) /\
    ((maxL q = 0 /\ lcp q = []) \/
     (0 < maxL q /\ exists x, 0 <= x < n t /\ zth (plcp q) x = maxL q /\
        (forall y, 0 <= y < x -> zth (plcp q) y < maxL q) /\
        lcp q = prefix_at (s t) (maxL q) x)).
Proof.
  intros Hwf Hn1 Hsorted Hnf.
  destruct (findLCP_run_spec t Hwf Hn1 Hsorted Hnf)
    as (phi & q & Hrun & _ & _ & Hvals & Hmax & Hbest).
  exists phi, q. split; [done|]. split; [unfold findLCP; by rewrite Hrun|]. split.
  - intros i Hi. rewrite Hvals by done. by apply Hmax.
  - destruct Hbest as [Hz|(Hpos & x & Hx & Htp & Hlcp & Hfirst)]; [by left|right].
    split; [done|]. exists x. split; [done|]. split; [by rewrite Hvals|]. split; [|done].
    intros y Hy. rewrite Hvals by lia. by apply Hfirst.
Qed.

(** X13.  For every non-empty text whose characters all have a positive
    value as [int], no element of [plcp] exceeds the final [maxL] of
    [findLCP]; when it is 0 the result is the empty string, and otherwise the
    result is the first [maxL] characters of the suffix at the first
    position [x], in the order of the text, where [plcp[x]] is [maxL]: among
    several longest repeated substrings, the update on [L > maxL], strict,
    keeps the first one met. *)
Theorem findLCP_first_maximum `{Impl} (str : list ascii) :
  positive_text str -> str <> [] ->
  exists t phi q, SuffixArray_new str = Ok t /\ findLCP_run t = Ok (phi, q) /\
    findLCP t = Ok (lcp q) /\
    (forall i, 0 <= i < len str -> zth (plcp q) i <= maxL q) /\
    ((maxL q = 0 /\ lcp q = []) \/
     (0 < maxL q /\ exists x, 0 <= x < len str /\ zth (plcp q) x = maxL q /\
        (forall y, 0 <= y < x -> zth (plcp q) y < maxL q) /\
        lcp q = prefix_at str (maxL q) x)).
Proof.
  intros Hpos Hne.
  destruct (positive_text_sorted str Hpos Hne)
    as (t & Hnew & Hwf & Hs & Hn & Hn1 & Hsorted & Hnf).
  destruct (findLCP_first t Hwf Hn1 Hsorted Hnf) as (phi & q & Hrun & Hq).
  exists t, phi, q. split; [done|]. split; [done|]. rewrite <- Hn, <- Hs. exact Hq.
Qed.

Lemma findLCP_first_maximum_witness :
  exists t phi q, @SuffixArray_new (impl_of true) (text_of "GATAGACA") = Ok t /\
    findLCP_run t = Ok (phi, q) /\ findLCP t = Ok (lcp q) /\
    (forall i, 0 <= i < len (text_of "GATAGACA") -> zth (plcp q) i <= maxL q) /\
    ((maxL q = 0 /\ lcp q = []) \/
     (0 < maxL q /\ exists x, 0 <= x < len (text_of "GATAGACA") /\ zth (plcp q) x = maxL q /\
        (forall y, 0 <= y < x -> zth (plcp q) y < maxL q) /\
        lcp q = prefix_at (text_of "GATAGACA") (maxL q) x)).
Proof.
  apply (@findLCP_first_maximum (impl_of true) (text_of "GATAGACA")); [|discriminate].
  unfold positive_text. repeat (constructor; [vm_compute; reflexivity|]). constructor.
Defined.

Lemma occurs_at_head str c r x : occurs_at str (c :: r) x -> str !! Z.to_nat x = Some c.
Proof.
  intros [Hx Hocc].
  assert (Hl : take (length (c :: r)) (suffix str x) !! 0%nat = Some c) by (by rewrite Hocc).
  rewrite lookup_take_lt in Hl by (simpl; lia).
  rewrite suffix_lookup in Hl by lia. by rewrite Z.add_0_r in Hl.
Qed.

Lemma occurs_at_length str r x : occurs_at str r x -> x + len r <= len str.
Proof.
  intros [Hx Hocc]. apply (f_equal length) in Hocc.
  rewrite length_take in Hocc. unfold suffix in Hocc. rewrite length_drop in Hocc.
  unfold len in *. lia.
Qed.

Lemma max_pair_lcp_zero_NoDup str : max_pair_lcp str = 0 -> NoDup str.
Proof.
  intros Hz. apply NoDup_alt. intros i j c Hi Hj.
  destruct (decide (i = j)) as [|Hne]; [done|]. exfalso.
  apply lookup_lt_Some in Hi as Hilt. apply lookup_lt_Some in Hj as Hjlt.
  destruct (suffix_cons str (Z.of_nat i)) as (ci & Hci & Hsi); [unfold len; lia|].
  destruct (suffix_cons str (Z.of_nat j)) as (cj & Hcj & Hsj); [unfold len; lia|].
  rewrite Nat2Z.id in Hci, Hcj.
  assert (ci = c) as -> by congruence. assert (cj = c) as -> by congruence.
  assert (Hin : lcp_len (suffix str (Z.of_nat i)) (suffix str (Z.of_nat j)) ∈ pair_lcps str).
  { apply elem_of_pair_lcps. exists (Z.of_nat i), (Z.of_nat j).
    repeat split; (unfold len; lia) || done. }
  apply max_list_ge in Hin. fold (max_pair_lcp str) in Hin. rewrite Hz in Hin.
  rewrite Hsi, Hsj in Hin. simpl in Hin. rewrite bool_decide_true in Hin by done.
  pose proof (lcp_len_nonneg (suffix str (Z.of_nat i + 1)) (suffix str (Z.of_nat j + 1))). lia.
Qed.

Lemma findLCP_shape t :
  wf t -> 1 <= n t -> suffixes_sorted (s t) (sa t) -> nul_free (s t) ->
  exists r, findLCP t = Ok r /\ len r = max_pair_lcp (s t) /\ len r < n t /\
    (r = [] <-> NoDup (s t)).
Proof.
  intros Hwf Hn1 Hsorted Hnf. pose proof Hwf as [Hn _ _ _].
  destruct (findLCP_spec t Hwf Hn1 Hsorted Hnf) as (r & Hrun & Hlen & _ & Htwice).
  exists r. do 2 (split; [done|]). split; [|split].
  - destruct r as [|c r]; [unfold len; simpl; lia|].
    destruct (Htwice ltac:(done)) as (x & y & Hxy & Hx & Hy).
    pose proof (occurs_at_length _ _ _ Hx). pose proof (occurs_at_length _ _ _ Hy).
    destruct Hx as [Hx _]. destruct Hy as [Hy _]. lia.
  - intros ->. apply max_pair_lcp_zero_NoDup. by rewrite <- Hlen.
  - intros Hnd. destruct r as [|c r]; [done|]. exfalso.
    destruct (Htwice ltac:(done)) as (x & y & Hxy & Hx & Hy).
    pose proof (occurs_at_head _ _ _ _ Hx) as Hcx.
    pose proof (occurs_at_head _ _ _ _ Hy) as Hcy.
    destruct Hx as [Hx _]. destruct Hy as [Hy _].
    pose proof (NoDup_lookup _ _ _ _ Hnd Hcx Hcy). lia.
Qed.

(** X14.  For every non-empty text whose characters all have a positive
    value as [int], the string returned by [findLCP] is strictly shorter
    than the text, and it is the empty string exactly when no character
    occurs twice in the text. *)
Theorem findLCP_empty_iff_distinct `{Impl} (str : list ascii) :
  positive_text str -> str <> [] ->
  exists t r, SuffixArray_new str = Ok t /\ findLCP t = Ok r /\
    len r < len str /\ (r = [] <-> NoDup str).
Proof.
  intros Hpos Hne.
  destruct (positive_text_sorted str Hpos Hne)
    as (t & Hnew & Hwf & Hs & Hn & Hn1 & Hsorted & Hnf).
  destruct (findLCP_shape t Hwf Hn1 Hsorted Hnf) as (r & Hrun & _ & Hlt & Hiff).
  exists t, r. do 2 (split; [done|]). rewrite <- Hn, <- Hs. done.
Qed.

Lemma findLCP_empty_iff_distinct_witness :
  exists t r, @SuffixArray_new (impl_of true) (text_of "ABCDE") = Ok t /\ findLCP t = Ok r /\
    len r < len (text_of "ABCDE") /\ (r = [] <-> NoDup (text_of "ABCDE")).
Proof.
  apply (@findLCP_empty_iff_distinct (impl_of true) (text_of "ABCDE")); [|discriminate].
  unfold positive_text. repeat (constructor; [vm_compute; reflexivity|]). constructor.
Defined.

(** ** Texts made of one character *)

Lemma suffix_replicate (m : nat) c i :
  0 <= i -> suffix (replicate m c) i = replicate (m - Z.to_nat i) c.
Proof. intros Hi. unfold suffix. by rewrite drop_replicate. Qed.

Lemma lex_le_replicate (a b : nat) c : (a <= b)%nat -> lex_le (replicate a c) (replicate b c).
Proof.
  revert b. induction a as [|a IH]; intros b Hab; [apply lex_le_nil|].
  destruct b as [|b]; [lia|]. unfold lex_le in *. simpl. rewrite Z.compare_refl.
  apply IH. lia.
Qed.

Lemma lcp_len_replicate (a b : nat) c :
  lcp_len (replicate a c) (replicate b c) = Z.of_nat (a `min` b).
Proof.
  revert b. induction a as [|a IH]; intros [|b]; simpl; try done.
  rewrite bool_decide_true by done. rewrite IH. lia.
Qed.

Lemma unary_sorted (m : nat) c :
  perm_of_indices (len (replicate m c)) (reverse (seqZ 0 (Z.of_nat m))) /\
  suffixes_sorted (replicate m c) (reverse (seqZ 0 (Z.of_nat m))).
Proof.
  assert (Hlen : len (replicate m c) = Z.of_nat m).
  { unfold len. by rewrite length_replicate. }
  split.
  - unfold perm_of_indices. rewrite Hlen. apply reverse_Permutation.
  - intros i j x y Hij Hi Hj.
    apply lookup_lt_Some in Hj as Hjlt. rewrite length_reverse, length_seqZ in Hjlt.
    rewrite reverse_lookup in Hi, Hj by (rewrite length_seqZ; lia).
    rewrite length_seqZ in Hi, Hj.
    apply lookup_seqZ in Hi as [-> _]. apply lookup_seqZ in Hj as [-> _].
    rewrite !suffix_replicate by lia. apply lex_le_replicate. lia.
Qed.

Lemma occurs_at_replicate (m : nat) c r x :
  occurs_at (replicate m c) r x -> r = replicate (length r) c.
Proof.
  intros [Hx Hocc]. rewrite suffix_replicate in Hocc by lia.
  rewrite take_replicate in Hocc. rewrite <- Hocc at 1. f_equal.
  apply (f_equal length) in Hocc. by rewrite length_replicate in Hocc.
Qed.

(** X15.  For a text made of [m >= 1] copies of one character of positive
    value as [int], the suffix array is [m - 1, ..., 1, 0] (the shorter
    suffix first) and [findLCP] returns [m - 1] copies of the character. *)
Theorem unary_text `{Impl} (m : nat) (c : ascii) :
  0 < char_to_int c -> (1 <= m)%nat ->
  exists t, SuffixArray_new (replicate m c) = Ok t /\
    sa t = reverse (seqZ 0 (Z.of_nat m)) /\
    findLCP t = Ok (replicate (m - 1) c).
Proof.
  intros Hc Hm.
  assert (Hpos : positive_text (replicate m c)) by (by apply Forall_replicate).
  assert (Hne : replicate m c <> []) by (destruct m; [lia|done]).
  assert (Hlen : len (replicate m c) = Z.of_nat m).
  { unfold len. by rewrite length_replicate. }
  destruct (positive_text_sorted _ Hpos Hne)
    as (t & Hnew & Hwf & Hs & Hn & Hn1 & Hsorted & Hnf).
  exists t. split; [done|]. split.
  - destruct (unary_sorted m c) as [Hp Hsrt]. pose proof Hwf as [_ Hsa _ _].
    rewrite Hn in Hsa. rewrite Hs in Hsorted.
    by apply (sorted_perm_unique (replicate m c)).
  - destruct (findLCP_spec t Hwf Hn1 Hsorted Hnf) as (r & Hrun & Hr & (x & Hx) & _).
    destruct (findLCP_shape t Hwf Hn1 Hsorted Hnf) as (r' & Hrun' & _ & Hlt & _).
    rewrite Hrun in Hrun'. injection Hrun' as <-.
    rewrite Hrun. f_equal. rewrite Hs in Hx, Hr.
    rewrite (occurs_at_replicate m c r x Hx). f_equal.
    assert (Z.of_nat (m - 1) <= len r); [|unfold len in *; lia].
    destruct (decide (m = 1%nat)) as [->|Hm1]; [apply len_nonneg|].
    rewrite Hr. etrans; [|apply (max_pair_lcp_ge _ 0 1); lia].
    rewrite !suffix_replicate, lcp_len_replicate by lia. lia.
Qed.

Lemma unary_text_witness :
  exists t, @SuffixArray_new (impl_of true) (replicate 4 (ascii_of_nat 65)) = Ok t /\
    sa t = reverse (seqZ 0 (Z.of_nat 4)) /\
    findLCP t = Ok (replicate (4 - 1) (ascii_of_nat 65)).
Proof.
  apply (@unary_text (impl_of true) 4 (ascii_of_nat 65)); [vm_compute; reflexivity|lia].
Defined.

(** ** [print] *)

Lemma print_spec t out :
  wf t -> print t out = Ok (out ++ concat (map (print_line (s t)) (sa t)) ++ [newline]).
Proof.
  intros [Hn Hsa _ _].
  pose proof (len_nonneg (s t)) as Hn0. rewrite <- Hn in Hn0.
  pose proof (perm_len (sa t) (n t) Hn0 Hsa) as Hlen.
  set (I := fun (i : Z) (o : list ascii) =>
    o = out ++ concat (map (print_line (s t)) (take (Z.to_nat i) (sa t)))).
  destruct (for_loop_inv I (print_body t) 0 (n t) out Hn0) as (o & Hrun & Ho).
  { unfold I. simpl. by rewrite app_nil_r. }
  { intros i o Hi ->. unfold print_body.
    pose proof (perm_range (sa t) (n t) i Hsa Hi) as Hx.
    rewrite vget_Ok by lia. cbn [bind]. unfold substr_from.
    destruct (Z.leb_spec 0 (zth (sa t) i)); [|lia].
    destruct (Z.leb_spec (zth (sa t) i) (len (s t))); [|lia]. cbn [andb bind].
    eexists. split; [reflexivity|]. unfold I.
    replace (Z.to_nat (i + 1)) with (S (Z.to_nat i)) by lia.
    rewrite (take_S_r _ _ (zth (sa t) i)) by (apply lookup_zth; lia).
    rewrite map_app, concat_app. simpl. rewrite app_nil_r, <- app_assoc. done. }
  unfold print. rewrite Hrun. cbn [bind]. rewrite Ho. unfold I.
  rewrite take_ge by (unfold len in Hlen; lia). by rewrite <- app_assoc.
Qed.

(** X16.  For every text, whatever its characters, [print] on the
    constructed object reads no vector out of bounds and [substr] does not
    throw; it writes, for each element [x] of [sa] in order, the line made
    of [x] in decimal, a space, the suffix at [x] and a newline, and then
    one more newline. *)
Theorem print_lines `{Impl} (str out : list ascii) :
  exists t, SuffixArray_new str = Ok t /\
    print t out = Ok (out ++ concat (map (print_line str) (sa t)) ++ [newline]).
Proof.
  destruct (SuffixArray_new_wf str) as (t & Hnew & Hwf & Hs & Hn).
  exists t. split; [done|]. rewrite <- Hs. by apply print_spec.
Qed.

(** ** The scenarios of the specification

    The concrete scenarios of the specification, evaluated with plain [char]
    signed and the insertion sort. *)

Example scenario_gatagaca_sa :
  (let* t := @SuffixArray_new (impl_of true) (text_of "GATAGACA") in Ok (sa t))
  = Ok [7; 5; 3; 1; 6; 4; 0; 2].
Proof. vm_compute. reflexivity. Qed.

Example scenario_gatagaca_find :
  (let* t := @SuffixArray_new (impl_of true) (text_of "GATAGACA") in find t (text_of "GA"))
  = Ok [4; 0].
Proof. vm_compute. reflexivity. Qed.

Example scenario_gatagaca_lcp :
  (let* t := @SuffixArray_new (impl_of true) (text_of "GATAGACA") in findLCP t)
  = Ok (text_of "GA").
Proof. vm_compute. reflexivity. Qed.

Example scenario_aaaa :
  (let* t := @SuffixArray_new (impl_of true) (text_of "AAAA") in
   let* r := findLCP t in Ok (sa t, r))
  = Ok ([3; 2; 1; 0], text_of "AAA").
Proof. vm_compute. reflexivity. Qed.

Example scenario_abcde :
  (let* t := @SuffixArray_new (impl_of true) (text_of "ABCDE") in findLCP t) = Ok [].
Proof. vm_compute. reflexivity. Qed.

Example scenario_gatagaca_print :
  (let* t := @SuffixArray_new (impl_of true) (text_of "GATAGACA") in print t [])
  = Ok (text_of "7 A
5 ACA
3 AGACA
1 ATAGACA
6 CA
4 GACA
0 GATAGACA
2 TAGACA

").
Proof. vm_compute. reflexivity. Qed.
